(** * Faculty scraper (app.py): email extraction, email policy, crawl orchestration

    A shallow embedding of the extraction core of [app.py] and the proofs of
    its specified properties.

    Python [str] values are sequences of Unicode code points: they are
    modelled as [list N].  Literals are written as UTF-8 text and decoded by
    [py].  The regular expressions of the module are embedded as values of
    [re] and run by a backtracking matcher with Python's priorities (greedy
    repetition, ordered alternation, leftmost match).  The HTML tree
    (BeautifulSoup), the HTTP client and the translator are collaborators of
    the module: they are interfaces ([Html], [Client], [Translator]). *)

From Stdlib Require Import String Ascii NArith ZArith Lia.
From stdpp Require Import base option list gmap.

Open Scope N_scope.

(* ===================================================================== *)
(** ** Strings                                                           *)
(* ===================================================================== *)

Abbreviation str := (list N).

Definition ch (a : ascii) : N := N_of_ascii a.

Definition bytes (s : string) : str := map N_of_ascii (list_ascii_of_string s).

(** UTF-8 decoding of a literal (well-formed input; a truncated sequence
    ends the result). *)
Fixpoint utf8_decode (bs : str) : str :=
  match bs with
  | [] => []
  | b :: rest =>
    if b <? 0x80 then b :: utf8_decode rest
    else if b <? 0xE0 then
      match rest with
      | b1 :: r => ((b - 0xC0) * 0x40 + (b1 - 0x80)) :: utf8_decode r
      | _ => []
      end
    else if b <? 0xF0 then
      match rest with
      | b1 :: b2 :: r =>
        ((b - 0xE0) * 0x1000 + (b1 - 0x80) * 0x40 + (b2 - 0x80)) :: utf8_decode r
      | _ => []
      end
    else
      match rest with
      | b1 :: b2 :: b3 :: r =>
        ((b - 0xF0) * 0x40000 + (b1 - 0x80) * 0x1000 + (b2 - 0x80) * 0x40 + (b3 - 0x80))
          :: utf8_decode r
      | _ => []
      end
  end.

Definition py (s : string) : str := utf8_decode (bytes s).

Definition str_eqb (a b : str) : bool := bool_decide (a = b).

(** [x in l] for a list of strings. *)
Definition mem (x : str) (l : list str) : bool := bool_decide (x ∈ l).

Fixpoint startswith (s p : str) : bool :=
  match p, s with
  | [], _ => true
  | c :: p', d :: s' => (c =? d) && startswith s' p'
  | _ :: _, [] => false
  end.

Definition endswith (s p : str) : bool := startswith (reverse s) (reverse p).

(** [p in s] on strings: [p] occurs as a substring of [s]. *)
Fixpoint contains (s p : str) : bool :=
  startswith s p ||
  match s with
  | [] => false
  | _ :: s' => contains s' p
  end.

(** [s.split(c, 1)] when [c] occurs in [s]: the text before the first [c]
    and the text after it. *)
Fixpoint split_first (c : N) (s : str) : option (str * str) :=
  match s with
  | [] => None
  | d :: s' =>
    if d =? c then Some ([], s')
    else match split_first c s' with
         | Some (a, b) => Some (d :: a, b)
         | None => None
         end
  end.

(** [sep.join(parts)] *)
Fixpoint join (sep : str) (parts : list str) : str :=
  match parts with
  | [] => []
  | [p] => p
  | p :: ps => p ++ sep ++ join sep ps
  end.

(* --------------------------------------------------------------------- *)
(** *** Character classes                                                 *)

Definition in_range (lo hi c : N) : bool := (lo <=? c) && (c <=? hi).
Definition is_digit (c : N) : bool := in_range (ch "0") (ch "9") c.
Definition is_upper (c : N) : bool := in_range (ch "A") (ch "Z") c.
Definition is_lower (c : N) : bool := in_range (ch "a") (ch "z") c.
Definition is_alpha (c : N) : bool := is_upper c || is_lower c.
Definition is_ascii (c : N) : bool := c <? 0x80.
Definition one_of (cs : string) (c : N) : bool := bool_decide (c ∈ py cs).

(** Whitespace: [str.isspace] for one code point, which is also [\s] of a
    [str] pattern. *)
Definition is_space (c : N) : bool :=
  in_range 0x09 0x0D c || in_range 0x1C 0x20 c || (c =? 0x85) || (c =? 0xA0)
  || (c =? 0x1680) || in_range 0x2000 0x200A c || (c =? 0x2028) || (c =? 0x2029)
  || (c =? 0x202F) || (c =? 0x205F) || (c =? 0x3000).

(** The four non-ASCII letters that [A-Z] and [a-z] also match under
    [re.I]: U+0130, U+0131, U+017F and U+212A. *)
Definition ci_extra (c : N) : bool :=
  (c =? 0x130) || (c =? 0x131) || (c =? 0x17F) || (c =? 0x212A).

(** [A-Z] under [re.I]. *)
Definition is_alpha_ci (c : N) : bool := is_alpha c || ci_extra c.

(** A literal character of a pattern compiled with [re.I]; [l] is written in
    lower case.  U+017F matches [s], U+212A matches [k], U+0130 and U+0131
    match [i]. *)
Definition lit_ci (l c : N) : bool :=
  (c =? l)
  || (is_lower l
      && ((c =? l - 32)
          || ((l =? ch "s") && (c =? 0x17F))
          || ((l =? ch "k") && (c =? 0x212A))
          || ((l =? ch "i") && ((c =? 0x130) || (c =? 0x131))))).

Definition ascii_lower (c : N) : N := if is_upper c then c + 32 else c.

(** The part of the Unicode database the module relies on through [str]
    methods and [\w]: [lower] is [str.lower], [isalnum] is [str.isalnum] for
    one code point.  On ASCII text both are fixed. *)
Class Unicode := {
  lower : str → str;
  isalnum : N → bool;
  lower_ascii : ∀ s, forallb is_ascii s = true → lower s = map ascii_lower s;
  lower_idem : ∀ s, lower (lower s) = lower s;
  isalnum_ascii : ∀ c, is_ascii c = true → isalnum c = is_alpha c || is_digit c
}.

(** The instance that leaves every non-ASCII code point alone. *)
Program Definition ascii_unicode : Unicode := {|
  lower := map ascii_lower;
  isalnum := fun c => is_alpha c || is_digit c
|}.
Next Obligation. reflexivity. Qed.
Next Obligation.
  intros s. rewrite <- list_fmap_compose. apply list_fmap_ext. intros i c _.
  unfold compose, ascii_lower, is_upper, in_range.
  change (ch "A") with 65. change (ch "Z") with 90.
  repeat match goal with
         | |- context [?a <=? ?b] => destruct (N.leb_spec a b); simpl in *
         end; lia.
Qed.
Next Obligation. reflexivity. Qed.

(** [\w] of a [str] pattern. *)
Definition is_word `{Unicode} (c : N) : bool := isalnum c || (c =? ch "_").

(* ===================================================================== *)
(** ** Regular expressions                                                *)
(* ===================================================================== *)

Inductive re : Type :=
| Eps                                              (* empty pattern *)
| Chr (p : N → bool)                               (* one character of a class *)
| Cat (r1 r2 : re)                                 (* r1 r2 *)
| Alt (r1 r2 : re)                                 (* r1|r2, r1 first *)
| Opt (r : re)                                     (* r?, greedy *)
| Rep (p : N → bool) (lo : nat) (hi : option nat)  (* [p]{lo,hi}, greedy *)
| Eol.                                             (* $ *)

Arguments Rep p lo%_nat hi.

Definition Star (p : N → bool) : re := Rep p 0 None.
Definition Plus (p : N → bool) : re := Rep p 1 None.
Definition Lit (c : N) : re := Chr (N.eqb c).
Definition cat (rs : list re) : re := foldr Cat Eps rs.
Fixpoint alt (r : re) (rs : list re) : re :=
  match rs with
  | [] => r
  | r' :: rs' => Alt r (alt r' rs')
  end.

(** A literal word; with [re.I] when [ci] is set (the word is then written in
    lower case). *)
Definition word (ci : bool) (w : string) : re :=
  cat (map (fun c => Chr (if ci then lit_ci c else N.eqb c)) (py w)).

Definition more (hi : option nat) : bool :=
  match hi with
  | Some O => false
  | _ => true
  end.

(** [$]: at the end of the text, or before a newline that ends it. *)
Definition at_end (rest : str) : bool :=
  match rest with
  | [] => true
  | [c] => c =? 10
  | _ => false
  end.

Section Matcher.
Context {A : Type}.

(** Greedy bounded repetition of a class, then the continuation; on
    failure one character is given back at a time. *)
Fixpoint rep (p : N → bool) (lo : nat) (hi : option nat) (s : str)
    (k : str → option A) : option A :=
  let stop := match lo with O => k s | S _ => None end in
  match s with
  | c :: s' =>
    if p c && more hi then
      match rep p (Nat.pred lo) (Nat.pred <$> hi) s' k with
      | Some x => Some x
      | None => stop
      end
    else stop
  | [] => stop
  end.

(** [rmatch r s k]: match [r] at the start of [s], handing the remaining
    text to [k]; the first success in backtracking order is the result. *)
Fixpoint rmatch (r : re) (s : str) (k : str → option A) : option A :=
  match r with
  | Eps => k s
  | Chr p =>
    match s with
    | c :: s' => if p c then k s' else None
    | [] => None
    end
  | Cat r1 r2 => rmatch r1 s (fun s' => rmatch r2 s' k)
  | Alt r1 r2 =>
    match rmatch r1 s k with
    | Some x => Some x
    | None => rmatch r2 s k
    end
  | Opt r1 =>
    match rmatch r1 s k with
    | Some x => Some x
    | None => k s
    end
  | Rep p lo hi => rep p lo hi s k
  | Eol => if at_end s then k s else None
  end.

(** [pattern.search]: the first position at which [f] succeeds. *)
Fixpoint search_with (f : str → option A) (s : str) : option A :=
  match f s with
  | Some x => Some x
  | None =>
    match s with
    | [] => None
    | _ :: s' => search_with f s'
    end
  end.
End Matcher.

(** The text matched by [r] at the start of [s], and the text after it. *)
Definition match_here (r : re) (s : str) : option (str * str) :=
  match rmatch r s Some with
  | Some rest => Some (take (length s - length rest) s, rest)
  | None => None
  end.

(** [re.fullmatch(r, s)] as a test. *)
Definition fullmatch (r : re) (s : str) : bool :=
  match rmatch r s (fun rest => match rest with [] => Some tt | _ => None end) with
  | Some _ => true
  | None => false
  end.

(** [re.search(r, s).group(0)] *)
Definition search (r : re) (s : str) : option str :=
  search_with (fun t => fst <$> match_here r t) s.

(** One pass over [s] with the non-overlapping matches of [r], left to right:
    [inl c] is a character outside every match, [inr m] a match with text
    [m].  [skip] counts the characters of the current match still to pass.
    (No pattern of the module matches the empty string, see
    [scanned_not_nullable].) *)
Fixpoint scan (r : re) (skip : nat) (s : str) : list (N + str) :=
  match s with
  | [] => []
  | c :: s' =>
    match skip with
    | S n => scan r n s'
    | O =>
      match match_here r s with
      | Some (_ :: m, _) => inr (c :: m) :: scan r (length m) s'
      | _ => inl c :: scan r O s'
      end
    end
  end.

(** [r.sub(repl, s)] *)
Definition sub (r : re) (repl : str) (s : str) : str :=
  flat_map (fun it => match it with inl c => [c] | inr _ => repl end) (scan r O s).

(** [s.replace(old, new)] for a non-empty [old]. *)
Definition replace (old new : string) (s : str) : str :=
  sub (word false old) (py new) s.

(** [r.findall(s)] / the texts of [r.finditer(s)] for [r] without groups. *)
Definition findall (r : re) (s : str) : list str :=
  omap (fun it => match it with inl _ => None | inr m => Some m end) (scan r O s).

(** The pieces of [s] between the matches; with [keep], the matches too (a
    pattern that is one capturing group). *)
Fixpoint pieces (keep : bool) (items : list (N + str)) (cur : str) : list str :=
  match items with
  | [] => [cur]
  | inl c :: its => pieces keep its (cur ++ [c])
  | inr m :: its => cur :: (if keep then [m] else []) ++ pieces keep its []
  end.

(** [re.split(r, s)] *)
Definition split (r : re) (s : str) : list str := pieces false (scan r O s) [].

(** [re.split("(r)", s)] *)
Definition split_keep (r : re) (s : str) : list str := pieces true (scan r O s) [].

(* ===================================================================== *)
(** ** Email handling: configuration                                     *)
(* ===================================================================== *)

Definition sp : re := Star is_space.
Definition sp1 : re := Plus is_space.

(** [[A-Z0-9._%+-]] under [re.I] *)
Definition local_ci (c : N) : bool := is_alpha_ci c || is_digit c || one_of "._%+-" c.
(** [[A-Z0-9.-]] under [re.I] *)
Definition domain_ci (c : N) : bool := is_alpha_ci c || is_digit c || one_of ".-" c.
(** [[A-Za-z0-9._%+-]] *)
Definition local_cs (c : N) : bool := is_alpha c || is_digit c || one_of "._%+-" c.
(** [[A-Za-z0-9.-]] *)
Definition domain_cs (c : N) : bool := is_alpha c || is_digit c || one_of ".-" c.

(** [ACADEMIC_EMAIL_PREF] *)
Definition ACADEMIC_EMAIL_PREF : re :=
  let dot2 := Cat (Lit (ch ".")) (Rep is_alpha_ci 2 (Some 2%nat)) in
  let dot2up := Cat (Lit (ch ".")) (Rep is_alpha_ci 2 None) in
  cat [Lit (ch ".");
       alt (Cat (word true "edu") (Opt dot2))
           [Cat (word true "ac") (Opt dot2);
            Cat (word true "edu") dot2up;
            Cat (word true "ac") dot2up;
            word true "cn";
            word true "org"];
       Eol].

(** [BASIC_EMAIL_RE] *)
Definition BASIC_EMAIL_RE : re :=
  cat [Plus local_ci; Lit (ch "@"); Plus domain_ci; Lit (ch "."); Rep is_alpha_ci 2 (Some 24%nat)].

Definition GENERIC_EMAIL_USERS : list str := map py
  ["info";"contact";"office";"admissions";"apply";"enquiry";"enquiries";"inquiries";"inquiry";
   "press";"media";"pr";"marketing";"outreach";"external";"international";"webmaster";"noreply";
   "no-reply";"admin";"administrator";"root";"support";"help";"service";"services";"career";"careers";
   "hr";"jobs";"recruit";"recruitment";"news";"events";"alumni";"oic";"promote";"postmaster";"security";"abuse";
   "secretary";"office-of";"frontdesk";"student";"students";"library";"postgrad";"undergrad"]%string.

Definition PERSONAL_FREE_DOMAINS : list str := map py
  ["gmail.com";"outlook.com";"hotmail.com";"yahoo.com";"yahoo.co.uk";"proton.me";"icloud.com";
   "qq.com";"163.com";"126.com";"yeah.net"]%string.

Definition fullwidth_at : N := 0xFF20.      (* U+FF20 *)
Definition fullwidth_lparen : N := 0xFF08.  (* U+FF08 *)
Definition fullwidth_rparen : N := 0xFF09.  (* U+FF09 *)
Definition cjk_dian : N := 0x70B9.          (* U+70B9, "dot" *)

Definition EMAIL_TOKEN_PATTERNS : list (re * str) :=
  [ (cat [sp; Opt (Lit (ch "[")); sp; word true "at"; sp; Opt (Lit (ch "]")); sp], py "@");
    (cat [sp; Opt (Lit (ch "(")); sp; word true "at"; sp; Opt (Lit (ch ")")); sp], py "@");
    (cat [sp; Lit fullwidth_at; sp], py "@");
    (cat [sp; Opt (Lit (ch "[")); sp; Lit (ch "#"); sp; Opt (Lit (ch "]")); sp], py "@");
    (alt (cat [sp; Lit (ch "("); sp; word true "dot"; sp; Lit (ch ")")])
         [cat [Lit (ch "["); sp; word true "dot"; sp; Lit (ch "]")];
          cat [Lit (ch "{"); sp; word true "dot"; sp; Lit (ch "}")]], py ".");
    (cat [Opt (Chr (fun c => (c =? fullwidth_lparen) || (c =? ch ")")));
          Lit cjk_dian;
          Opt (Chr (fun c => (c =? fullwidth_rparen) || (c =? ch ")")))], py ".");
    (cat [sp1; word true "dot"; sp1], py ".");
    (cat [sp1; word true "at"; sp1], py "@");
    (alt (cat [sp; word true "(remove)"])
         [cat [word true "(no"; sp; word true "spam)"]], []) ].

(* ===================================================================== *)
(** ** Email extraction                                                   *)
(* ===================================================================== *)

(** The rewrite of [normalize_email]: the substitutions of
    [EMAIL_TOKEN_PATTERNS] in order, then the literal replacements. *)
Definition deobfuscate (text : str) : str :=
  let s := foldl (fun s pr => sub (fst pr) (snd pr) s) text EMAIL_TOKEN_PATTERNS in
  let s := sub (Lit fullwidth_rparen) (py ")") (sub (Lit fullwidth_lparen) (py "(") s) in
  replace "{dot}" "." (replace "[dot]" "." (replace "{at}" "@" (replace "[at]" "@" s))).

(** A match of [g1 \s+ g2] at the start of [t]: the texts of group 1 and
    of group 2. *)
Definition match_g1_ws_g2 (g1 g2 : re) (t : str) : option (str * str) :=
  rmatch g1 t (fun t1 =>
    rmatch sp1 t1 (fun t2 =>
      rmatch g2 t2 (fun t3 =>
        Some (take (length t - length t1) t, take (length t2 - length t3) t2)))).

Section Extraction.
Context `{Unicode}.

Definition tld_words : re :=
  alt (word true "edu")
      (map (word true) ["ac";"com";"org";"cn";"uk";"de";"fr";"jp";"kr"]%string).

Definition normalize_email (text : str) : option str :=
  match text with
  | [] => None
  | _ =>
    let s := deobfuscate text in
    match search BASIC_EMAIL_RE s with
    | Some m => Some m
    | None =>
      let m2 := search_with
                  (match_g1_ws_g2 (Plus local_cs)
                     (cat [Plus domain_cs; Lit (ch "."); Rep is_alpha 2 (Some 24%nat)])) s in
      let r2 := match m2 with
                | Some (g1, g2) =>
                  let cand := g1 ++ py "@" ++ g2 in
                  if fullmatch BASIC_EMAIL_RE cand then Some cand else None
                | None => None
                end in
      match r2 with
      | Some cand => Some cand
      | None =>
        let m3 := search_with
                    (match_g1_ws_g2 (Plus local_ci)
                       (cat [Plus (fun c => is_alpha_ci c || is_digit c || (c =? ch "-"));
                             sp1; tld_words;
                             Opt (cat [sp1; Chr is_word; Chr is_word])])) s in
        match m3 with
        | Some (g1, g2) =>
          let parts := findall (Plus (fun c => is_alpha c || is_digit c || (c =? ch "-"))) g2 in
          let domain :=
            if (2 <=? length parts)%nat
            then join (py ".") (drop (length parts - 3) parts)
            else replace " " "." g2 in
          let cand := g1 ++ py "@" ++ domain in
          if fullmatch BASIC_EMAIL_RE cand then Some cand else None
        | None => None
        end
      end
    end
  end.

(** The truthy results of [normalize_email] over a list of texts. *)
Definition normalized (texts : list str) : list str :=
  omap (fun t => match normalize_email t with
                 | Some (c :: e) => Some (c :: e)
                 | _ => None
                 end) texts.

(** The final loop of [extract_emails]: first occurrences, in order. *)
Fixpoint uniq (seen : gset str) (candidates : list str) : list str :=
  match candidates with
  | [] => []
  | e :: rest =>
    if bool_decide (e ∈ seen) then uniq seen rest
    else e :: uniq ({[e]} ∪ seen) rest
  end.

Definition extract_emails (text : str) : list str :=
  match text with
  | [] => []
  | _ =>
    let candidates := findall BASIC_EMAIL_RE text in
    let tokens := split (Plus (fun c => is_space c || one_of ",;|/<>" c)) text in
    let candidates := candidates ++ normalized tokens in
    let words := split_keep sp1 text in
    let windows := map (fun i => concat (take 5 (drop i words)))
                       (seq 0 (length words - 4)) in
    let candidates := candidates ++ normalized windows in
    uniq ∅ candidates
  end.
End Extraction.

(* ===================================================================== *)
(** ** Email ranking and filtering                                        *)
(* ===================================================================== *)

(** [bool(ACADEMIC_EMAIL_PREF.search(s))] *)
Definition academic_re (s : str) : bool :=
  match search ACADEMIC_EMAIL_PREF s with
  | Some _ => true
  | None => false
  end.

(** The ranking key of [pick_best_email]; tuples compare lexicographically. *)
Definition rank : Type := (Z * Z * Z * Z)%type.

Definition rank_ltb (a b : rank) : bool :=
  let '(a1, a2, a3, a4) := a in
  let '(b1, b2, b3, b4) := b in
  ((a1 <? b1) || ((a1 =? b1) &&
   ((a2 <? b2) || ((a2 =? b2) &&
    ((a3 <? b3) || ((a3 =? b3) && (a4 <? b4)))))))%Z.

Definition nonempty (s : str) : bool :=
  match s with
  | [] => false
  | _ => true
  end.

Section Email.
Context `{Unicode}.

Definition name_affinity (name local_part : str) : nat :=
  let tokens := map lower (findall (Plus is_alpha) name) in
  let local := lower local_part in
  foldl (fun score t =>
           if (2 <=? length t)%nat && (contains local t || contains t local)
           then S score else score) O tokens.

Definition is_academic_domain (domain : str) : bool :=
  academic_re (py "." ++ lower domain).

Definition email_is_generic (local : str) : bool :=
  let l := lower local in
  mem l GENERIC_EMAIL_USERS
  || startswith l (py "no-reply") || startswith l (py "noreply")
  || startswith l (py "postmaster").

(** [dl == site_regdom or dl.endswith("." + site_regdom)] *)
Definition under_domain (dl site_regdom : str) : bool :=
  str_eqb dl site_regdom || endswith dl (py "." ++ site_regdom).

Definition email_allowed (email site_regdom : str) : bool :=
  match split_first (ch "@") email with
  | None => false
  | Some (local, domain) =>
    let dl := lower domain in
    let ll := lower local in
    if email_is_generic ll then false
    else if mem dl PERSONAL_FREE_DOMAINS then false
    else
      let same_regdom := nonempty site_regdom && under_domain dl site_regdom in
      if same_regdom then true
      else is_academic_domain dl
  end.

(** The key computed for a candidate that has passed the two guards of the
    loop. *)
Definition email_rank (name local domain site_regdom : str) : rank :=
  let same_domain :=
    if nonempty site_regdom then Z.b2z (under_domain (lower domain) site_regdom) else 0%Z in
  let academic := Z.b2z (is_academic_domain domain) in
  let aff := Z.of_nat (name_affinity name local) in
  let length_penalty := Z.of_nat (Nat.min (length local) 20) in
  (- same_domain, - academic, - aff, length_penalty)%Z.

(** One iteration of the loop of [pick_best_email] on the pair
    [(best, best_key)]. *)
Definition pick_step (name site_regdom : str) (st : str * option rank) (e : str)
    : str * option rank :=
  match split_first (ch "@") e with
  | None => st
  | Some (local, domain) =>
    if negb (email_allowed e site_regdom) then st
    else
      let key := email_rank name local domain site_regdom in
      match snd st with
      | None => (e, Some key)
      | Some best_key => if rank_ltb key best_key then (e, Some key) else st
      end
  end.

Definition pick_best_email (name : str) (emails : list str) (site_regdom : str) : str :=
  fst (foldl (pick_step name site_regdom) ([], None) emails).
End Email.

(* ===================================================================== *)
(** ** Text utilities                                                     *)
(* ===================================================================== *)

Fixpoint lstrip (s : str) : str :=
  match s with
  | c :: s' => if is_space c then lstrip s' else s
  | [] => []
  end.

(** [s.strip()] *)
Definition strip (s : str) : str := reverse (lstrip (reverse (lstrip s))).

(** [TRAIL_CLEAN]: trailing Chinese or Latin punctuation and whitespace
    (U+FF0C, U+FF1B, U+3002, U+3001). *)
Definition TRAIL_CLEAN : re :=
  Cat (Plus (fun c => (c =? 0xFF0C) || (c =? ch ",") || (c =? 0xFF1B) || (c =? ch ";")
                      || (c =? 0x3002) || (c =? 0x3001) || is_space c))
      Eol.

Definition strip_trailing_punct (s : str) : str :=
  match s with
  | [] => s
  | _ => sub TRAIL_CLEAN [] (strip s)
  end.

Definition found (r : re) (s : str) : bool :=
  match search r s with
  | Some _ => true
  | None => false
  end.

Definition is_cjk (c : N) : bool := in_range 0x4E00 0x9FFF c.

Definition looks_like_human_name (name : str) : bool :=
  if negb (nonempty name) then false
  else if found (alt (word true "about")
                     (map (word true) ["home";"team";"list";"search";"hot";"institutions";
                                       "laboratories";"page"]%string)) name then false
  else if found (alt (Lit (ch "@")) (map (word true) [".com";".edu";".cn"]%string)) name then false
  else if found (Chr is_cjk) name then true
  else
    let tokens := findall (Plus is_alpha) name in
    (2 <=? length tokens)%nat && (3 <=? length (concat tokens))%nat.

(* ===================================================================== *)
(** ** Collaborators                                                      *)
(* ===================================================================== *)

(** An anchor of a parsed page: whether it matches the selector
    [a[rel=next]], its [href] attribute if it has one, and [text_of] it. *)
Record Anchor := {
  rel_next : bool;
  href : option str;
  anchor_text : str
}.

(** An entry of [discover_profiles]: the dict with keys "name" and
    "profile_url". *)
Record ProfileLink := {
  link_name : str;
  link_url : str
}.

(** What the module reads from a document through BeautifulSoup, urllib and
    tldextract.  The argument is the HTML text. *)
Class Dom := {
  urljoin : str → str → str;
  registered_domain : str → str;
  infer_university_from_url : str → str;
  (** [soup.find_all("a")], in document order *)
  anchors : str → list Anchor;
  discover_profiles : str → str → list ProfileLink;
  extract_name : str → str;
  extract_school : str → str;
  extract_research_area : str → str;
  (** the [href] (empty when absent) and the [text_of] of every [a] with a [mailto] href *)
  mailto_links : str → list (str * str);
  get_main_text : str → str;
  extract_phones : str → list str
}.

(** [HttpClient]: its state is threaded through the calls. *)
Class Client (C : Type) := {
  allowed_by_robots : C → str → C * bool;
  fetch : C → str → C * option str;
  (** [client._js is False] *)
  js_disabled : C → bool
}.

(** [TranslatorWrapper.translate(text, "en")] *)
Class Translator (T : Type) := {
  translate : T → str → T * str
}.

(** The values written to [progress["message"]]. *)
Inductive message :=
| JsDisabled
| BlockedByRobots (url : str)
| LoadingListing (url : str)
| FailedListing (url : str)
| FoundLinks (n : nat) (url : str)
| ReachedMax
| RobotsBlockedProfile (url : str)
| OpeningProfile (url : str)
| FailedProfile (url : str)
| Skipped (url : str)
| NoFurtherPages
| Following (page : nat)
| ReachedGlobalMax.

(** The [progress] dict: the successive values of its "message" entry (most
    recent last), its "visited" counter and its "done" flag. *)
Record Progress := {
  messages : list message;
  visited_count : nat;
  done : bool
}.

Definition say (m : message) (p : Progress) : Progress :=
  {| messages := messages p ++ [m]; visited_count := visited_count p; done := done p |}.

Definition count_visit (p : Progress) : Progress :=
  {| messages := messages p; visited_count := S (visited_count p); done := done p |}.

Definition set_done (p : Progress) : Progress :=
  {| messages := messages p; visited_count := visited_count p; done := true |}.

(* ===================================================================== *)
(** ** Pagination and profile parsing                                     *)
(* ===================================================================== *)

Definition MAX_PAGINATION_PAGES : nat := 20.

Definition NEXT_TEXTS : list str := map py
  ["下一页";"下页";"下一頁";"Next";"next";"›";"»";">";"后一页";"下一个";"More";"Older"]%string.

Definition NEXT_RE : re :=
  alt (word false "下一页")
      (map (word false) ["下页";"下一頁";"Next";"››";">>";"More"]%string).

(** [x] when it is truthy. *)
Definition truthy (x : option str) : option str :=
  match x with
  | Some (c :: s) => Some (c :: s)
  | _ => None
  end.

Definition next_text (txt : str) : bool := mem txt NEXT_TEXTS || fullmatch NEXT_RE txt.

Section Pages.
Context `{Unicode} `{Dom}.

Definition find_next_page (listing_html base_url : str) : option str :=
  let soup := anchors listing_html in
  let a := head (filter (fun a => rel_next a = true) soup) in
  match a ≫= (fun a => truthy (href a)) with
  | Some h => Some (urljoin base_url h)
  | None =>
    match head (omap (fun link => if next_text (anchor_text link)
                                  then truthy (href link) else None) soup) with
    | Some h => Some (urljoin base_url h)
    | None => None
    end
  end.

(** The text [full] of [parse_profile]: the href and the text of every
    mailto link, then the main text, the non-empty ones joined by newlines. *)
Definition profile_text (profile_html : str) : str :=
  let texts := flat_map (fun a => [fst a; snd a]) (mailto_links profile_html)
               ++ [get_main_text profile_html] in
  join [10] (filter (fun t => nonempty t = true) texts).

Definition parse_profile (profile_html base_url site_regdom : str)
    : str * str * str * str * str :=
  let name := strip_trailing_punct (extract_name profile_html) in
  if negb (looks_like_human_name name) then ([], [], [], [], [])
  else
    let school := strip_trailing_punct (extract_school profile_html) in
    let research := strip_trailing_punct (extract_research_area profile_html) in
    let full := profile_text profile_html in
    let emails_raw := extract_emails full in
    let email := pick_best_email name emails_raw site_regdom in
    if negb (nonempty email) then ([], [], [], [], [])
    else
      let phone := default [] (head (extract_phones full)) in
      (name, school, research, email, phone).
End Pages.

(* ===================================================================== *)
(** ** Orchestration                                                      *)
(* ===================================================================== *)

(** An entry of the list returned by [process_site]. *)
Record Result := {
  r_name : str;
  r_school : str;
  r_research_area : str;
  r_email : str;
  r_phone : str;
  r_profile_url : str
}.

(** An entry of the list returned by [scrape_sites]. *)
Record Row := {
  university : str;
  school : str;
  name : str;
  email : str;
  phone : str;
  research_area : str;
  profile_url : str
}.

(** [max_profiles is not None and n >= max_profiles] *)
Definition reached (max_profiles : option Z) (n : nat) : bool :=
  match max_profiles with
  | Some m => (m <=? Z.of_nat n)%Z
  | None => false
  end.

(** The local state of [process_site], with the client and the progress
    dict it writes to. *)
Record Crawl (C : Type) := {
  results : list Result;
  visited : gset str;
  client : C;
  progress : Progress
}.
Arguments results {C}.
Arguments visited {C}.
Arguments client {C}.
Arguments progress {C}.

Section Site.
Context `{Unicode} `{Dom} {C : Type} `{Client C}.

Definition tell (m : message) (st : Crawl C) : Crawl C :=
  {| results := results st; visited := visited st; client := client st;
     progress := say m (progress st) |}.

Definition with_client (c : C) (st : Crawl C) : Crawl C :=
  {| results := results st; visited := visited st; client := c;
     progress := progress st |}.

Definition visit (url : str) (st : Crawl C) : Crawl C :=
  {| results := results st; visited := {[url]} ∪ visited st; client := client st;
     progress := progress st |}.

Definition keep (r : Result) (st : Crawl C) : Crawl C :=
  {| results := results st ++ [r]; visited := visited st; client := client st;
     progress := count_visit (progress st) |}.

(** One iteration of [for p in discovered] in [process_site].  The flag of
    the result is set when the iteration ends in [return results]; every
    [continue] ends it with the flag unset. *)
Definition open_profile (p : ProfileLink) (next_url site_regdom : str)
    (max_profiles : option Z) (st : Crawl C) : Crawl C * bool :=
  if reached max_profiles (length (results st)) then (tell ReachedMax st, true)
  else
    let prof_url := if nonempty (link_url p) then link_url p else next_url in
    if bool_decide (prof_url ∈ visited st) then (st, false)
    else
      let st := visit prof_url st in
      let '(c, ok) := allowed_by_robots (client st) prof_url in
      let st := with_client c st in
      if negb ok then (tell (RobotsBlockedProfile prof_url) st, false)
      else
        let st := tell (OpeningProfile prof_url) st in
        let '(c, ph) := fetch (client st) prof_url in
        let st := with_client c st in
        match truthy ph with
        | None => (tell (FailedProfile prof_url) st, false)
        | Some ph =>
          let '(name, school, research, email, phone) :=
            parse_profile ph prof_url site_regdom in
          if negb (nonempty email) then (tell (Skipped prof_url) st, false)
          else
            let st := keep {| r_name := if nonempty name then name else link_name p;
                              r_school := school; r_research_area := research;
                              r_email := email; r_phone := phone;
                              r_profile_url := prof_url |} st in
            if reached max_profiles (length (results st))
            then (tell ReachedMax st, true)
            else (st, false)
        end.

(** The loop [for p in discovered]. *)
Fixpoint open_profiles (discovered : list ProfileLink) (next_url site_regdom : str)
    (max_profiles : option Z) (st : Crawl C) : Crawl C * bool :=
  match discovered with
  | [] => (st, false)
  | p :: rest =>
    let '(st, returned) := open_profile p next_url site_regdom max_profiles st in
    if returned then (st, true)
    else open_profiles rest next_url site_regdom max_profiles st
  end.

(** One iteration of [while next_url and pages<MAX_PAGINATION_PAGES]: the
    state it leaves, and the page to go on with unless the loop or the
    function is left. *)
Definition load_listing (pages : nat) (next_url site_regdom : str)
    (max_profiles : option Z) (st : Crawl C) : Crawl C * option str :=
  let '(c, ok) := allowed_by_robots (client st) next_url in
  let st := with_client c st in
  if negb ok then (tell (BlockedByRobots next_url) st, None)
  else
    let st := tell (LoadingListing next_url) st in
    let '(c, html) := fetch (client st) next_url in
    let st := with_client c st in
    match truthy html with
    | None => (tell (FailedListing next_url) st, None)
    | Some html =>
      let discovered := discover_profiles html next_url in
      let st := tell (FoundLinks (length discovered) next_url) st in
      let '(st, returned) :=
        open_profiles discovered next_url site_regdom max_profiles st in
      if returned then (st, None)
      else
        match truthy (find_next_page html next_url) with
        | None => (tell NoFurtherPages st, None)
        | Some nxt =>
          if str_eqb nxt next_url then (tell NoFurtherPages st, None)
          else (tell (Following (S (S pages))) st, Some nxt)
        end
    end.

(** The loop [while next_url and pages<MAX_PAGINATION_PAGES].  [fuel]
    bounds the number of iterations; [None] is the loop running out of
    it. *)
Fixpoint crawl_pages (fuel pages : nat) (next_url site_regdom : str)
    (max_profiles : option Z) (st : Crawl C) : option (Crawl C) :=
  if negb (nonempty next_url && (pages <? MAX_PAGINATION_PAGES)%nat) then Some st
  else
    match fuel with
    | O => None
    | S fuel =>
      let '(st, nxt) := load_listing pages next_url site_regdom max_profiles st in
      match nxt with
      | None => Some st
      | Some nxt => crawl_pages fuel (S pages) nxt site_regdom max_profiles st
      end
    end.

(** [process_site]: the results, and the client and progress as it leaves
    them. *)
Definition process_site (c : C) (site_url : str) (max_profiles : option Z)
    (pr : Progress) : option (Crawl C) :=
  let site_regdom := registered_domain site_url in
  let pr := if js_disabled c then say JsDisabled pr else pr in
  crawl_pages MAX_PAGINATION_PAGES 0 site_url site_regdom max_profiles
    {| results := []; visited := ∅; client := c; progress := pr |}.
End Site.

(** [needs_trans] of [scrape_sites] *)
Definition needs_trans (s : str) : bool :=
  existsb (in_range 0x100 0xFFFF) s && negb (found (Rep is_alpha 4 None) s).

(** The state of the loops of [scrape_sites]. *)
Record Scrape (C T : Type) := {
  rows : list Row;
  s_client : C;
  s_translator : T;
  s_progress : Progress
}.
Arguments rows {C T}.
Arguments s_client {C T}.
Arguments s_translator {C T}.
Arguments s_progress {C T}.

(** The key of the final de-duplication. *)
Definition row_key `{Unicode} (p : Row) : str * str := (lower (name p), profile_url p).

(** The final loop of [scrape_sites]. *)
Fixpoint dedup `{Unicode} (seen : gset (str * str)) (rows : list Row) : list Row :=
  match rows with
  | [] => []
  | p :: rest =>
    let key := row_key p in
    if bool_decide (key ∈ seen) then dedup seen rest
    else p :: dedup ({[key]} ∪ seen) rest
  end.

Section Sites.
Context `{Unicode} `{Dom} {C T : Type} `{Client C} `{Translator T}.

(** [translator.translate(s, "en")] when a translator is in use and [s]
    needs it. *)
Definition maybe_translate (translate_en : bool) (t : T) (s : str) : T * str :=
  if translate_en && needs_trans s then translate t s else (t, s).

(** The loop [for r in site_rows] of [scrape_sites]; it is left early once
    the global cap is reached. *)
Fixpoint add_rows (site_rows : list Result) (uni : str) (max_profiles : option Z)
    (translate_en : bool) (st : Scrape C T) : Scrape C T :=
  match site_rows with
  | [] => st
  | r :: rest =>
    let '(t, name) := maybe_translate translate_en (s_translator st) (r_name r) in
    let '(t, research) := maybe_translate translate_en t (r_research_area r) in
    let row := {| university := uni; school := r_school r; name := name;
                  email := r_email r; phone := r_phone r; research_area := research;
                  profile_url := r_profile_url r |} in
    let st := {| rows := rows st ++ [row]; s_client := s_client st;
                 s_translator := t; s_progress := s_progress st |} in
    if reached max_profiles (length (rows st))
    then {| rows := rows st; s_client := s_client st; s_translator := s_translator st;
            s_progress := say ReachedGlobalMax (s_progress st) |}
    else add_rows rest uni max_profiles translate_en st
  end.

(** The loop [for site in sites] of [scrape_sites]. *)
Fixpoint each_site (sites : list str) (uni_label : str) (max_profiles : option Z)
    (translate_en : bool) (st : Scrape C T) : option (Scrape C T) :=
  match sites with
  | [] => Some st
  | site :: rest =>
    let site := strip site in
    if negb (nonempty site)
       || negb (startswith (lower site) (py "http://")
                || startswith (lower site) (py "https://"))
    then each_site rest uni_label max_profiles translate_en st
    else
      match process_site (s_client st) site max_profiles (s_progress st) with
      | None => None
      | Some cr =>
        let uni := if nonempty uni_label then uni_label
                   else infer_university_from_url site in
        let st := add_rows (results cr) uni max_profiles translate_en
                    {| rows := rows st; s_client := client cr;
                       s_translator := s_translator st; s_progress := progress cr |} in
        if reached max_profiles (length (rows st)) then Some st
        else each_site rest uni_label max_profiles translate_en st
      end
  end.

(** [scrape_sites]: [c] and [t] are the freshly built client and
    translator; the result is the returned list and the progress dict. *)
Definition scrape_sites (c : C) (t : T) (sites : list str) (uni_label : str)
    (max_profiles : option Z) (translate_en : bool) (pr : Progress)
    : option (list Row * Progress) :=
  match each_site sites uni_label max_profiles translate_en
          {| rows := []; s_client := c; s_translator := t; s_progress := pr |} with
  | None => None
  | Some st => Some (dedup ∅ (rows st), set_done (s_progress st))
  end.
End Sites.

(* ===================================================================== *)
(** * Vocabulary of the specification                                     *)
(* ===================================================================== *)

(** ** Matches of a regular expression

    [matches r w rest]: [r] matches the text [w] when [rest] follows it. *)
Inductive matches : re → str → str → Prop :=
| m_eps rest : matches Eps [] rest
| m_chr p c rest : p c = true → matches (Chr p) [c] rest
| m_cat r1 r2 w1 w2 rest :
    matches r1 w1 (w2 ++ rest) → matches r2 w2 rest → matches (Cat r1 r2) (w1 ++ w2) rest
| m_alt_l r1 r2 w rest : matches r1 w rest → matches (Alt r1 r2) w rest
| m_alt_r r1 r2 w rest : matches r2 w rest → matches (Alt r1 r2) w rest
| m_opt_some r w rest : matches r w rest → matches (Opt r) w rest
| m_opt_none r rest : matches (Opt r) [] rest
| m_rep p lo hi w rest :
    Forall (λ c, p c = true) w → (lo ≤ length w)%nat →
    (∀ h, hi = Some h → (length w ≤ h)%nat) →
    matches (Rep p lo hi) w rest
| m_eol rest : at_end rest = true → matches Eol [] rest.

(** A pattern that may match the empty text. *)
Fixpoint nullable (r : re) : bool :=
  match r with
  | Eps | Opt _ | Eol => true
  | Chr _ => false
  | Cat r1 r2 => nullable r1 && nullable r2
  | Alt r1 r2 => nullable r1 || nullable r2
  | Rep _ lo _ => bool_decide (lo = O)
  end.

(** [x] spells the word [w], written in lower case, in some mix of cases. *)
Definition spelled (w : string) (x : str) : Prop :=
  Forall2 (λ l c, lit_ci l c = true) (py w) x.

(** [p] occurs in [s]. *)
Definition substring (p s : str) : Prop := ∃ a b, s = a ++ p ++ b.

(** ** Obfuscation tokens *)

Fixpoint startswith_ci (s p : str) : bool :=
  match p, s with
  | [], _ => true
  | l :: p', c :: s' => lit_ci l c && startswith_ci s' p'
  | _ :: _, [] => false
  end.

(** [p], written in lower case, occurs in [s] in some mix of cases. *)
Fixpoint contains_ci (s p : str) : bool :=
  startswith_ci s p ||
  match s with
  | [] => false
  | _ :: s' => contains_ci s' p
  end.

Definition obfuscation_chars : str :=
  [ch "#"; fullwidth_at; cjk_dian; fullwidth_lparen; fullwidth_rparen].

Definition obfuscation_words : list str := map py ["at"; "dot"; "(remove)"; "(no"]%string.

(** No de-obfuscation token occurs in [s]: none of the words "at", "dot",
    "(remove)", "(no" in any mix of cases, and none of the characters [#],
    U+FF20, U+70B9, U+FF08, U+FF09. *)
Definition plain (s : str) : bool :=
  forallb (fun w => negb (contains_ci s w)) obfuscation_words
  && forallb (fun c => negb (bool_decide (c ∈ obfuscation_chars))) s.

(** A pattern all of whose matches contain an obfuscation token. *)
Definition marked (r : re) : Prop := ∀ w rest, matches r w rest → plain w = false.

(** ** The email policy *)

Definition ascii (s : str) : Prop := forallb is_ascii s = true.

Definition generic_mailbox (l : str) : Prop :=
  l ∈ GENERIC_EMAIL_USERS
  ∨ py "no-reply" `prefix_of` l ∨ py "noreply" `prefix_of` l ∨ py "postmaster" `prefix_of` l.

Definition free_provider (d : str) : Prop := d ∈ PERSONAL_FREE_DOMAINS.

(** [d] equals [r] or is a subdomain of it. *)
Definition within (d r : str) : Prop := d = r ∨ (py "." ++ r) `suffix_of` d.

(** The endings [ACADEMIC_EMAIL_PREF] looks for, after their first dot:
    edu, ac, cn, org, and edu or ac followed by a dot and two letters or
    more, in any mix of cases. *)
Inductive academic_ending : str → Prop :=
| ae_word w x : w ∈ ["edu"; "ac"; "cn"; "org"]%string → spelled w x → academic_ending x
| ae_country w x cc :
    w ∈ ["edu"; "ac"]%string → spelled w x →
    Forall (λ c, is_alpha_ci c = true) cc → (2 ≤ length cc)%nat →
    academic_ending (x ++ py "." ++ cc).

(** [d] ends with an academic suffix: a dot and an academic ending, at the
    end of ["." + d] or before a newline that ends it. *)
Definition academic_suffix (d : str) : Prop :=
  ∃ pre e nl, py "." ++ d = pre ++ py "." ++ e ++ nl
              ∧ academic_ending e ∧ (nl = [] ∨ nl = [10]).

(** A name token [t] counts for the local part [local]: it has two letters
    or more, and one of the two occurs in the other. *)
Definition akin (local t : str) : Prop :=
  (2 ≤ length t)%nat ∧ (substring t local ∨ substring local t).

Definition akinb (local t : str) : bool :=
  (2 <=? length t)%nat && (contains local t || contains t local).

Definition rank_lt (a b : rank) : Prop := rank_ltb a b = true.

Section Policy.
Context {U : Unicode}.

(** The policy for the two parts of an address as the specification words
    it: the lower-cased local part is not generic, the lower-cased domain
    is no free-mail provider, and the domain is within the site's
    registrable domain or ends with an academic suffix. *)
Definition policy_as_stated (local domain site_regdom : str) : Prop :=
  ¬ generic_mailbox (lower local) ∧ ¬ free_provider (lower domain)
  ∧ (within (lower domain) site_regdom ∨ academic_suffix (lower domain)).

(** The same, the site's registrable domain counting only when there is
    one. *)
Definition policy (local domain site_regdom : str) : Prop :=
  ¬ generic_mailbox (lower local) ∧ ¬ free_provider (lower domain)
  ∧ ((site_regdom ≠ [] ∧ within (lower domain) site_regdom)
     ∨ academic_suffix (lower domain)).

(** An email kept for a site with registrable domain [site_regdom]. *)
Definition institutional (site_regdom e : str) : Prop :=
  e ≠ [] ∧ email_allowed e site_regdom = true.

(** The tokens of a name: its runs of ASCII letters, lower-cased. *)
Definition name_tokens (name : str) : list str := lower <$> findall (Plus is_alpha) name.

(** The ranking key of a candidate. *)
Definition rank_of (name site_regdom e : str) : rank :=
  match split_first (ch "@") e with
  | Some (local, domain) => email_rank name local domain site_regdom
  | None => (0, 0, 0, 0)%Z
  end.

(** The candidates that pass the filter, in order. *)
Definition accepted (site_regdom : str) (emails : list str) : list str :=
  filter (λ e, email_allowed e site_regdom = true) emails.

(** [first_min name r cands st]: the loop state [st] holds the first
    candidate of [cands] with the least key, and that key. *)
Inductive first_min (name r : str) : list str → str * option rank → Prop :=
| fm_none : first_min name r [] ([], None)
| fm_some before best after :
    (∀ e, e ∈ before → rank_lt (rank_of name r best) (rank_of name r e)) →
    (∀ e, e ∈ after → ¬ rank_lt (rank_of name r e) (rank_of name r best)) →
    first_min name r (before ++ best :: after) (best, Some (rank_of name r best)).
End Policy.

(** ** The trace of a crawl *)

(** The profiles opened, the listings loaded and the URLs passed to
    [client.fetch], as the messages announce them. *)
Definition opens (ms : list message) : list str :=
  omap (λ m, match m with OpeningProfile u => Some u | _ => None end) ms.

Definition loads (ms : list message) : list str :=
  omap (λ m, match m with LoadingListing u => Some u | _ => None end) ms.

Definition fetched (ms : list message) : list str :=
  omap (λ m, match m with
             | LoadingListing u | OpeningProfile u => Some u
             | _ => None
             end) ms.

Definition said {C} (st : Crawl C) : list message := messages (progress st).

(** A client that records, next to its state, the URLs passed to [fetch]. *)
Definition logging_client {C} `{Client C} : Client (C * list str) := {|
  allowed_by_robots := fun cl url =>
    let '(c, ok) := allowed_by_robots (fst cl) url in ((c, snd cl), ok);
  fetch := fun cl url =>
    let '(c, html) := fetch (fst cl) url in ((c, snd cl ++ [url]), html);
  js_disabled := fun cl => js_disabled (fst cl)
|}.

Definition log {C} (st : Crawl (C * list str)) : list str := snd (client st).

(** From [st] to [st'] every call of [fetch] has been announced by its
    message, in order. *)
Definition announced {C} (st st' : Crawl (C * list str)) : Prop :=
  ∃ delta, said st' = said st ++ delta ∧ log st' = log st ++ fetched delta.

Section Effect.
Context {U : Unicode} {C : Type}.

(** [effect r ls st st']: from [st] to [st'] the crawl has appended
    messages, among them the listing loads [ls] and profile openings of
    pairwise distinct URLs that were not visited in [st] and are in [st'];
    it has only added to the visited set; and it has appended results whose
    email is institutional for [r]. *)
Record effect (r : str) (ls : list str) (st st' : Crawl C) : Prop := {
  eff_said : ∃ delta, said st' = said st ++ delta ∧ loads delta = ls
             ∧ NoDup (opens delta)
             ∧ (∀ u, u ∈ opens delta → (u ∉ visited st) ∧ (u ∈ visited st'));
  eff_visited : visited st ⊆ visited st';
  eff_results : ∃ added, results st' = results st ++ added
                ∧ Forall (λ res, institutional r (r_email res)) added
}.
End Effect.

(** ** Pagination *)

(** A listing whose page, whenever the client is allowed to fetch it and
    gets it, has a next link that resolves to the URL of the listing
    itself. *)
Definition self_cycling `{Unicode} `{Dom} {C : Type} `{Client C} (url : str) : Prop :=
  ∀ (c c1 c2 : C) html,
    allowed_by_robots c url = (c1, true) → fetch c1 url = (c2, Some html) → html ≠ [] →
    find_next_page html url = Some url.

(** ** The rows of each site *)

Section Gathered.
Context `{Unicode} `{Dom} {C T : Type} `{Client C} `{Translator T}.

(** The rows of [scrape_sites] kept apart by their source site: the loop
    [for site in sites] again, which gives for every site it crawls, in
    order, the site and the rows that [rows.append] adds during the
    iteration for that site. *)
Fixpoint gathered (sites : list str) (uni_label : str) (max_profiles : option Z)
    (translate_en : bool) (st : Scrape C T) : list (str * list Row) :=
  match sites with
  | [] => []
  | site :: rest =>
    if negb (nonempty (strip site))
       || negb (startswith (lower (strip site)) (py "http://")
                || startswith (lower (strip site)) (py "https://"))
    then gathered rest uni_label max_profiles translate_en st
    else
      match process_site (s_client st) (strip site) max_profiles (s_progress st) with
      | None => []
      | Some cr =>
        let uni := if nonempty uni_label then uni_label
                   else infer_university_from_url (strip site) in
        let st' := add_rows (results cr) uni max_profiles translate_en
                     {| rows := rows st; s_client := client cr;
                        s_translator := s_translator st; s_progress := progress cr |} in
        (site, drop (length (rows st)) (rows st'))
          :: (if reached max_profiles (length (rows st')) then []
              else gathered rest uni_label max_profiles translate_en st')
      end
  end.
End Gathered.

(** ** Determinism *)

(** A client whose answers depend on the URL only, whatever its state. *)
Definition deterministic_client (C : Type) `{Client C} : Prop :=
  ∀ (c1 c2 : C) (url : str),
    snd (allowed_by_robots c1 url) = snd (allowed_by_robots c2 url)
    ∧ snd (fetch c1 url) = snd (fetch c2 url).

Definition deterministic_translator (T : Type) `{Translator T} : Prop :=
  ∀ (t1 t2 : T) (s : str), snd (translate t1 s) = snd (translate t2 s).

(** Two crawl states with the same results and the same visited set. *)
Definition same_crawl {C} (st1 st2 : Crawl C) : Prop :=
  results st1 = results st2 ∧ visited st1 = visited st2.

(** ** A small site

    [page1] stands for the listing at [listing1], with links to the profiles
    of John Smith and Jane Doe and the anchor
    <a rel="next" href="http://example.edu/people?page=2">Next</a>; [page2]
    for the listing at [listing2], with the same links and the same anchor,
    which there points to the page itself; [smith_page] for a profile whose
    main text is "john.smith [at] cs.example.edu"; [doe_page] for one that
    only gives a shared mailbox and a private address. *)
Module Demo.
Definition listing1 : str := py "http://example.edu/people".
Definition listing2 : str := py "http://example.edu/people?page=2".
Definition smith : str := py "http://example.edu/~jsmith".
Definition doe : str := py "http://example.edu/~jdoe".
Definition page1 : str := py "page1".
Definition page2 : str := py "page2".
Definition smith_page : str := py "smith".
Definition doe_page : str := py "doe".
Definition is_listing (html : str) : bool := str_eqb html page1 || str_eqb html page2.

Definition dom : Dom := {|
  urljoin := fun base h => h;
  registered_domain := fun url => py "example.edu";
  infer_university_from_url := fun url => py "Example University";
  anchors := fun html =>
    if is_listing html
    then [ {| rel_next := false; href := Some smith; anchor_text := py "John Smith" |};
           {| rel_next := false; href := Some doe; anchor_text := py "Jane Doe" |};
           {| rel_next := true; href := Some listing2; anchor_text := py "Next" |} ]
    else [];
  discover_profiles := fun html base =>
    if is_listing html
    then [ {| link_name := py "John Smith"; link_url := smith |};
           {| link_name := py "Jane Doe"; link_url := doe |} ]
    else [];
  extract_name := fun html =>
    if str_eqb html doe_page then py "Jane Doe" else py "John Smith";
  extract_school := fun html => py "Computer Science";
  extract_research_area := fun html => [];
  mailto_links := fun html => [];
  get_main_text := fun html =>
    if str_eqb html doe_page then py "Office: info@example.edu, jane.doe@gmail.com"
    else py "john.smith [at] cs.example.edu";
  extract_phones := fun text => []
|}.

Definition http : Client unit := {|
  allowed_by_robots := fun c url => (c, true);
  fetch := fun c url =>
    (c, if str_eqb url listing1 then Some page1
        else if str_eqb url listing2 then Some page2
        else if str_eqb url smith then Some smith_page
        else if str_eqb url doe then Some doe_page
        else None);
  js_disabled := fun c => false
|}.

Definition identity : Translator unit := {| translate := fun t s => (t, s) |}.

Definition start : Progress := {| messages := []; visited_count := 0; done := false |}.

(** The state of [process_site] when it has just been entered. *)
Definition fresh {C} (c : C) : Crawl C :=
  {| results := []; visited := ∅; client := c; progress := start |}.
End Demo.

(** ** A page that links to itself

    [page] stands for the listing at [url] that has one card, whose link
    <a href="http://example.edu/staff">Jane Roe</a> points to the listing
    itself, and the anchor <a href="http://example.edu/staff">Next</a>,
    without a next relation, which does so too. *)
Module Loop.
Definition url : str := py "http://example.edu/staff".
Definition page : str := py "staff".

Definition dom : Dom := {|
  urljoin := fun base h => h;
  registered_domain := fun u => py "example.edu";
  infer_university_from_url := fun u => py "Example University";
  anchors := fun html =>
    [ {| rel_next := false; href := Some url; anchor_text := py "Jane Roe" |};
      {| rel_next := false; href := Some url; anchor_text := py "Next" |} ];
  discover_profiles := fun html base =>
    [ {| link_name := py "Jane Roe"; link_url := url |} ];
  extract_name := fun html => py "Jane Roe";
  extract_school := fun html => [];
  extract_research_area := fun html => [];
  mailto_links := fun html => [];
  get_main_text := fun html => py "jane.roe@example.edu";
  extract_phones := fun text => []
|}.

Definition http : Client unit := {|
  allowed_by_robots := fun c u => (c, true);
  fetch := fun c u => (c, if str_eqb u url then Some page else None);
  js_disabled := fun c => false
|}.
End Loop.

(* ===================================================================== *)
(** * More of the module, and the vocabulary of its further properties   *)
(* ===================================================================== *)

(** [text_of(el)]; [raw] is [el.get_text(" ", strip=True)]. *)
Definition text_of (raw : str) : str :=
  let t := replace "ï¼š" "：" raw in
  strip_trailing_punct (sub sp1 (py " ") t).

(** The characters of the class of [TRAIL_CLEAN]. *)
Definition trailing (c : N) : bool :=
  (c =? 0xFF0C) || (c =? ch ",") || (c =? 0xFF1B) || (c =? ch ";")
  || (c =? 0x3002) || (c =? 0x3001) || is_space c.

(** Text that neither starts with whitespace nor ends with whitespace or
    with one of the punctuation marks of [TRAIL_CLEAN]. *)
Definition trimmed (s : str) : Prop :=
  (∀ c, head s = Some c → is_space c = false) ∧ (∀ c, last s = Some c → trailing c = false).

(** Text whose only whitespace is single spaces (U+0020), none of them
    next to another. *)
Definition single_spaced (s : str) : Prop :=
  ∀ pre c rest, s = pre ++ c :: rest →
    is_space c = true → c = 32 ∧ (∀ d, head rest = Some d → is_space d = false).

(** The shape of an address: a local part, [@], a domain, a dot and a
    top-level name of 2 to 24 letters. *)
Definition well_formed (e : str) : Prop :=
  ∃ local domain tld,
    e = local ++ py "@" ++ domain ++ py "." ++ tld
    ∧ local ≠ [] ∧ Forall (λ c, local_ci c = true) local
    ∧ domain ≠ [] ∧ Forall (λ c, domain_ci c = true) domain
    ∧ Forall (λ c, is_alpha_ci c = true) tld ∧ (2 ≤ length tld ≤ 24)%nat.

(** The words that [looks_like_human_name] refuses, in any mix of cases. *)
Definition navigation_words : list string :=
  ["about";"home";"team";"list";"search";"hot";"institutions";"laboratories";"page"]%string.

Definition address_marks : list string := ["@";".com";".edu";".cn"]%string.

(** ** What the crawl keeps *)

Section Kept.
Context {U : Unicode} {D : Dom} {C : Type}.

(** A result that is the reading of a page at its profile URL, with an
    email. *)
Definition parsed (r : str) (res : Result) : Prop :=
  r_email res ≠ []
  ∧ ∃ html, parse_profile html (r_profile_url res) r
            = (r_name res, r_school res, r_research_area res, r_email res, r_phone res).

(** [kept r max st st']: from [st] to [st'] the crawl has appended messages
    and results; the results are readings of the profiles opened, in the
    order of their opening, one for a profile at most; the "visited" counter
    has grown by their number; and with a cap [max] there are no more
    results than the cap, or than there were. *)
Definition kept (r : str) (max : option Z) (st st' : Crawl C) : Prop :=
  ∃ delta added,
    said st' = said st ++ delta
    ∧ results st' = results st ++ added
    ∧ (r_profile_url <$> added) `sublist_of` opens delta
    ∧ Forall (parsed r) added
    ∧ visited_count (progress st') = (visited_count (progress st) + length added)%nat
    ∧ (∀ m, max = Some m →
         (Z.of_nat (length (results st')) ≤ Z.max m (Z.of_nat (length (results st))))%Z).
End Kept.

(** ** Calls of the client *)

(** The calls of [allowed_by_robots], with their answers, and of [fetch]. *)
Inductive call :=
| Asked (url : str) (ok : bool)
| Fetched (url : str).

(** A client that records its calls next to its state. *)
Definition recording_client {C} `{Client C} : Client (C * list call) := {|
  allowed_by_robots := fun cl url =>
    let '(c, ok) := allowed_by_robots (fst cl) url in ((c, snd cl ++ [Asked url ok]), ok);
  fetch := fun cl url =>
    let '(c, html) := fetch (fst cl) url in ((c, snd cl ++ [Fetched url]), html);
  js_disabled := fun cl => js_disabled (fst cl)
|}.

(** Calls in which [fetch] comes only right after [allowed_by_robots] has
    said yes for the same URL, and every yes is followed by the fetch. *)
Inductive polite : list call → Prop :=
| polite_nil : polite []
| polite_refused url rest : polite rest → polite (Asked url false :: rest)
| polite_fetch url rest : polite rest → polite (Asked url true :: Fetched url :: rest).

(** A site that [scrape_sites] crawls: after stripping, it starts with
    http:// or https:// in any mix of cases. *)
Definition crawlable `{Unicode} (site : str) : Prop :=
  py "http://" `prefix_of` lower (strip site) ∨ py "https://" `prefix_of` lower (strip site).

(** The row [scrape_sites] makes of a result, but for the translation of
    the name and of the research area. *)
Definition row_of `{Dom} (uni_label site : str) (res : Result) (row : Row) : Prop :=
  university row = (if nonempty uni_label then uni_label else infer_university_from_url site)
  ∧ school row = r_school res ∧ email row = r_email res ∧ phone row = r_phone res
  ∧ profile_url row = r_profile_url res.

(** What a row keeps of the name or of the research area [s] of a result:
    [s] itself, or its translation when a translator is in use and [s] needs
    one. *)
Definition rendered {T} `{Translator T} (te : bool) (s s' : str) : Prop :=
  s' = s ∨ (te = true ∧ needs_trans s = true ∧ ∃ t : T, s' = snd (translate t s)).

Section Provenance.
Context {U : Unicode} {D : Dom} {T : Type} {Tr : Translator T}.

(** The provenance of a row: a result of a crawlable site among [sites]. *)
Definition from_site (sites : list str) (uni_label : str) (te : bool) (row : Row) : Prop :=
  ∃ site res,
    site ∈ sites ∧ crawlable site
    ∧ parsed (registered_domain (strip site)) res
    ∧ row_of uni_label (strip site) res row
    ∧ rendered te (r_name res) (name row)
    ∧ rendered te (r_research_area res) (research_area row).

End Provenance.

Section Calls.
Context {C : Type}.

Definition calls (st : Crawl (C * list call)) : list call := snd (client st).

(** From [st] to [st'] the calls of the client have been polite. *)
Definition politely (st st' : Crawl (C * list call)) : Prop :=
  ∃ delta, calls st' = calls st ++ delta ∧ polite delta.

End Calls.

(* ===================================================================== *)
(** ** The translator                                                      *)
(* ===================================================================== *)

(** [TranslatorWrapper.mode] when it is not [None]. *)
Inductive mode := googletrans | deep.

(** The two translation libraries: [_gt.translate(text, dest=target).text]
    and [_deep.translate(text)].  Their state is threaded through the calls;
    [None] is the call raising. *)
Class Backend (B : Type) := {
  gt_translate : B → str → str → B * option str;
  deep_translate : B → str → B * option str
}.

(** [TranslatorWrapper]: the cache, keyed by [(text, "auto", target)], the
    mode, and the library in use. *)
Record TranslatorWrapper (B : Type) := {
  cache : gmap (str * str * str) str;
  tw_mode : option mode;
  backend : B
}.
Arguments cache {B}.
Arguments tw_mode {B}.
Arguments backend {B}.

Section Wrapper.
Context {B : Type} `{Backend B}.

(** [TranslatorWrapper()]: [available] is the library that could be
    imported, if any. *)
Definition new_translator (available : option mode) (b : B) : TranslatorWrapper B :=
  {| cache := ∅; tw_mode := available; backend := b |}.

(** [TranslatorWrapper.translate(text, target)] *)
Definition translate_to (tw : TranslatorWrapper B) (text target : str)
    : TranslatorWrapper B * str :=
  match tw_mode tw with
  | None => (tw, text)
  | Some m =>
    if negb (nonempty text) then (tw, text)
    else
      let key := (text, py "auto", target) in
      match cache tw !! key with
      | Some out => (tw, out)
      | None =>
        let '(b, res) :=
          match m with
          | googletrans => gt_translate (backend tw) text target
          | deep => deep_translate (backend tw) text
          end in
        match res with
        | Some out =>
          ({| cache := <[key := out]> (cache tw); tw_mode := tw_mode tw; backend := b |}, out)
        | None => ({| cache := cache tw; tw_mode := tw_mode tw; backend := b |}, text)
        end
      end
  end.

(** The translator of [scrape_sites], which translates to English. *)
Definition wrapper_translator : Translator (TranslatorWrapper B) :=
  {| translate := fun tw s => translate_to tw s (py "en") |}.

(** A run of calls of [translate], in order. *)
Definition translate_all (tw : TranslatorWrapper B) (calls : list (str * str))
    : TranslatorWrapper B :=
  foldl (fun tw c => fst (translate_to tw (fst c) (snd c))) tw calls.
End Wrapper.

(** A library that knows one name, for the examples. *)
Module Phrasebook.
Definition lookup (text : str) : option str :=
  if str_eqb text (py "张伟") then Some (py "Zhang Wei") else None.

Definition backend : Backend unit := {|
  gt_translate := fun b text target => (b, lookup text);
  deep_translate := fun b text => (b, lookup text)
|}.
End Phrasebook.

(* ===================================================================== *)
(** ** The HTTP client                                                     *)
(* ===================================================================== *)

(** What [HttpClient] asks of urllib, robotparser, requests and Playwright.
    [W] is the state of the network and of the browser, [P] a
    [RobotFileParser] that has been read.  [None] is the call raising. *)
Class Net (W P : Type) := {
  (** [f"{parsed.scheme}://{parsed.netloc}"] for [parsed = urlparse(url)] *)
  base_of : str → option str;
  (** the parser for [urljoin(base, "/robots.txt")] after [rp.read()],
      whether the reading raised or not *)
  read_robots : W → str → W * option P;
  (** [rp.can_fetch(USER_AGENT, url)] *)
  can_fetch : P → str → option bool;
  (** [session.get(url, timeout=REQUEST_TIMEOUT)] after [_sleep()]: the
      status code and the text in the encoding the client settles on *)
  http_get : W → str → W * option (Z * str);
  (** [page.content()] of a new page that has gone to [url] *)
  render : W → str → W * option str
}.

(** [HttpClient]: the parsers it keeps by base, [_js], and the network. *)
Record HttpClient (W P : Type) := {
  robots : gmap str P;
  js : option bool;
  world : W
}.
Arguments robots {W P}.
Arguments js {W P}.
Arguments world {W P}.

Section Http.
Context {W P : Type} `{Net W P}.

Definition on_world (w : W) (c : HttpClient W P) : HttpClient W P :=
  {| robots := robots c; js := js c; world := w |}.

(** [HttpClient(delay_min, delay_max)]: [playwright] tells whether
    [init_js] could start the browser. *)
Definition new_client (playwright : bool) (w : W) : HttpClient W P :=
  {| robots := ∅; js := Some playwright; world := w |}.

(** [HttpClient.allowed_by_robots] *)
Definition http_allowed_by_robots (c : HttpClient W P) (url : str)
    : HttpClient W P * bool :=
  match base_of url with
  | None => (c, true)
  | Some base =>
    match robots c !! base with
    | Some rp => (c, default true (can_fetch rp url))
    | None =>
      let '(w, rp) := read_robots (world c) base in
      match rp with
      | None => (on_world w c, true)
      | Some rp =>
        ({| robots := <[base := rp]> (robots c); js := js c; world := w |},
         default true (can_fetch rp url))
      end
    end
  end.

(** [HttpClient.fetch_js] *)
Definition fetch_js (c : HttpClient W P) (url : str) : HttpClient W P * option str :=
  match js c with
  | Some true => let '(w, html) := render (world c) url in (on_world w c, html)
  | _ => (c, None)
  end.

(** [HttpClient.fetch] *)
Definition http_fetch (c : HttpClient W P) (url : str) : HttpClient W P * option str :=
  let '(c, ok) := http_allowed_by_robots c url in
  if negb ok then (c, None)
  else
    let '(w, resp) := http_get (world c) url in
    let c := on_world w c in
    match resp with
    | Some (status, text) =>
      if (status =? 200)%Z && nonempty text then (c, Some text) else fetch_js c url
    | None => fetch_js c url
    end.

Definition http_client : Client (HttpClient W P) := {|
  allowed_by_robots := http_allowed_by_robots;
  fetch := http_fetch;
  js_disabled := fun c => match js c with Some false => true | _ => false end
|}.
End Http.

(** ** What goes over the wire *)

Inductive wire :=
| RobotsTxt (base : str)
| Get (url : str)
| Rendered (url : str).

(** A network that records, next to its state, what is asked of it. *)
Definition recording_net {W P} `{Net W P} : Net (W * list wire) P := {|
  base_of := base_of;
  read_robots := fun wl base =>
    let '(w, rp) := read_robots (fst wl) base in ((w, snd wl ++ [RobotsTxt base]), rp);
  can_fetch := can_fetch;
  http_get := fun wl url =>
    let '(w, resp) := http_get (fst wl) url in ((w, snd wl ++ [Get url]), resp);
  render := fun wl url =>
    let '(w, html) := render (fst wl) url in ((w, snd wl ++ [Rendered url]), html)
|}.

(** The client states that calls of [allowed_by_robots] and of [fetch]
    lead to. *)
Inductive reaches {C} `{Client C} : C → C → Prop :=
| reaches_refl c : reaches c c
| reaches_ask c url c' : reaches (fst (allowed_by_robots c url)) c' → reaches c c'
| reaches_fetch c url c' : reaches (fst (fetch c url)) c' → reaches c c'.

(** The bases whose robots file has been read, in order. *)
Definition robots_read (log : list wire) : list str :=
  omap (λ e, match e with RobotsTxt b => Some b | _ => None end) log.

Section Wire.
Context {W P : Type} `{Net W P}.

(** [url] has been permitted: the client has a parser for its base, which
    does not refuse it. *)
Definition permitted (c : HttpClient (W * list wire) P) (url : str) : Prop :=
  ∀ base, base_of url = Some base →
          ∃ rp, robots c !! base = Some rp ∧ can_fetch rp url ≠ Some false.

(** The robots files read so far are those of the bases the client has a
    parser for, each read once; and every page asked for was permitted. *)
Definition wire_ok (c : HttpClient (W * list wire) P) : Prop :=
  let log := snd (world c) in
  NoDup (robots_read log)
  ∧ (∀ b, RobotsTxt b ∈ log ↔ b ∈ dom (robots c))
  ∧ (∀ url, Get url ∈ log ∨ Rendered url ∈ log → permitted c url).

(** Making a parser never raises. *)
Definition reliable : Prop := ∀ (w : W) base, snd (read_robots w base) ≠ None.
End Wire.

(** A network with one host, whose robots file refuses the paths with
    [/private], for the examples. *)
Module OneHost.
Definition net : Net unit unit := {|
  base_of := fun url => Some (py "http://example.edu");
  read_robots := fun w base => (w, Some tt);
  can_fetch := fun rp url => Some (negb (contains url (py "/private")));
  http_get := fun w url => (w, Some (200%Z, py "<html></html>"));
  render := fun w url => (w, None)
|}.
End OneHost.

(* ===================================================================== *)
(** ** Titles and names                                                    *)
(* ===================================================================== *)

(** [.] of a pattern: every character but the newline. *)
Definition notnl (c : N) : bool := negb (c =? 10).

Definition em_dash : N := 0x2014.   (* U+2014 *)
Definition en_dash : N := 0x2013.   (* U+2013 *)

(** [\s+\|\s+|\s+—\s+|\s+-\s+] *)
Definition TITLE_SEPARATOR : re :=
  alt (cat [sp1; Lit (ch "|"); sp1])
      [cat [sp1; Lit em_dash; sp1]; cat [sp1; Lit (ch "-"); sp1]].

(** [[-–—]\s*Department.*$] under [re.I] *)
Definition DEPARTMENT_TAIL : re :=
  cat [Chr (fun c => (c =? ch "-") || (c =? en_dash) || (c =? em_dash));
       sp; word true "department"; Star notnl; Eol].

(** [,?\s*University.*$] under [re.I] *)
Definition UNIVERSITY_TAIL : re :=
  cat [Opt (Lit (ch ",")); sp; word true "university"; Star notnl; Eol].

(** [[，,。、：:(（)]] *)
Definition name_break (c : N) : bool :=
  (c =? 0xFF0C) || (c =? ch ",") || (c =? 0x3002) || (c =? 0x3001) || (c =? 0xFF1A)
  || (c =? ch ":") || (c =? ch "(") || (c =? fullwidth_lparen) || (c =? ch ")").

(** [re.split(r, t)[0]] *)
Definition first_piece (r : re) (t : str) : str := default [] (head (split r t)).

Definition tidy_title_name (t : str) : str :=
  let t := sub sp1 (py " ") (strip t) in
  let t := strip (first_piece TITLE_SEPARATOR t) in
  let t := sub DEPARTMENT_TAIL [] t in
  let t := sub UNIVERSITY_TAIL [] t in
  let t := if found (Chr is_cjk) t then first_piece (Chr name_break) t else t in
  if (1 <=? length t)%nat && (length t <=? 80)%nat then t else [].

(* ===================================================================== *)
(** ** The pages                                                           *)
(* ===================================================================== *)

(** A sibling after a header: [sib.name], and its
    [get_text(" ", strip=True)] when it has a [get_text]. *)
Record Node := {
  node_name : option string;
  node_text : option str
}.

(** What the module asks of BeautifulSoup, urllib and tldextract, and of
    [str.title].  [E] is the type of the soup and of its tags. *)
Class Soup (E : Type) := {
  (** [BeautifulSoup(html, "lxml")] *)
  parse : str → E;
  (** [el.select(selector)] *)
  select : E → string → list E;
  (** [el.find_all(names)] *)
  find_all : E → list string → list E;
  (** [el.get_text(" ", strip=True)] *)
  get_text : E → str;
  (** [el.get("href")] *)
  get_href : E → option str;
  (** [el.find_parent(names)] *)
  find_parent : E → list string → option E;
  (** [el.next_siblings] *)
  next_siblings : E → list Node;
  (** [soup.body] *)
  soup_body : E → option E;
  (** [el.get_text(" ", strip=True)] once every tag of [el.select(selector)]
      has been removed by [decompose()] *)
  pruned_text : E → string → str;
  (** whether the tag is among [soup.select(selector)] *)
  selected_by : E → string → bool;
  (** [urljoin(base_url, href)] *)
  soup_urljoin : str → str → str;
  (** [urlparse(url).path] *)
  url_path : str → str;
  (** [tldextract.extract(url).domain] and [.registered_domain]; [None] is
      the call raising *)
  ext_domain : str → option str;
  ext_registered_domain : str → option str;
  (** [str.title] *)
  title : str → str;
  (** the phones of a text, see [extract_phones] *)
  soup_phones : str → list str
}.

Definition NON_PERSON_KEYWORDS : list str := map py
  ["login";"signin";"signup";"admin";"rss";"download";"map";"index";"search";"sitemap";
   "news";"notice";"event";"seminar";"project";"publication";"publications";"file";"files";"press";
   "undergrad";"graduate";"phd";"masters";"postdoc";"students";"jobs";"careers";"alumni";"giving";
   "policy";"privacy";"cookie";"terms";"media";"branding";"about";"contact";
   "招生";"学生";"本科";"硕士";"博士";"下载";"新闻";"通知";"公告";"招聘";"隐私";"政策";"关于";"联系我们"]%string.

Definition RESEARCH_HEADERS : list str := map py
  ["Research Interests";"Research Interest";"Research Area";"Research Areas";
   "Areas of Research";"Fields of Research";"Interests";"Areas of Interest";
   "研究方向";"研究领域";"研究兴趣";"主要研究方向";"学术方向"]%string.

Definition NAME_HINT_SELECTORS : list string :=
  ["h1";"h2";".name";".person-name";".faculty-name";".prof-name";".teacherName";"title"]%string.

Definition SCHOOL_HINT_KEYWORDS : list str := map py
  ["School";"Department";"College";"Faculty";"Institute";"Center";"Centre";"Laboratory";"Lab";
   "学院";"系";"部门";"部";"研究所";"实验室";"中心"]%string.

Definition LISTING_CONTAINERS : list string :=
  [".faculty";".people";".person";".person-list";".profile-list";".team";".members";".directory";
   ".teacher";".teacher-list";".staff";".list";".grid";".grid-list";".cards";".card-list";
   ".news_list";".content_list";".listright";".box";".row";".col";".grid-container";".collection";
   "ul";"table";"article";"section"]%string.

(** [\s*[>›/»]\s*] *)
Definition CRUMB_SEPARATOR : re :=
  cat [sp; Chr (fun c => (c =? ch ">") || (c =? 0x203A) || (c =? ch "/") || (c =? 0xBB)); sp].

(** [(Research (Interests?|Areas?)|研究(方向|领域|兴趣))] under [re.I] *)
Definition RESEARCH_LABEL : re :=
  alt (cat [word true "research ";
            alt (cat [word true "interest"; Opt (word true "s")])
                [cat [word true "area"; Opt (word true "s")]]])
      [cat [word true "研究"; alt (word true "方向") [word true "领域"; word true "兴趣"]]].

(** Group 4 of a match of
    [(Research (Interests?|Areas?)|研究(方向|领域|兴趣))[:：]\s*(.+)] at the
    start of [s]. *)
Definition research_here (s : str) : option str :=
  rmatch RESEARCH_LABEL s (fun r1 =>
    rmatch (Chr (fun c => (c =? ch ":") || (c =? 0xFF1A))) r1 (fun r2 =>
      rmatch sp r2 (fun r3 =>
        rmatch (Plus notnl) r3 (fun r4 => Some (take (length r3 - length r4) r3))))).

(** The first result of a loop that returns from its body: [f] gives what
    an iteration returns, if it does. *)
Definition first_some {A B} (f : A → option B) (l : list A) : option B := head (omap f l).

(** An assignment [data[k] = v] to a dict, which keeps the order of the
    first assignments of its keys. *)
Fixpoint dict_set (k v : str) (data : list (str * str)) : list (str * str) :=
  match data with
  | [] => [(k, v)]
  | (k', v') :: rest =>
    if str_eqb k' k then (k', v) :: rest else (k', v') :: dict_set k v rest
  end.

Section Bounded.
Context {U : Unicode}.

(** [\b]: one of the two characters at a position is a word character and
    the other is not, the ends of the text counting as none. *)
Definition boundary (prev next : option N) : bool :=
  xorb (from_option is_word false prev) (from_option is_word false next).

(** A match of the word [w] under [re.I] between two [\b], at the start of
    [s], which follows [prev]. *)
Definition bounded_here (w : str) (prev : option N) (s : str) : bool :=
  startswith_ci s w
  && boundary prev (head s)
  && boundary (last (prev :: (Some <$> take (length w) s)) ≫= id)
              (head (drop (length w) s)).

(** [re.search(r"\b(w1|...|wn)\b", s, re.I)] as a test; [prev] is the
    character before [s]. *)
Fixpoint found_bounded (ws : list string) (prev : option N) (s : str) : bool :=
  existsb (fun w => bounded_here (py w) prev s) ws
  || match s with
     | [] => false
     | c :: s' => found_bounded ws (Some c) s'
     end.
End Bounded.

Module Page.
Section Functions.
Context {U : Unicode} {E : Type} {S : Soup E}.

(** [text_of(el)] *)
Definition text_of_el (el : E) : str := text_of (get_text el).

(** [el.select_one(selector)] and [el.find(names)] *)
Definition select_one (el : E) (selector : string) : option E := head (select el selector).
Definition find (el : E) (names : list string) : option E := head (find_all el names).

(** [any(h.lower() in k.lower() for h in hints)] *)
Definition hinted (hints : list str) (k : str) : bool :=
  existsb (fun h => contains (lower k) (lower h)) hints.

(** [if k and v: data[k] = v] *)
Definition add_pair (data : list (str * str)) (kv : E * E) : list (str * str) :=
  let k := text_of_el (fst kv) in
  let v := text_of_el (snd kv) in
  if nonempty k && nonempty v then dict_set k v data else data.

Definition parse_label_value_blocks (soup : E) : list (str * str) :=
  let data :=
    foldl (fun data dl =>
             let dts := find_all dl ["dt"%string] in
             let dds := find_all dl ["dd"%string] in
             if (length dts =? length dds)%nat && negb (length dts =? 0)%nat
             then foldl add_pair data (zip dts dds) else data)
          [] (find_all soup ["dl"%string]) in
  foldl (fun data table =>
           foldl (fun data tr =>
                    match find_all tr ["td"; "th"]%string with
                    | [a; b] => add_pair data (a, b)
                    | _ => data
                    end)
                 data (find_all table ["tr"%string]))
        data (find_all soup ["table"%string]).

Definition extract_name (soup : E) : str :=
  let by_selector :=
    first_some (fun sel =>
      match select_one soup sel with
      | Some el =>
        let t := tidy_title_name (text_of_el el) in
        if (1 <=? length t)%nat && (length t <=? 80)%nat && looks_like_human_name t
        then Some t else None
      | None => None
      end) NAME_HINT_SELECTORS in
  match by_selector with
  | Some t => t
  | None =>
    let by_label :=
      first_some (fun kv =>
        if existsb (fun h => contains (lower (fst kv)) h) [py "name"; py "姓名"]
        then let t := tidy_title_name (snd kv) in
             if looks_like_human_name t then Some t else None
        else None) (parse_label_value_blocks soup) in
    default [] by_label
  end.

Definition extract_school (soup : E) : str :=
  let crumbs :=
    flat_map (select soup)
      [".breadcrumb";".breadcrumbs";".sitepath";".position";".location";".nav";
       ".page-title";".path";".current-position"]%string in
  let by_crumb :=
    first_some (fun c =>
      let t := text_of_el c in
      if nonempty t then
        let parts := filter (fun p => nonempty p = true) (map strip (split CRUMB_SEPARATOR t)) in
        match last parts with
        | Some p => Some (take 120 p)
        | None => Some (take 120 t)
        end
      else None) crumbs in
  match by_crumb with
  | Some t => t
  | None =>
    let by_label :=
      first_some (fun kv =>
        if hinted SCHOOL_HINT_KEYWORDS (fst kv) then Some (take 120 (snd kv)) else None)
        (parse_label_value_blocks soup) in
    match by_label with
    | Some v => v
    | None =>
      let by_heading :=
        first_some (fun sel =>
          match select_one soup sel with
          | Some el =>
            let t := text_of_el el in
            if hinted SCHOOL_HINT_KEYWORDS t then Some (take 120 t) else None
          | None => None
          end) ["h3";"h4";".subtitle";".subheading"]%string in
      default [] by_heading
    end
  end.

Definition heading_names : list string := ["h2";"h3";"strong";"b"]%string.

(** The loop over [header.next_siblings], which fills [buf]. *)
Fixpoint gather (siblings : list Node) (buf : list str) : list str :=
  match siblings with
  | [] => buf
  | sib :: rest =>
    if match node_name sib with
       | Some n => bool_decide (n ∈ heading_names)
       | None => false
       end then buf
    else
      let buf :=
        match node_text sib with
        | Some raw =>
          let s := strip (text_of raw) in
          if nonempty s then buf ++ [s] else buf
        | None => buf
        end in
      if (500 <? length (join (py " ") buf))%nat then buf else gather rest buf
  end.

Definition extract_research_area (soup : E) : str :=
  let by_header :=
    first_some (fun header =>
      if hinted RESEARCH_HEADERS (text_of_el header) then
        match gather (next_siblings header) [] with
        | [] => None
        | buf => Some (take 500 (join (py " ") buf))
        end
      else None) (find_all soup heading_names) in
  match by_header with
  | Some t => t
  | None =>
    let by_label :=
      first_some (fun kv =>
        if hinted RESEARCH_HEADERS (fst kv) then Some (take 500 (snd kv)) else None)
        (parse_label_value_blocks soup) in
    match by_label with
    | Some v => v
    | None =>
      match search_with research_here (text_of_el soup) with
      | Some g4 => take 500 (strip_trailing_punct g4)
      | None => []
      end
    end
  end.

Definition get_main_text (soup : E) : str :=
  let by_selector :=
    first_some (select_one soup)
      ["main";"article";"#content";".content";".page-content";".content-wrapper"]%string in
  match by_selector with
  | Some el => text_of_el el
  | None =>
    let body := default soup (soup_body soup) in
    text_of (pruned_text body
      "header,nav,footer,aside,.footer,.site-footer,.global-footer,.topbar,.navbar")
  end.

Definition is_person_link (a_tag : E) (base_url : str) : bool :=
  let href := default [] (get_href a_tag) in
  if negb (nonempty href) || startswith href (py "#") then false
  else
    let href_abs := soup_urljoin base_url href in
    let path := lower (url_path href_abs) in
    if existsb (fun k => contains path k) NON_PERSON_KEYWORDS then false
    else
      let text := text_of_el a_tag in
      if negb (nonempty text) || (length text <? 2)%nat then false
      else if negb (found (Chr (fun c => is_cjk c || is_alpha c)) text) then false
      else if found_bounded ["more";"details";"profile";"view";"查看";"详情"]%string None text
      then
        match find_parent a_tag ["li";"div";"article";"tr"]%string with
        | None => false
        | Some parent =>
          match find parent ["h3";"h4";".name";".person-name";".faculty-name"]%string with
          | Some _ => true
          | None => false
          end
        end
      else true.

(** The name found near an anchor, tidied. *)
Definition card_name (a : E) : str :=
  let name_text :=
    match find_parent a ["li";"div";"article";"tr"]%string with
    | Some parent =>
      match first_some (select_one parent)
              ["h3";"h4";".name";".person-name";".faculty-name";".teacherName";
               "td";"th";"strong";"b"]%string with
      | Some el => text_of_el el
      | None => []
      end
    | None => []
    end in
  let name_text := if nonempty name_text then name_text else text_of_el a in
  tidy_title_name name_text.

(** One iteration of the loop over the anchors, on [(profiles, seen)]. *)
Definition discover_step (base_url : str) (st : list ProfileLink * gset str) (a : E)
    : list ProfileLink * gset str :=
  if negb (is_person_link a base_url) then st
  else
    let href_abs := soup_urljoin base_url (default [] (get_href a)) in
    if bool_decide (href_abs ∈ snd st) then st
    else
      let name_text := card_name a in
      if negb (looks_like_human_name name_text) then st
      else (fst st ++ [{| link_name := name_text; link_url := href_abs |}],
            {[href_abs]} ∪ snd st).

Definition discover_profiles (soup : E) (base_url : str) : list ProfileLink :=
  let containers := flat_map (select soup) LISTING_CONTAINERS in
  let containers := match containers with [] => [soup] | _ => containers end in
  fst (foldl (discover_step base_url) ([], ∅)
         (flat_map (fun cont => select cont "a") containers)).

Definition infer_university_from_url (url : str) : str :=
  match ext_domain url with
  | None => []
  | Some domain =>
    let name := title (replace "-" " " domain) in
    if forallb (fun x => negb (contains name x))
         [py "University"; py "College"; py "学院"; py "大学"]
    then name ++ py " University" else name
  end.

Definition registered_domain (url : str) : str :=
  match ext_registered_domain url with
  | Some d => d
  | None => []
  end.
End Functions.
End Page.

(** The pages as [parse_profile], [find_next_page] and [process_site] read
    them. *)
Definition soup_dom {U : Unicode} {E : Type} {S : Soup E} : Dom := {|
  urljoin := soup_urljoin;
  registered_domain := Page.registered_domain;
  infer_university_from_url := Page.infer_university_from_url;
  anchors := fun html =>
    map (fun a => {| rel_next := selected_by a "a[rel=next]";
                     href := get_href a;
                     anchor_text := Page.text_of_el a |})
        (find_all (parse html) ["a"%string]);
  discover_profiles := fun html base_url => Page.discover_profiles (parse html) base_url;
  extract_name := fun html => Page.extract_name (parse html);
  extract_school := fun html => Page.extract_school (parse html);
  extract_research_area := fun html => Page.extract_research_area (parse html);
  mailto_links := fun html =>
    map (fun a => (default [] (get_href a), Page.text_of_el a))
        (select (parse html) "a[href^=mailto]");
  get_main_text := fun html => Page.get_main_text (parse html);
  extract_phones := soup_phones
|}.

(** ** What the pages hold *)

(** [data.get(k)] of a dict. *)
Definition dict_get (k : str) (data : list (str * str)) : option str :=
  snd <$> head (filter (λ kv, kv.1 = k) data).

(** An assignment [data[k] = v], for the pair [(k, v)]. *)
Definition assign (data : list (str * str)) (kv : str * str) : list (str * str) :=
  dict_set kv.1 kv.2 data.

Section OnPages.
Context {U : Unicode} {E : Type} {S : Soup E}.

(** The elements [parse_label_value_blocks] reads as a label and its value,
    in the order in which it reads them: the [dt] and [dd] of every [dl]
    that has as many of the ones as of the others, then the two cells of
    every table row that has two. *)
Definition label_value_elements (soup : E) : list (E * E) :=
  flat_map (λ dl, let dts := find_all dl ["dt"%string] in
                  let dds := find_all dl ["dd"%string] in
                  if (length dts =? length dds)%nat && negb (length dts =? 0)%nat
                  then zip dts dds else [])
           (find_all soup ["dl"%string])
  ++ flat_map (λ table,
       flat_map (λ tr, match find_all tr ["td"; "th"]%string with
                       | [a; b] => [(a, b)]
                       | _ => []
                       end)
                (find_all table ["tr"%string]))
       (find_all soup ["table"%string]).

Definition texts_of (ab : E * E) : str * str :=
  (Page.text_of_el ab.1, Page.text_of_el ab.2).

(** Their texts, for those that have a text on both sides. *)
Definition label_value_texts (soup : E) : list (str * str) :=
  filter (λ kv, kv.1 ≠ [] ∧ kv.2 ≠ []) (map texts_of (label_value_elements soup)).

(** The anchors [discover_profiles] goes through, in its order. *)
Definition listed_anchors (soup : E) : list E :=
  let containers := flat_map (select soup) LISTING_CONTAINERS in
  flat_map (λ cont, select cont "a")
           (match containers with [] => [soup] | _ => containers end).

(** The absolute URL of an anchor of a page at [base_url]. *)
Definition target (base_url : str) (a : E) : str :=
  soup_urljoin base_url (default [] (get_href a)).

(** What an entry [p] of [discover_profiles] is made of, when it comes from
    the anchor [a]. *)
Definition link_of (base_url : str) (a : E) (p : ProfileLink) : Prop :=
  Page.is_person_link a base_url = true
  ∧ link_url p = target base_url a
  ∧ link_name p = Page.card_name a
  ∧ looks_like_human_name (link_name p) = true.

(** The state of the loop of [discover_profiles]: [seen] holds the URLs of
    [profiles], which are distinct. *)
Definition seen_are_links (st : list ProfileLink * gset str) : Prop :=
  NoDup (link_url <$> st.1) ∧ ∀ u, u ∈ st.2 ↔ u ∈ link_url <$> st.1.
End OnPages.

(** A pattern that ends with [$]. *)
Fixpoint anchored (r : re) : bool :=
  match r with
  | Eol => true
  | Cat r1 r2 =>
    anchored r2 || (anchored r1 && match r2 with Eps => true | _ => false end)
  | Alt r1 r2 => anchored r1 && anchored r2
  | _ => false
  end.

(** The characters at which [tidy_title_name] may cut a title: the bar, the
    hyphen and the dashes. *)
Definition title_mark (c : N) : bool :=
  (c =? ch "|") || (c =? ch "-") || (c =? en_dash) || (c =? em_dash).

(* ===================================================================== *)
(** ** The job                                                             *)
(* ===================================================================== *)

(** The digits of [f"{n}"]. *)
Fixpoint digits (d : Decimal.uint) : str :=
  match d with
  | Decimal.Nil => []
  | Decimal.D0 d => 48 :: digits d
  | Decimal.D1 d => 49 :: digits d
  | Decimal.D2 d => 50 :: digits d
  | Decimal.D3 d => 51 :: digits d
  | Decimal.D4 d => 52 :: digits d
  | Decimal.D5 d => 53 :: digits d
  | Decimal.D6 d => 54 :: digits d
  | Decimal.D7 d => 55 :: digits d
  | Decimal.D8 d => 56 :: digits d
  | Decimal.D9 d => 57 :: digits d
  end.

Definition decimal (n : nat) : str := digits (Nat.to_uint n).

(** The text written to [progress["message"]]; [js_error] is
    [client.js_error]. *)
Definition message_text (js_error : str) (m : message) : str :=
  match m with
  | JsDisabled =>
    py "JS rendering disabled (" ++ js_error ++ py "). Falling back to raw HTML."
  | BlockedByRobots url => py "Blocked by robots.txt: " ++ url
  | LoadingListing url => py "Loading listing: " ++ url
  | FailedListing url => py "Failed to load listing: " ++ url
  | FoundLinks n url => py "Found " ++ decimal n ++ py " profile links on " ++ url
  | ReachedMax => py "Reached max profiles"
  | RobotsBlockedProfile url => py "Robots blocked profile: " ++ url
  | OpeningProfile url => py "Opening profile: " ++ url
  | FailedProfile url => py "Failed to open profile: " ++ url
  | Skipped url => py "Skipped (no staff email): " ++ url
  | NoFurtherPages => py "No further pages."
  | Following page => py "Following pagination (page " ++ decimal page ++ py ")…"
  | ReachedGlobalMax => py "Reached global max"
  end.

(** [progress["message"]], which held [first] before the messages of
    [p]. *)
Definition shown (js_error first : str) (p : Progress) : str :=
  match last (messages p) with
  | Some m => message_text js_error m
  | None => first
  end.

(** An entry of [JOBS]. *)
Record Job := {
  job_done : bool;
  job_visited : nat;
  job_limit : option Z;
  job_rows : list Row;
  job_message : str
}.

Section Runner.
Context `{Unicode} `{Dom} {C T : Type} `{Client C} `{Translator T}.

(** The body of [try] in [runner], on the entry that [start] has made;
    [c] and [t] are the client and the translator that [scrape_sites]
    builds.  (The [except] branch is for an exception out of
    [scrape_sites], which has none here.) *)
Definition runner (c : C) (t : T) (js_error : str) (sites : list str) (uni_label : str)
    (max_profiles : option Z) (translate_en : bool) : option Job :=
  match scrape_sites c t sites uni_label max_profiles translate_en
          {| messages := []; visited_count := 0; done := false |} with
  | None => None
  | Some (rows, progress) =>
    let rows := filter (fun r => nonempty (email r) = true) rows in
    let message := shown js_error (py "Starting scrape…") progress in
    Some {| job_done := true;
            job_visited := length rows;
            job_limit := max_profiles;
            job_rows := rows;
            job_message := if nonempty message then message else py "Complete" |}
  end.
End Runner.

(* ===================================================================== *)
(** * Properties                                                          *)
(* ===================================================================== *)

(** ** Strings *)

Lemma startswith_prefix s p : startswith s p = true ↔ p `prefix_of` s.
Proof.
  revert s. induction p as [|c p IH]; intros s; simpl.
  - split; [intros _; apply prefix_nil|by destruct s].
  - destruct s as [|d s]; simpl.
    + split; [done|]. intros [k Hk]. simpl in Hk. discriminate Hk.
    + rewrite andb_true_iff, N.eqb_eq, IH. split.
      * intros [-> Hp]. by apply prefix_cons.
      * intros Hp. split; [by apply prefix_cons_inv_1 in Hp|by apply prefix_cons_inv_2 in Hp].
Qed.

Lemma endswith_suffix s p : endswith s p = true ↔ p `suffix_of` s.
Proof. unfold endswith. rewrite startswith_prefix. symmetry. apply suffix_prefix_reverse. Qed.

Lemma mem_spec x l : mem x l = true ↔ x ∈ l.
Proof. unfold mem. apply bool_decide_eq_true. Qed.

Lemma str_eqb_spec a b : str_eqb a b = true ↔ a = b.
Proof. unfold str_eqb. apply bool_decide_eq_true. Qed.

Lemma nonempty_spec s : nonempty s = true ↔ s ≠ [].
Proof. destruct s; simpl; split; done. Qed.

Lemma split_first_app c s a b : split_first c s = Some (a, b) → s = a ++ c :: b ∧ c ∉ a.
Proof.
  revert a b. induction s as [|d s IH]; intros a b; simpl; [done|].
  destruct (N.eqb_spec d c) as [->|Hne].
  - intros [= <- <-]. split; [done|]. apply not_elem_of_nil.
  - destruct (split_first c s) as [[a' b']|]; [|done].
    intros [= <- <-]. destruct (IH a' b' eq_refl) as [-> Hn]. split; [done|].
    intros [?|?]%elem_of_cons; [congruence|done].
Qed.

Lemma ascii_Forall s : ascii s ↔ Forall (λ c, is_ascii c = true) s.
Proof.
  unfold ascii. induction s as [|c s IH]; simpl.
  - split; [constructor|done].
  - rewrite andb_true_iff, Forall_cons, IH. done.
Qed.

Lemma split_first_ascii c s a b :
  split_first c s = Some (a, b) → ascii s → ascii a ∧ ascii b.
Proof.
  intros [-> _]%split_first_app. rewrite !ascii_Forall, Forall_app, Forall_cons. tauto.
Qed.

Lemma ascii_lower_ascii s : ascii s → ascii (map ascii_lower s).
Proof.
  unfold ascii. induction s as [|c s IH]; simpl; [done|].
  rewrite !andb_true_iff. intros [Hc Hs]. split; [|by apply IH].
  revert Hc. unfold is_ascii, ascii_lower, is_upper, in_range.
  change (ch "A") with 65. change (ch "Z") with 90.
  rewrite !N.ltb_lt.
  destruct (N.leb_spec 65 c), (N.leb_spec c 90); simpl; lia.
Qed.

Lemma contains_spec s p : contains s p = true ↔ substring p s.
Proof.
  unfold substring. induction s as [|c s IH].
  - destruct p as [|d p]; simpl; split; try done.
    + intros _. by exists [], [].
    + intros (a & b & Hab). symmetry in Hab. apply app_eq_nil in Hab as [-> Hab].
      discriminate Hab.
  - cbn [contains]. rewrite orb_true_iff, startswith_prefix, IH. split.
    + intros [[k Hk]|(a & b & ->)]; [by exists [], k|by exists (c :: a), b].
    + intros ([|c' a] & b & Hab); simpl in Hab.
      * left. by exists b.
      * right. injection Hab as -> ->. by exists a, b.
Qed.

Lemma akinb_spec local t : akinb local t = true ↔ akin local t.
Proof.
  unfold akinb, akin. by rewrite andb_true_iff, orb_true_iff, Nat.leb_le, !contains_spec.
Qed.

(** A loop that counts the elements passing a test. *)
Lemma foldl_count {A} (f : A → bool) l k :
  foldl (fun n t => if f t then S n else n) k l
  = (k + length (filter (λ t, f t = true) l))%nat.
Proof.
  revert k. induction l as [|t l IH]; intros k; simpl; [lia|].
  rewrite IH, filter_cons. destruct (f t) eqn:Hf; case_decide; simpl; congruence || lia.
Qed.

(** ** The matcher finds exactly the matches *)

Lemma rep_sound {A} p lo hi s (k : str → option A) x :
  rep p lo hi s k = Some x →
  ∃ w rest, s = w ++ rest ∧ matches (Rep p lo hi) w rest ∧ k rest = Some x.
Proof.
  revert lo hi. induction s as [|c s IH]; intros lo hi; simpl.
  - destruct lo; [|done]. intros Hk. exists [], []. split; [done|]. split; [|done].
    constructor; [constructor|simpl; lia|simpl; lia].
  - assert (Hstop : match lo with O => k (c :: s) | S _ => None end = Some x →
      ∃ w rest, c :: s = w ++ rest ∧ matches (Rep p lo hi) w rest ∧ k rest = Some x).
    { destruct lo; [|done]. intros Hk. exists [], (c :: s). split; [done|]. split; [|done].
      constructor; [constructor|simpl; lia|simpl; lia]. }
    destruct (p c) eqn:Hp; simpl; [|done].
    destruct (more hi) eqn:Hm; [|done].
    destruct (rep p (Nat.pred lo) (Nat.pred <$> hi) s k) as [y|] eqn:Hr; [|done].
    intros [= ->]. destruct (IH _ _ Hr) as (w & rest & -> & Hw & Hk).
    exists (c :: w), rest. split; [done|]. split; [|done].
    inversion Hw as [| | | | | | |p' lo' hi' w' rest' Hall Hlo Hhi|]; subst.
    constructor.
    + by constructor.
    + simpl. lia.
    + intros h ->. simpl in *. destruct h; [done|]. specialize (Hhi h eq_refl). lia.
Qed.

Lemma rmatch_sound {A} r : ∀ s (k : str → option A) x,
  rmatch r s k = Some x →
  ∃ w rest, s = w ++ rest ∧ matches r w rest ∧ k rest = Some x.
Proof.
  induction r as [|p|r1 IH1 r2 IH2|r1 IH1 r2 IH2|r IH|p lo hi|]; intros s k x; simpl.
  - intros Hk. exists [], s. split; [done|]. split; [constructor|done].
  - destruct s as [|c s]; [done|]. destruct (p c) eqn:Hp; [|done].
    intros Hk. exists [c], s. split; [done|]. split; [by constructor|done].
  - intros Hm. apply IH1 in Hm as (w1 & rest1 & -> & Hw1 & Hm).
    apply IH2 in Hm as (w2 & rest & -> & Hw2 & Hk).
    exists (w1 ++ w2), rest. split; [by rewrite app_assoc|]. split; [by constructor|done].
  - destruct (rmatch r1 s k) as [y|] eqn:H1.
    + intros [= ->]. apply IH1 in H1 as (w & rest & -> & Hw & Hk).
      exists w, rest. split; [done|]. split; [by apply m_alt_l|done].
    + intros H2. apply IH2 in H2 as (w & rest & -> & Hw & Hk).
      exists w, rest. split; [done|]. split; [by apply m_alt_r|done].
  - destruct (rmatch r s k) as [y|] eqn:H1.
    + intros [= ->]. apply IH in H1 as (w & rest & -> & Hw & Hk).
      exists w, rest. split; [done|]. split; [by apply m_opt_some|done].
    + intros Hk. exists [], s. split; [done|]. split; [apply m_opt_none|done].
  - apply rep_sound.
  - destruct (at_end s) eqn:He; [|done]. intros Hk. exists [], s.
    split; [done|]. split; [by constructor|done].
Qed.

Lemma rep_complete {A} p lo hi w rest (k : str → option A) :
  Forall (λ c, p c = true) w → (lo ≤ length w)%nat →
  (∀ h, hi = Some h → (length w ≤ h)%nat) →
  is_Some (k rest) → is_Some (rep p lo hi (w ++ rest) k).
Proof.
  intros Hall. revert lo hi. induction Hall as [|c w Hc Hall IH]; intros lo hi Hlo Hhi Hk.
  - simpl in Hlo. assert (lo = O) as -> by lia. simpl.
    destruct rest as [|d rest]; simpl; [exact Hk|].
    destruct (p d && more hi); [|exact Hk].
    destruct (rep p 0 (Nat.pred <$> hi) rest k); [by eexists|exact Hk].
  - simpl. rewrite Hc. simpl.
    assert (more hi = true) as ->.
    { destruct hi as [[|h]|]; try done. specialize (Hhi _ eq_refl). simpl in Hhi. lia. }
    assert (His : is_Some (rep p (Nat.pred lo) (Nat.pred <$> hi) (w ++ rest) k)).
    { apply IH; [simpl in Hlo; lia| |done].
      intros h Hh. destruct hi as [h'|]; [|done]. injection Hh as <-.
      specialize (Hhi _ eq_refl). simpl in Hhi. lia. }
    destruct His as [y ->]. by eexists.
Qed.

Lemma rmatch_complete {A} r w rest : matches r w rest →
  ∀ (k : str → option A), is_Some (k rest) → is_Some (rmatch r (w ++ rest) k).
Proof.
  induction 1 as [rest|p c rest Hp|r1 r2 w1 w2 rest H1 IH1 H2 IH2|r1 r2 w rest H1 IH1
                  |r1 r2 w rest H2 IH2|r w rest H1 IH1|r rest|p lo hi w rest Hall Hlo Hhi|rest He];
    intros k Hk; simpl.
  - done.
  - by rewrite Hp.
  - rewrite <- app_assoc. apply IH1. by apply IH2.
  - destruct (IH1 k Hk) as [y ->]. by eexists.
  - destruct (rmatch r1 (w ++ rest) k); [by eexists|]. by apply IH2.
  - destruct (IH1 k Hk) as [y ->]. by eexists.
  - destruct (rmatch r rest k); [by eexists|done].
  - by apply rep_complete.
  - by rewrite He.
Qed.

Lemma match_here_spec r s m rest :
  match_here r s = Some (m, rest) → m = take (length s - length rest) s.
Proof.
  unfold match_here. destruct (rmatch r s Some); [|done]. by intros [= <- <-].
Qed.

Lemma match_here_sound r s m rest :
  match_here r s = Some (m, rest) → s = m ++ rest ∧ matches r m rest.
Proof.
  unfold match_here. destruct (rmatch r s Some) as [rest'|] eqn:Hm; [|done].
  intros [= <- <-]. apply rmatch_sound in Hm as (w & rest & -> & Hw & [= ->]).
  rewrite length_app. replace (length w + length rest' - length rest')%nat with (length w) by lia.
  by rewrite take_app_length.
Qed.

Lemma match_here_complete r w rest : matches r w rest → is_Some (match_here r (w ++ rest)).
Proof.
  intros Hm. unfold match_here.
  destruct (rmatch_complete r w rest Hm Some) as [y ->]; by eexists.
Qed.

(** [re.search] succeeds exactly when the pattern matches somewhere. *)
Lemma found_iff r s :
  found r s = true ↔ ∃ pre w rest, s = pre ++ w ++ rest ∧ matches r w rest.
Proof.
  unfold found, search. split.
  - induction s as [|c s IH]; simpl.
    + destruct (match_here r []) as [[m rest]|] eqn:Hm; simpl; [|done].
      intros _. apply match_here_sound in Hm as [Heq Hm]. by exists [], m, rest.
    + destruct (match_here r (c :: s)) as [[m rest]|] eqn:Hm; simpl.
      * intros _. apply match_here_sound in Hm as [Heq Hm]. by exists [], m, rest.
      * intros (pre & w & rest & -> & Hw)%IH. by exists (c :: pre), w, rest.
  - intros (pre & w & rest & -> & Hw). induction pre as [|c pre IH]; simpl.
    + destruct (match_here_complete r w rest Hw) as [[m rest'] Hm].
      destruct (w ++ rest); simpl; by rewrite Hm.
    + by destruct (fst <$> match_here r (c :: pre ++ w ++ rest)).
Qed.

(** The texts found by a scan are pieces of the scanned text. *)
Lemma scan_matches_Forall (P : N → Prop) r k s m :
  Forall P s → inr m ∈ scan r k s → Forall P m.
Proof.
  revert k. induction s as [|c s IH]; intros k Hs; simpl.
  - by intros ?%elem_of_nil.
  - apply Forall_cons in Hs as [Hc Hs]. destruct k as [|k]; [|by apply IH].
    destruct (match_here r (c :: s)) as [[[|c' m'] rest]|] eqn:Hm.
    + intros [?|?]%elem_of_cons; [done|]. by eapply IH.
    + intros [[= ->]|?]%elem_of_cons; [|by eapply IH].
      apply match_here_spec in Hm.
      destruct (length (c :: s) - length rest)%nat as [|n]; [done|].
      simpl in Hm. injection Hm as -> ->. constructor; [done|]. by apply Forall_take.
    + intros [?|?]%elem_of_cons; [done|]. by eapply IH.
Qed.

Lemma findall_Forall (P : N → Prop) r s m : Forall P s → m ∈ findall r s → Forall P m.
Proof.
  intros Hs. unfold findall. rewrite list_elem_of_omap. intros ([c|m'] & Hin & Heq); [done|].
  injection Heq as ->. by eapply scan_matches_Forall.
Qed.

(** Text in which no match of [r] begins is left alone by [r.sub]. *)
Lemma sub_no_match r repl s :
  (∀ pre m rest, s = pre ++ m ++ rest → m ≠ [] → ¬ matches r m rest) →
  sub r repl s = s.
Proof.
  unfold sub. induction s as [|c s IH]; intros Hno; simpl; [done|].
  destruct (match_here r (c :: s)) as [[[|c' m] rest]|] eqn:Hm.
  - simpl. f_equal. apply IH. intros pre m rest' -> Hne. by apply (Hno (c :: pre)).
  - apply match_here_sound in Hm as [Heq Hm]. exfalso.
    apply (Hno [] (c' :: m) rest); done.
  - simpl. f_equal. apply IH. intros pre m rest' -> Hne. by apply (Hno (c :: pre)).
Qed.

(** A pattern that is not [nullable] has no empty match. *)
Lemma matches_nil_nullable r rest : matches r [] rest → nullable r = true.
Proof.
  intros Hm. remember [] as w eqn:Hw. revert Hw.
  induction Hm as [rest|p c rest Hp|r1 r2 w1 w2 rest H1 IH1 H2 IH2|r1 r2 w rest H1 IH1
                  |r1 r2 w rest H2 IH2|r w rest H1 IH1|r rest|p lo hi w rest Hall Hlo Hhi|rest He];
    intros Hw; simpl; try done.
  - apply app_eq_nil in Hw as [-> ->]. by rewrite IH1, IH2.
  - by rewrite IH1.
  - rewrite IH2 by done. apply orb_true_r.
  - subst w. simpl in Hlo. apply bool_decide_eq_true. lia.
Qed.

Lemma match_here_nonempty r s m rest :
  nullable r = false → match_here r s = Some (m, rest) → m ≠ [].
Proof.
  intros Hn [_ Hm]%match_here_sound ->. apply matches_nil_nullable in Hm. congruence.
Qed.

(** No pattern that the module passes to [scan] matches the empty text. *)
Lemma scanned_not_nullable :
  Forall (λ pr, nullable (fst pr) = false) EMAIL_TOKEN_PATTERNS
  ∧ nullable BASIC_EMAIL_RE = false ∧ nullable TRAIL_CLEAN = false
  ∧ (∀ p, nullable (Plus p) = false) ∧ (∀ c, nullable (Lit c) = false)
  ∧ (∀ ci w, py w ≠ [] → nullable (word ci w) = false).
Proof.
  split; [by repeat constructor|]. repeat split; try done.
  intros ci w. unfold word. by destruct (py w).
Qed.

(** ** Obfuscation tokens and the rewrite *)

Lemma startswith_ci_nil s : startswith_ci s [] = true.
Proof. by destruct s. Qed.

Lemma startswith_ci_app s p b : startswith_ci s p = true → startswith_ci (s ++ b) p = true.
Proof.
  revert s. induction p as [|l p IH]; intros s; [by rewrite !startswith_ci_nil|].
  destruct s as [|c s]; simpl; [done|]. rewrite !andb_true_iff. intros [? ?]. auto.
Qed.

Lemma contains_ci_app_r s p b : contains_ci s p = true → contains_ci (s ++ b) p = true.
Proof.
  induction s as [|c s IH]; simpl.
  - rewrite orb_false_r. destruct p; [|done]. intros _.
    destruct b; simpl; by rewrite ?startswith_ci_nil.
  - rewrite !orb_true_iff. intros [Hs|Hc]; [left|right; auto].
    by apply (startswith_ci_app (c :: s)).
Qed.

Lemma contains_ci_app_l s p a : contains_ci s p = true → contains_ci (a ++ s) p = true.
Proof.
  intros Hs. induction a as [|c a IH]; simpl; [done|]. rewrite IH. apply orb_true_r.
Qed.

Lemma plain_app a b : plain (a ++ b) = true → plain a = true ∧ plain b = true.
Proof.
  unfold plain. rewrite !andb_true_iff, forallb_app, andb_true_iff.
  rewrite !forallb_forall. intros [Hw [Ha Hb]]. split; (split; [|done]).
  - intros w Hin. specialize (Hw w Hin). apply negb_true_iff. apply negb_true_iff in Hw.
    destruct (contains_ci a w) eqn:Hc; [|done]. by rewrite contains_ci_app_r in Hw.
  - intros w Hin. specialize (Hw w Hin). apply negb_true_iff. apply negb_true_iff in Hw.
    destruct (contains_ci b w) eqn:Hc; [|done]. by rewrite contains_ci_app_l in Hw.
Qed.

Lemma plain_infix pre m rest : plain (pre ++ m ++ rest) = true → plain m = true.
Proof. intros [_ [Hm _]%plain_app]%plain_app. done. Qed.

Lemma plain_false_app_l a x : plain x = false → plain (a ++ x) = false.
Proof.
  intros Hx. destruct (plain (a ++ x)) eqn:Hp; [|done].
  apply plain_app in Hp as [_ Hp]. congruence.
Qed.

Lemma plain_false_app_r x b : plain x = false → plain (x ++ b) = false.
Proof.
  intros Hx. destruct (plain (x ++ b)) eqn:Hp; [|done].
  apply plain_app in Hp as [Hp _]. congruence.
Qed.

Lemma sub_plain r repl s : marked r → plain s = true → sub r repl s = s.
Proof.
  intros Hr Hs. apply sub_no_match. intros pre m rest -> _ Hm.
  apply plain_infix in Hs. by rewrite (Hr _ _ Hm) in Hs.
Qed.

Lemma lit_matches c w rest : matches (Lit c) w rest → w = [c].
Proof. inversion 1 as [|p c' rest' Hc| | | | | | |]; subst. by apply N.eqb_eq in Hc as ->. Qed.

Lemma word_matches ci w x rest :
  matches (word ci w) x rest → startswith_ci x (py w) = true.
Proof.
  unfold word. generalize (py w) as l. intros l. revert x.
  induction l as [|c l IH]; intros x; simpl.
  - inversion 1; subst. done.
  - inversion 1 as [| |r1 r2 w1 w2 rest' H1 H2| | | | | |]; subst.
    inversion H1 as [|p c' rest' Hc| | | | | | |]; subst. simpl.
    rewrite (IH _ H2), andb_true_r.
    destruct ci; [done|]. unfold lit_ci. apply N.eqb_eq in Hc as ->. by rewrite N.eqb_refl.
Qed.

Lemma word_matches_exact w x rest : matches (word false w) x rest → x = py w.
Proof.
  unfold word. generalize (py w) as l. intros l. revert x.
  induction l as [|c l IH]; intros x; simpl.
  - by inversion 1.
  - inversion 1 as [| |r1 r2 w1 w2 rest' H1 H2| | | | | |]; subst.
    inversion H1 as [|p c' rest' Hc| | | | | | |]; subst.
    apply N.eqb_eq in Hc as ->. simpl. f_equal. by apply IH.
Qed.

Lemma word_marked ci w x rest :
  py w ∈ obfuscation_words → matches (word ci w) x rest → plain x = false.
Proof.
  intros Hin Hs%word_matches. unfold plain. apply andb_false_iff. left.
  apply not_true_is_false. rewrite forallb_forall. intros Hall.
  specialize (Hall (py w)). rewrite <- list_elem_of_In in Hall. specialize (Hall Hin).
  apply negb_true_iff in Hall. destruct x; simpl in *; rewrite Hs in Hall; done.
Qed.

Lemma lit_marked c x rest :
  c ∈ obfuscation_chars → matches (Lit c) x rest → plain x = false.
Proof.
  intros Hin ->%lit_matches. unfold plain. apply andb_false_iff. right. simpl.
  rewrite bool_decide_eq_true_2 by done. done.
Qed.

(** Splitting a match of a sequence or of an alternation into the matches
    of its parts. *)
Ltac split_matches :=
  repeat match goal with
         | H : matches (Cat _ _) _ _ |- _ => inversion H; subst; clear H
         | H : matches (Alt _ _) _ _ |- _ => inversion H; subst; clear H
         | H : matches Eps _ _ |- _ => inversion H; subst; clear H
         end.

(** Looking for the part of a match that is an obfuscation token. *)
Ltac find_token :=
  match goal with
  | H : matches (word _ _) ?x _ |- plain ?x = false =>
      refine (word_marked _ _ _ _ _ H); vm_compute; set_solver
  | H : matches (Lit _) ?x _ |- plain ?x = false =>
      refine (lit_marked _ _ _ _ H); vm_compute; set_solver
  | |- plain (_ ++ _) = false =>
      (apply plain_false_app_r; find_token) || (apply plain_false_app_l; find_token)
  end.

Lemma patterns_marked : Forall (λ pr, marked (fst pr)) EMAIL_TOKEN_PATTERNS.
Proof.
  unfold EMAIL_TOKEN_PATTERNS.
  repeat apply Forall_cons_2; try apply Forall_nil_2;
    intros w rest Hm; cbn [fst cat alt foldr] in Hm; split_matches; find_token.
Qed.

Lemma replace_plain old new s :
  plain (py old) = false → plain s = true → replace old new s = s.
Proof.
  intros Hold. apply sub_plain. intros w rest Hm. by apply word_matches_exact in Hm as ->.
Qed.

Lemma foldl_sub_plain patterns s :
  Forall (λ pr : re * str, marked (fst pr)) patterns → plain s = true →
  foldl (fun s pr => sub (fst pr) (snd pr) s) s patterns = s.
Proof.
  induction 1 as [|pr patterns Hpr _ IH]; intros Hs; simpl; [done|].
  rewrite sub_plain by done. by apply IH.
Qed.

(** A text without obfuscation tokens is a fixed point of the rewrite. *)
Lemma deobfuscate_plain s : plain s = true → deobfuscate s = s.
Proof.
  intros Hs. unfold deobfuscate.
  rewrite foldl_sub_plain by (apply patterns_marked || done).
  rewrite (sub_plain (Lit fullwidth_lparen))
    by (done || intros w rest Hm; refine (lit_marked _ _ _ _ Hm); vm_compute; set_solver).
  rewrite (sub_plain (Lit fullwidth_rparen))
    by (done || intros w rest Hm; refine (lit_marked _ _ _ _ Hm); vm_compute; set_solver).
  rewrite (replace_plain "[at]" "@" s) by (done || reflexivity).
  rewrite (replace_plain "{at}" "@" s) by (done || reflexivity).
  rewrite (replace_plain "[dot]" "." s) by (done || reflexivity).
  by rewrite (replace_plain "{dot}" "." s) by (done || reflexivity).
Qed.

(** ** Academic suffixes *)

Lemma word_spelled w x rest : matches (word true w) x rest ↔ spelled w x.
Proof.
  unfold word, spelled. generalize (py w) as l. intros l. revert x.
  induction l as [|c l IH]; intros x; simpl.
  - split.
    + inversion 1; subst. constructor.
    + inversion 1; subst. constructor.
  - split.
    + inversion 1 as [| |r1 r2 w1 w2 rest' H1 H2| | | | | |]; subst.
      inversion H1 as [|p c' rest' Hc| | | | | | |]; subst. simpl.
      constructor; [done|]. by apply IH.
    + inversion 1 as [|? c' ? x' Hc Hx]; subst.
      apply (m_cat _ _ [c'] x' rest); [by constructor|]. by apply IH.
Qed.

Lemma at_end_spec rest : at_end rest = true ↔ rest = [] ∨ rest = [10].
Proof.
  destruct rest as [|c [|c' rest]]; simpl.
  - split; [by left|done].
  - rewrite N.eqb_eq. split; [intros ->; by right|by intros [?|[= ->]]].
  - split; [done|by intros [?|?]].
Qed.

(** Taking a match apart, down to its characters. *)
Ltac invert_matches :=
  repeat match goal with
         | H : matches (Cat _ _) _ _ |- _ => inversion H; subst; clear H
         | H : matches (Alt _ _) _ _ |- _ => inversion H; subst; clear H
         | H : matches (Opt _) _ _ |- _ => inversion H; subst; clear H
         | H : matches Eps _ _ |- _ => inversion H; subst; clear H
         | H : matches Eol _ _ |- _ => inversion H; subst; clear H
         | H : matches (Lit _) _ _ |- _ => apply lit_matches in H; subst
         | H : matches (Rep _ _ _) _ _ |- _ => inversion H; subst; clear H
         | H : matches (word true _) _ _ |- _ => apply word_spelled in H
         end.

(** The matches of [ACADEMIC_EMAIL_PREF]: a dot and an academic ending, at
    the end of the text. *)
Lemma academic_matches w rest :
  matches ACADEMIC_EMAIL_PREF w rest
  ↔ ∃ e, w = py "." ++ e ∧ academic_ending e ∧ at_end rest = true.
Proof.
  split.
  - intros Hm. unfold ACADEMIC_EMAIL_PREF in Hm. cbn [cat alt foldr] in Hm.
    invert_matches; rewrite ?app_nil_r in *; eexists; (split; [reflexivity|]);
      (split; [|done]).
    all: try (eapply ae_word; [|eassumption]; set_solver).
    all: try (eapply (ae_country _ _ _); [|eassumption|eassumption|lia]; set_solver).
  - intros (e & -> & He & Hend).
    assert (Hwrap : ∀ r, matches r e rest →
      matches (cat [Lit (ch "."); r; Eol]) (py "." ++ e) rest).
    { intros r Hr. cbn [cat foldr].
      apply (m_cat _ _ (py ".") e rest); [by constructor|].
      rewrite <- (app_nil_r e). apply (m_cat _ _ e [] rest); [done|].
      apply (m_cat _ _ [] [] rest); [by constructor|constructor]. }
    unfold ACADEMIC_EMAIL_PREF. apply Hwrap. cbn [alt].
    assert (Hcc : ∀ lo hi cc, Forall (λ c, is_alpha_ci c = true) cc → (lo ≤ length cc)%nat →
      (∀ h, hi = Some h → (length cc ≤ h)%nat) →
      ∀ x w, spelled w x →
      matches (Cat (word true w) (Cat (Lit (ch ".")) (Rep is_alpha_ci lo hi)))
        (x ++ py "." ++ cc) rest).
    { intros lo hi cc Hcc Hlo Hhi x w Hx.
      apply m_cat; [by apply word_spelled|].
      apply (m_cat _ _ (py ".") cc rest); [by constructor|by constructor]. }
    assert (Hopt : ∀ x w r, spelled w x → matches (Cat (word true w) (Opt r)) x rest).
    { intros x w r Hx. rewrite <- (app_nil_r x).
      apply (m_cat _ _ x [] rest); [by apply word_spelled|apply m_opt_none]. }
    destruct He as [w x Hw Hx|w x cc Hw Hx Hcc' Hlen].
    + repeat (apply elem_of_cons in Hw as [->|Hw]); [| | | |by apply elem_of_nil in Hw].
      * apply m_alt_l. by apply Hopt.
      * apply m_alt_r, m_alt_l. by apply Hopt.
      * do 4 apply m_alt_r. apply m_alt_l. by apply word_spelled.
      * do 5 apply m_alt_r. by apply word_spelled.
    + repeat (apply elem_of_cons in Hw as [->|Hw]); [| |by apply elem_of_nil in Hw].
      * do 2 apply m_alt_r. apply m_alt_l. by apply Hcc.
      * do 3 apply m_alt_r. apply m_alt_l. by apply Hcc.
Qed.

(** [ACADEMIC_EMAIL_PREF.search("." + d)] succeeds exactly on the domains
    with an academic suffix. *)
Lemma academic_re_spec d : academic_re (py "." ++ d) = true ↔ academic_suffix d.
Proof.
  change (academic_re (py "." ++ d)) with (found ACADEMIC_EMAIL_PREF (py "." ++ d)).
  rewrite found_iff. unfold academic_suffix. split.
  - intros (pre & w & rest & Heq & (e & -> & He & Hend)%academic_matches).
    exists pre, e, rest. rewrite <- app_assoc in Heq. split; [done|]. split; [done|].
    by apply at_end_spec.
  - intros (pre & e & nl & Heq & He & Hend). exists pre, (py "." ++ e), nl.
    rewrite <- app_assoc. split; [done|]. apply academic_matches. exists e.
    split; [done|]. split; [done|]. by apply at_end_spec.
Qed.

(** ** The ranking order *)

Lemma rank_ltb_spec (a b : rank) :
  rank_ltb a b = true ↔
  let '(a1, a2, a3, a4) := a in
  let '(b1, b2, b3, b4) := b in
  (a1 < b1 ∨ (a1 = b1 ∧ (a2 < b2 ∨ (a2 = b2 ∧ (a3 < b3 ∨ (a3 = b3 ∧ a4 < b4))))))%Z.
Proof.
  destruct a as [[[a1 a2] a3] a4], b as [[[b1 b2] b3] b4]. unfold rank_ltb.
  rewrite !orb_true_iff, !andb_true_iff, !orb_true_iff, !andb_true_iff,
    !orb_true_iff, !andb_true_iff.
  rewrite !Z.ltb_lt, !Z.eqb_eq. tauto.
Qed.

Lemma rank_lt_trans a b c : rank_lt a b → rank_lt b c → rank_lt a c.
Proof.
  unfold rank_lt. rewrite !rank_ltb_spec.
  destruct a as [[[a1 a2] a3] a4], b as [[[b1 b2] b3] b4], c as [[[c1 c2] c3] c4]. lia.
Qed.

Lemma rank_lt_le_trans a b c : rank_lt a b → ¬ rank_lt c b → rank_lt a c.
Proof.
  unfold rank_lt. rewrite !rank_ltb_spec.
  destruct a as [[[a1 a2] a3] a4], b as [[[b1 b2] b3] b4], c as [[[c1 c2] c3] c4]. lia.
Qed.

Section Ranking.
Context {U : Unicode}.

(** The affinity of a name and a local part: the number of tokens of the
    name that are akin to the lower-cased local part. *)
Lemma name_affinity_count name local :
  name_affinity name local
  = length (filter (λ t, akinb (lower local) t = true) (name_tokens name)).
Proof. unfold name_affinity, name_tokens, akinb. by rewrite foldl_count. Qed.

(** The order of the keys of two candidates, component by component. *)
Lemma email_rank_lt name r l1 d1 l2 d2 :
  rank_lt (email_rank name l1 d1 r) (email_rank name l2 d2 r) ↔
  let same d := nonempty r && under_domain (lower d) r in
  let len (l : str) := Nat.min (length l) 20 in
  (same d1 = true ∧ same d2 = false)
  ∨ (same d1 = same d2
     ∧ ((is_academic_domain d1 = true ∧ is_academic_domain d2 = false)
        ∨ (is_academic_domain d1 = is_academic_domain d2
           ∧ ((name_affinity name l2 < name_affinity name l1)%nat
              ∨ (name_affinity name l1 = name_affinity name l2
                 ∧ (len l1 < len l2)%nat))))).
Proof.
  unfold rank_lt. rewrite rank_ltb_spec. unfold email_rank.
  destruct (nonempty r), (under_domain (lower d1) r), (under_domain (lower d2) r),
    (is_academic_domain d1), (is_academic_domain d2); simpl; lia.
Qed.

Lemma pick_step_skip name r st e :
  email_allowed e r = false → pick_step name r st e = st.
Proof.
  intros Hf. unfold pick_step. destruct (split_first _ e) as [[l d]|]; [|done].
  by rewrite Hf.
Qed.

Lemma pick_step_min name r acc st e :
  first_min name r acc st → email_allowed e r = true →
  first_min name r (acc ++ [e]) (pick_step name r st e).
Proof.
  intros Hinv Ha. unfold pick_step.
  assert (Hr : rank_of name r e = match split_first (ch "@") e with
    | Some (local, domain) => email_rank name local domain r | None => (0,0,0,0)%Z end) by done.
  destruct (split_first (ch "@") e) as [[l d]|] eqn:Hs.
  2:{ unfold email_allowed in Ha. by rewrite Hs in Ha. }
  rewrite Ha. simpl negb. cbv iota. rewrite <- Hr.
  destruct Hinv as [|before best after Hb Haf]; simpl.
  - apply (fm_some name r [] e []); intros x Hx; by apply elem_of_nil in Hx.
  - destruct (rank_ltb (rank_of name r e) (rank_of name r best)) eqn:Hlt.
    + replace ((before ++ best :: after) ++ [e]) with ((before ++ best :: after) ++ e :: [])
        by done.
      apply fm_some; [|intros x Hx; by apply elem_of_nil in Hx].
      intros x Hx. apply elem_of_app in Hx as [Hx|Hx].
      * eapply rank_lt_trans; [exact Hlt|]. by apply Hb.
      * apply elem_of_cons in Hx as [->|Hx]; [exact Hlt|].
        eapply rank_lt_le_trans; [exact Hlt|]. by apply Haf.
    + rewrite <- app_assoc. simpl. apply fm_some; [done|].
      intros x Hx. apply elem_of_app in Hx as [Hx|Hx]; [by apply Haf|].
      apply list_elem_of_singleton in Hx as ->. unfold rank_lt. by rewrite Hlt.
Qed.

Lemma pick_loop_min name r emails acc st :
  first_min name r acc st →
  first_min name r (acc ++ accepted r emails) (foldl (pick_step name r) st emails).
Proof.
  revert acc st. induction emails as [|e emails IH]; intros acc st Hinv; simpl.
  - unfold accepted. rewrite filter_nil, app_nil_r. done.
  - unfold accepted. rewrite filter_cons. case_decide as Ha.
    + rewrite (cons_middle e), app_assoc. apply IH. by apply pick_step_min.
    + apply not_true_is_false in Ha. rewrite pick_step_skip by done. by apply IH.
Qed.

(** The loop of [pick_best_email] ends on the first accepted candidate
    with the least key. *)
Lemma pick_best_email_first_min name emails r :
  first_min name r (accepted r emails) (foldl (pick_step name r) ([], None) emails).
Proof. apply (pick_loop_min name r emails [] ([], None)). constructor. Qed.

Lemma pick_best_email_accepted name emails r :
  pick_best_email name emails r ≠ [] →
  pick_best_email name emails r ∈ accepted r emails.
Proof.
  unfold pick_best_email. pose proof (pick_best_email_first_min name emails r) as Hm.
  inversion Hm as [Hacc Hst|before best after Hb Ha Hacc Hst]; simpl; [done|].
  intros _. apply elem_of_app. right. left.
Qed.

Lemma pick_best_email_allowed name emails r :
  pick_best_email name emails r ≠ [] →
  email_allowed (pick_best_email name emails r) r = true.
Proof.
  intros Hin%pick_best_email_accepted. unfold accepted in Hin.
  apply list_elem_of_filter in Hin. tauto.
Qed.

Lemma pick_best_email_rejected name emails r :
  (∀ e, e ∈ emails → email_allowed e r = false) → pick_best_email name emails r = [].
Proof.
  intros Hall. unfold pick_best_email.
  assert (Hfold : ∀ st, foldl (pick_step name r) st emails = st).
  { induction emails as [|e emails IH]; intros st; simpl; [done|].
    rewrite pick_step_skip by (apply Hall; left).
    apply IH. intros e' He'. apply Hall. by right. }
  by rewrite Hfold.
Qed.
End Ranking.

(** ** ASCII text does not depend on the Unicode database *)

Section Transfer.
Context (U : Unicode).

Lemma lower_transfer s : ascii s → @lower U s = @lower ascii_unicode s.
Proof. intros Hs. by rewrite lower_ascii. Qed.

Lemma name_affinity_transfer name l :
  ascii name → ascii l →
  @name_affinity U name l = @name_affinity ascii_unicode name l.
Proof.
  intros Hn Hl. unfold name_affinity. rewrite (lower_transfer l) by done.
  f_equal. apply map_ext_in. intros t Ht. apply lower_transfer, ascii_Forall.
  eapply (findall_Forall (λ c, is_ascii c = true)); [apply ascii_Forall, Hn|].
  apply list_elem_of_In, Ht.
Qed.

Lemma is_academic_domain_transfer d :
  ascii d → @is_academic_domain U d = @is_academic_domain ascii_unicode d.
Proof. intros Hd. unfold is_academic_domain. by rewrite lower_transfer. Qed.

Lemma email_is_generic_transfer l :
  ascii l → @email_is_generic U l = @email_is_generic ascii_unicode l.
Proof. intros Hd. unfold email_is_generic. by rewrite lower_transfer. Qed.

Lemma email_allowed_transfer e r :
  ascii e → @email_allowed U e r = @email_allowed ascii_unicode e r.
Proof.
  intros He. unfold email_allowed.
  destruct (split_first (ch "@") e) as [[l d]|] eqn:Hs; [|done].
  destruct (split_first_ascii _ _ _ _ Hs He) as [Hl Hd].
  rewrite (lower_transfer l), (lower_transfer d) by done.
  rewrite email_is_generic_transfer by by apply ascii_lower_ascii.
  rewrite is_academic_domain_transfer by by apply ascii_lower_ascii.
  done.
Qed.

Lemma email_rank_transfer name l d r :
  ascii name → ascii l → ascii d →
  @email_rank U name l d r = @email_rank ascii_unicode name l d r.
Proof.
  intros Hn Hl Hd. unfold email_rank.
  by rewrite lower_transfer, is_academic_domain_transfer, name_affinity_transfer.
Qed.

Lemma pick_step_transfer name r st e :
  ascii name → ascii e →
  @pick_step U name r st e = @pick_step ascii_unicode name r st e.
Proof.
  intros Hn He. unfold pick_step.
  destruct (split_first (ch "@") e) as [[l d]|] eqn:Hs; [|done].
  destruct (split_first_ascii _ _ _ _ Hs He) as [Hl Hd].
  by rewrite email_allowed_transfer, email_rank_transfer.
Qed.

(** On ASCII text the choice of [pick_best_email] is the same for every
    Unicode database. *)
Lemma pick_best_email_transfer name emails r :
  ascii name → Forall ascii emails →
  @pick_best_email U name emails r = @pick_best_email ascii_unicode name emails r.
Proof.
  intros Hn He. unfold pick_best_email. f_equal.
  generalize (([], None) : str * option rank).
  induction He as [|e emails Hea He IH]; intros st; simpl; [done|].
  rewrite pick_step_transfer by done. apply IH.
Qed.
End Transfer.

(** ** The filter and the policy *)

Section PolicyFacts.
Context {U : Unicode}.

Lemma email_is_generic_spec l : email_is_generic l = true ↔ generic_mailbox (lower l).
Proof.
  unfold email_is_generic, generic_mailbox.
  rewrite !orb_true_iff, mem_spec, !startswith_prefix. tauto.
Qed.

Lemma under_domain_spec d r : under_domain d r = true ↔ within d r.
Proof. unfold under_domain, within. by rewrite orb_true_iff, str_eqb_spec, endswith_suffix. Qed.

Lemma is_academic_domain_lower d : is_academic_domain (lower d) = is_academic_domain d.
Proof. unfold is_academic_domain. by rewrite lower_idem. Qed.

Lemma email_allowed_iff_policy email site_regdom local domain :
  split_first (ch "@") email = Some (local, domain) →
  email_allowed email site_regdom = true ↔ policy local domain site_regdom.
Proof.
  intros Hs. unfold email_allowed, policy. rewrite Hs.
  assert (Hg : email_is_generic (lower local) = true ↔ generic_mailbox (lower local))
    by (by rewrite email_is_generic_spec, lower_idem).
  rewrite <- Hg. unfold free_provider.
  rewrite <- mem_spec, <- nonempty_spec, <- under_domain_spec.
  rewrite <- academic_re_spec. fold (is_academic_domain domain).
  rewrite is_academic_domain_lower.
  destruct (email_is_generic (lower local)), (mem (lower domain) PERSONAL_FREE_DOMAINS),
    (nonempty site_regdom), (under_domain (lower domain) site_regdom),
    (is_academic_domain domain); simpl; intuition congruence.
Qed.
Lemma is_academic_domain_spec d : is_academic_domain d = true ↔ academic_suffix (lower d).
Proof. unfold is_academic_domain. apply academic_re_spec. Qed.

Lemma split_first_fresh c a b : c ∉ a → split_first c (a ++ c :: b) = Some (a, b).
Proof.
  induction a as [|x a IH]; simpl; intros Hc.
  - by rewrite N.eqb_refl.
  - apply not_elem_of_cons in Hc as [Hx Ha].
    destruct (N.eqb_spec x c) as [->|_]; [done|]. by rewrite (IH Ha).
Qed.

(** The order of the keys in the words of the policy: a candidate comes
    first when it is within the site's registrable domain and the other is
    not; these being equal, when its domain has an academic suffix and the
    other's has not; these being equal, when its affinity to the name is the
    higher; these being equal, when its local part, cut at 20, is the
    shorter. *)
Lemma rank_of_lt name r l1 d1 l2 d2 :
  ch "@" ∉ l1 → ch "@" ∉ l2 →
  rank_lt (rank_of name r (l1 ++ ch "@" :: d1)) (rank_of name r (l2 ++ ch "@" :: d2)) ↔
  let same d := r ≠ [] ∧ within (lower d) r in
  let academic d := academic_suffix (lower d) in
  let affinity l := name_affinity name l in
  let len (l : str) := Nat.min (length l) 20 in
  (same d1 ∧ ¬ same d2)
  ∨ ((same d1 ↔ same d2)
     ∧ ((academic d1 ∧ ¬ academic d2)
        ∨ ((academic d1 ↔ academic d2)
           ∧ ((affinity l2 < affinity l1)%nat
              ∨ (affinity l1 = affinity l2 ∧ (len l1 < len l2)%nat))))).
Proof.
  intros H1 H2. unfold rank_of. rewrite !split_first_fresh by done.
  rewrite email_rank_lt. cbv zeta beta.
  rewrite <- !is_academic_domain_spec, <- !under_domain_spec, <- nonempty_spec.
  destruct (nonempty r), (under_domain (lower d1) r), (under_domain (lower d2) r),
    (is_academic_domain d1), (is_academic_domain d2); simpl; intuition (congruence || lia).
Qed.
End PolicyFacts.

(** ** The crawl of one site *)

Lemma opens_app a b : opens (a ++ b) = opens a ++ opens b.
Proof. apply omap_app. Qed.

Lemma loads_app a b : loads (a ++ b) = loads a ++ loads b.
Proof. apply omap_app. Qed.

Lemma fetched_app a b : fetched (a ++ b) = fetched a ++ fetched b.
Proof. apply omap_app. Qed.

Lemma elem_of_concat {A} (x : A) (ls : list (list A)) :
  x ∈ concat ls ↔ ∃ l, x ∈ l ∧ l ∈ ls.
Proof.
  induction ls as [|a ls IH]; simpl.
  - split; [by intros ?%elem_of_nil|by intros (l & _ & ?%elem_of_nil)].
  - rewrite elem_of_app, IH. split.
    + intros [?|(l & ? & ?)]; [exists a; split; [done|by left]|].
      exists l. split; [done|by right].
    + intros (l & Hx & [->|?]%elem_of_cons); [by left|]. right. by exists l.
Qed.

(** Every URL passed to [fetch] is a listing loaded or a profile opened. *)
Lemma fetched_perm ms : fetched ms ≡ₚ loads ms ++ opens ms.
Proof.
  induction ms as [|m ms IH]; [done|].
  destruct m; cbn [fetched loads opens omap]; cbn [mbind option_bind app];
    fold (fetched ms) (loads ms) (opens ms); try done.
  - by constructor.
  - by apply Permutation_cons_app.
Qed.

Section SiteFacts.
Context {U : Unicode} {D : Dom} {C : Type} {Cl : Client C}.

Lemma parse_profile_rejected html url r :
  (∀ e, e ∈ extract_emails (profile_text html) → email_allowed e r = false) →
  parse_profile html url r = ([], [], [], [], []).
Proof.
  intros Hall. unfold parse_profile.
  destruct (looks_like_human_name _); simpl; [|done].
  by rewrite pick_best_email_rejected.
Qed.

Lemma parse_profile_email html url r name school research email phone :
  parse_profile html url r = (name, school, research, email, phone) →
  email = [] ∨ institutional r email.
Proof.
  unfold parse_profile.
  destruct (looks_like_human_name _); simpl; [|intros [= <- <- <- <- <-]; by left].
  match goal with |- context [pick_best_email ?n ?es r] => set (e := pick_best_email n es r) end.
  destruct (nonempty e) eqn:Hne; simpl; intros [= <- <- <- <- <-]; [|by left].
  right. apply nonempty_spec in Hne. split; [done|]. by apply pick_best_email_allowed.
Qed.

(** A step that opens no profile and keeps no result. *)
Lemma effect_quiet r (st st' : Crawl C) delta :
  said st' = said st ++ delta → opens delta = [] →
  visited st ⊆ visited st' → results st' = results st →
  effect r (loads delta) st st'.
Proof.
  intros Hs Ho Hv Hr. split; [|done|].
  - exists delta. rewrite Ho. split; [done|]. split; [done|].
    split; [apply NoDup_nil_2|]. intros u Hu. by apply elem_of_nil in Hu.
  - exists []. by rewrite app_nil_r.
Qed.

Lemma effect_refl r (st : Crawl C) : effect r [] st st.
Proof. apply (effect_quiet r st st []); [by rewrite app_nil_r|done..]. Qed.

Lemma effect_trans r l1 l2 (st1 st2 st3 : Crawl C) :
  effect r l1 st1 st2 → effect r l2 st2 st3 → effect r (l1 ++ l2) st1 st3.
Proof.
  intros [(d1 & Hs1 & Hl1 & Hn1 & Ho1) Hv1 (a1 & Hr1 & Hg1)]
         [(d2 & Hs2 & Hl2 & Hn2 & Ho2) Hv2 (a2 & Hr2 & Hg2)].
  split; [|by etrans|].
  - exists (d1 ++ d2). rewrite Hs2, Hs1, <- app_assoc, loads_app, opens_app, Hl1, Hl2.
    split; [done|]. split; [done|]. split.
    + apply NoDup_app. split; [done|]. split; [|done].
      intros u Hu1 Hu2. apply Ho1 in Hu1 as [_ Hu1]. apply Ho2 in Hu2 as [Hu2 _]. done.
    + intros u [Hu|Hu]%elem_of_app.
      * apply Ho1 in Hu as [Hn Hin]. split; [done|]. by apply Hv2.
      * apply Ho2 in Hu as [Hn Hin]. split; [|done]. intros Hin1. by apply Hn, Hv1.
  - exists (a1 ++ a2). rewrite Hr2, Hr1, <- app_assoc. split; [done|].
    by apply Forall_app.
Qed.

(** A message that is not a profile opening. *)
Lemma effect_tell r m (st : Crawl C) :
  opens [m] = [] → effect r (loads [m]) st (tell m st).
Proof. intros Hm. by apply (effect_quiet r st (tell m st) [m]). Qed.

Lemma open_profile_effect p next_url r max (st st' : Crawl C) b :
  open_profile p next_url r max st = (st', b) → effect r [] st st'.
Proof.
  unfold open_profile.
  destruct (reached max (length (results st))).
  { intros [= <- <-]. by apply (effect_tell r ReachedMax). }
  set (u := if nonempty (link_url p) then link_url p else next_url).
  case_bool_decide as Hv.
  { intros [= <- <-]. apply effect_refl. }
  simpl. destruct (allowed_by_robots (client st) u) as [c ok]. simpl.
  assert (Hopen : ∀ rest, opens rest = [] → loads rest = [] →
    ∃ delta, said st ++ OpeningProfile u :: rest = said st ++ delta ∧ loads delta = []
      ∧ NoDup (opens delta)
      ∧ (∀ v, v ∈ opens delta → (v ∉ visited st) ∧ (v ∈ {[u]} ∪ visited st))).
  { intros rest Ho Hl. exists (OpeningProfile u :: rest). simpl. rewrite Ho, Hl.
    split; [done|]. split; [done|]. split; [apply NoDup_singleton|].
    intros v ->%list_elem_of_singleton. split; [done|].
    apply elem_of_union_l. by apply elem_of_singleton. }
  assert (Hsub : visited st ⊆ {[u]} ∪ visited st) by apply union_subseteq_r.
  destruct ok; simpl.
  2:{ intros [= <- <-].
      by apply (effect_quiet r st _ [RobotsBlockedProfile u]). }
  destruct (fetch c u) as [c' ph]. simpl.
  destruct (truthy ph) as [html|].
  2:{ intros [= <- <-]. split; simpl; [|done|exists []; by rewrite app_nil_r].
      unfold said. simpl. rewrite <- app_assoc. by apply Hopen. }
  destruct (parse_profile html u r) as [[[[name school] research] email] phone] eqn:Hp.
  apply parse_profile_email in Hp.
  destruct (nonempty email) eqn:Hne; simpl.
  2:{ intros [= <- <-]. split; simpl; [|done|exists []; by rewrite app_nil_r].
      unfold said. simpl. rewrite <- app_assoc. by apply Hopen. }
  destruct Hp as [->|Hi]; [done|].
  destruct (reached max _); intros [= <- <-]; (split; simpl; [|done|]).
  - unfold said. simpl. rewrite <- app_assoc. by apply Hopen.
  - eexists. split; [done|]. by apply Forall_singleton.
  - unfold said. simpl. by apply Hopen.
  - eexists. split; [done|]. by apply Forall_singleton.
Qed.

Lemma open_profiles_effect discovered next_url r max (st st' : Crawl C) b :
  open_profiles discovered next_url r max st = (st', b) → effect r [] st st'.
Proof.
  revert st. induction discovered as [|p rest IH]; intros st; simpl.
  - intros [= <- <-]. apply effect_refl.
  - destruct (open_profile p next_url r max st) as [st1 ret] eqn:He1.
    apply open_profile_effect in He1. destruct ret.
    + by intros [= <- <-].
    + intros He2%IH. apply (effect_trans r [] [] _ _ _ He1 He2).
Qed.

Lemma load_listing_effect pages next_url r max (st st' : Crawl C) nxt :
  load_listing pages next_url r max st = (st', nxt) →
  ∃ ls, effect r ls st st' ∧ (ls = [] ∨ ls = [next_url]).
Proof.
  unfold load_listing.
  destruct (allowed_by_robots (client st) next_url) as [c ok]. simpl.
  destruct ok; simpl.
  2:{ intros [= <- <-]. exists []. split; [|by left].
      by apply (effect_quiet r st _ [BlockedByRobots next_url]). }
  destruct (fetch c next_url) as [c' html]. simpl.
  set (st1 := with_client c' (tell (LoadingListing next_url) (with_client c st))).
  assert (He1 : effect r [next_url] st st1).
  { by apply (effect_quiet r st st1 [LoadingListing next_url]). }
  assert (Hfin : ∀ m st2, opens [m] = [] → loads [m] = [] →
    effect r [] st1 st2 →
    ∃ ls, effect r ls st (tell m st2) ∧ (ls = [] ∨ ls = [next_url])).
  { intros m st2 Ho Hl He2. exists [next_url]. split; [|by right].
    pose proof (effect_trans r _ _ _ _ _ He1 He2) as He3.
    pose proof (effect_tell r m st2 Ho) as He4. rewrite Hl in He4.
    pose proof (effect_trans r _ _ _ _ _ He3 He4) as He5. by rewrite !app_nil_r in He5. }
  destruct (truthy html) as [h|].
  2:{ intros [= <- <-]. apply Hfin; [done|done|apply effect_refl]. }
  destruct (open_profiles _ _ _ _ _) as [st2 ret] eqn:He2.
  apply open_profiles_effect in He2.
  assert (He3 : effect r [] st1 st2).
  { pose proof (effect_tell r (FoundLinks (length (discover_profiles h next_url)) next_url)
                  st1 eq_refl) as He3.
    apply (effect_trans r [] [] _ _ _ He3 He2). }
  destruct ret.
  { intros [= <- <-]. exists [next_url]. split; [|by right].
    pose proof (effect_trans r _ _ _ _ _ He1 He3) as He4. by rewrite app_nil_r in He4. }
  destruct (truthy (find_next_page h next_url)) as [n|].
  2:{ intros [= <- <-]. by apply Hfin. }
  destruct (str_eqb n next_url); intros [= <- <-]; by apply Hfin.
Qed.

Lemma crawl_pages_effect fuel pages next_url r max (st st' : Crawl C) :
  crawl_pages fuel pages next_url r max st = Some st' →
  ∃ ls, effect r ls st st' ∧ (length ls ≤ MAX_PAGINATION_PAGES - pages)%nat.
Proof.
  revert pages next_url st. induction fuel as [|fuel IH]; intros pages next_url st; simpl.
  - destruct (nonempty next_url && (pages <? MAX_PAGINATION_PAGES)%nat); simpl; [done|].
    intros [= <-]. exists []. split; [apply effect_refl|simpl; lia].
  - destruct (nonempty next_url && (pages <? MAX_PAGINATION_PAGES)%nat) eqn:Hc; simpl.
    2:{ intros [= <-]. exists []. split; [apply effect_refl|simpl; lia]. }
    apply andb_true_iff in Hc as [_ Hp%Nat.ltb_lt].
    destruct (load_listing pages next_url r max st) as [st1 nxt] eqn:He1.
    apply load_listing_effect in He1 as (l1 & He1 & Hl1).
    destruct nxt as [n|].
    + intros (l2 & He2 & Hl2)%IH. exists (l1 ++ l2).
      split; [by eapply effect_trans|]. rewrite length_app.
      destruct Hl1 as [->| ->]; simpl; lia.
    + intros [= <-]. exists l1. split; [done|]. destruct Hl1 as [->| ->]; simpl; lia.
Qed.

(** The loop never runs out of the iterations it is given. *)
Lemma crawl_pages_total fuel pages next_url r max (st : Crawl C) :
  (MAX_PAGINATION_PAGES - pages ≤ fuel)%nat →
  is_Some (crawl_pages fuel pages next_url r max st).
Proof.
  revert pages next_url st. induction fuel as [|fuel IH]; intros pages next_url st Hf; simpl.
  - destruct (nonempty next_url && (pages <? MAX_PAGINATION_PAGES)%nat) eqn:Hc; simpl; [|done].
    apply andb_true_iff in Hc as [_ Hp%Nat.ltb_lt]. lia.
  - destruct (nonempty next_url && (pages <? MAX_PAGINATION_PAGES)%nat) eqn:Hc; simpl; [|done].
    destruct (load_listing pages next_url r max st) as [st1 [n|]]; [|done].
    apply IH. lia.
Qed.

Lemma process_site_effect (c : C) site max pr :
  ∃ cr delta,
    process_site c site max pr = Some cr
    ∧ messages (progress cr) = messages pr ++ delta
    ∧ (length (loads delta) ≤ MAX_PAGINATION_PAGES)%nat
    ∧ NoDup (opens delta)
    ∧ Forall (λ res, institutional (registered_domain site) (r_email res)) (results cr).
Proof.
  unfold process_site.
  set (pr' := if js_disabled c then say JsDisabled pr else pr).
  set (st0 := {| results := []; visited := ∅; client := c; progress := pr' |}).
  destruct (crawl_pages_total MAX_PAGINATION_PAGES 0 site (registered_domain site) max st0)
    as [cr Hcr]; [lia|].
  exists cr. rewrite Hcr.
  apply crawl_pages_effect in Hcr as (ls & [(d & Hs & Hl & Hn & _) _ (a & Hr & Ha)] & Hlen).
  assert (Hpr : ∃ d0, messages pr' = messages pr ++ d0 ∧ loads d0 = [] ∧ opens d0 = []).
  { subst pr'. destruct (js_disabled c).
    - by exists [JsDisabled].
    - exists []. by rewrite app_nil_r. }
  destruct Hpr as (d0 & Hd0 & Hl0 & Ho0).
  exists (d0 ++ d). split; [done|]. unfold said in Hs. simpl in Hs, Hr.
  rewrite Hs, Hd0, <- app_assoc, loads_app, opens_app, Hl0, Ho0, Hl, Hr. simpl.
  repeat split; done || lia.
Qed.

(** The cycle guard of [process_site]. *)
Lemma load_listing_self_cycle pages url r max (st : Crawl C) c1 c2 html :
  allowed_by_robots (client st) url = (c1, true) →
  fetch c1 url = (c2, Some html) → html ≠ [] →
  find_next_page html url = Some url →
  ∃ st', load_listing pages url r max st = (st', None)
         ∧ loads (said st') = loads (said st) ++ [url].
Proof.
  intros Hr Hf Hh Hn. unfold load_listing. rewrite Hr. simpl. rewrite Hf. simpl.
  destruct html as [|h0 html]; [done|]. simpl.
  destruct (open_profiles _ _ _ _ _) as [st2 ret] eqn:He2.
  apply open_profiles_effect in He2 as [(d & Hs & Hl & _) _ _].
  unfold said in Hs. simpl in Hs.
  assert (Hloads : loads (said st2) = loads (said st) ++ [url]).
  { unfold said. rewrite Hs, !loads_app, Hl. simpl. by rewrite !app_nil_r. }
  rewrite Hn.
  assert (Hfin : loads (said (tell NoFurtherPages st2)) = loads (said st) ++ [url]).
  { unfold said. simpl. rewrite loads_app. simpl. rewrite app_nil_r. exact Hloads. }
  destruct ret; [by eexists|].
  destruct (truthy (Some url)) as [n|] eqn:Ht; [|by eexists].
  assert (n = url) as -> by (destruct url; simpl in Ht; congruence).
  rewrite (proj2 (str_eqb_spec url url) eq_refl). by eexists.
Qed.

Lemma crawl_pages_self_cycle fuel pages url r max (st : Crawl C) c1 c2 html :
  url ≠ [] → (pages < MAX_PAGINATION_PAGES)%nat →
  allowed_by_robots (client st) url = (c1, true) →
  fetch c1 url = (c2, Some html) → html ≠ [] →
  find_next_page html url = Some url →
  ∃ st', crawl_pages (S fuel) pages url r max st = Some st'
         ∧ loads (said st') = loads (said st) ++ [url].
Proof.
  intros Hu Hp Hr Hf Hh Hn. simpl.
  apply nonempty_spec in Hu. apply Nat.ltb_lt in Hp. rewrite Hu, Hp. simpl.
  destruct (load_listing_self_cycle pages url r max st c1 c2 html Hr Hf Hh Hn)
    as (st' & -> & Hl).
  by exists st'.
Qed.

(** The loads of an iteration: the listing, when robots allow it. *)
Lemma load_listing_loads pages url r max (st st' : Crawl C) nxt :
  load_listing pages url r max st = (st', nxt) →
  loads (said st')
  = loads (said st) ++ (if snd (allowed_by_robots (client st) url) then [url] else [])
  ∧ (snd (allowed_by_robots (client st) url) = false → nxt = None).
Proof.
  unfold load_listing.
  destruct (allowed_by_robots (client st) url) as [c ok]. simpl. destruct ok; simpl.
  2:{ intros [= <- <-]. split; [|done]. unfold said. simpl. by rewrite loads_app. }
  destruct (fetch c url) as [c' html]. simpl.
  destruct (truthy html) as [h|].
  2:{ intros [= <- <-]. split; [|done]. unfold said. simpl. rewrite !loads_app. simpl.
      by rewrite app_nil_r. }
  destruct (open_profiles _ _ _ _ _) as [st2 ret] eqn:He2.
  apply open_profiles_effect in He2 as [(d & Hs & Hl & _) _ _].
  unfold said in Hs. simpl in Hs.
  assert (Hloads : loads (said st2) = loads (said st) ++ [url]).
  { unfold said. rewrite Hs, !loads_app, Hl. simpl. by rewrite !app_nil_r. }
  assert (Hfin : ∀ m, loads [m] = [] →
            loads (said (tell m st2)) = loads (said st) ++ [url]).
  { intros m Hm. unfold said. simpl. rewrite loads_app, Hm, app_nil_r. exact Hloads. }
  destruct ret; [by intros [= <- <-]|].
  destruct (truthy (find_next_page h url)) as [n|].
  2:{ intros [= <- <-]. split; [by apply Hfin|done]. }
  destruct (str_eqb n url); intros [= <- <-]; (split; [by apply Hfin|done]).
Qed.

(** The iteration on a self-cycling listing is the last. *)
Lemma load_listing_self_stops pages u r max (st st' : Crawl C) nxt :
  self_cycling u → load_listing pages u r max st = (st', nxt) → nxt = None.
Proof.
  intros Hself. unfold load_listing.
  destruct (allowed_by_robots (client st) u) as [c ok] eqn:Ha. simpl.
  destruct ok; simpl; [|by intros [= <- <-]].
  destruct (fetch c u) as [c' html] eqn:Hf. simpl.
  destruct (truthy html) as [h|] eqn:Ht; [|by intros [= <- <-]].
  assert (html = Some h ∧ h ≠ []) as [-> Hh].
  { destruct html as [[|x y]|]; simpl in Ht; try done. by injection Ht as <-. }
  rewrite (Hself _ _ _ _ Ha Hf Hh).
  destruct (open_profiles _ _ _ _ _) as [st2 ret]. destruct ret; [by intros [= <- <-]|].
  destruct (truthy (Some u)) as [n|] eqn:Hn; [|by intros [= <- <-]].
  assert (n = u) as -> by (destruct u; simpl in Hn; congruence).
  rewrite (proj2 (str_eqb_spec u u) eq_refl). by intros [= <- <-].
Qed.

(** After the load of a self-cycling listing the loop loads nothing. *)
Lemma crawl_pages_last u fuel pages url r max (st st' : Crawl C) :
  self_cycling u → crawl_pages fuel pages url r max st = Some st' →
  ∃ ls, loads (said st') = loads (said st) ++ ls
        ∧ ∀ l1 l2, ls = l1 ++ u :: l2 → l2 = [].
Proof.
  intros Hself. revert pages url st.
  assert (Hnil : ∀ st : Crawl C, ∃ ls, loads (said st) = loads (said st) ++ ls
                   ∧ ∀ l1 l2, ls = l1 ++ u :: l2 → l2 = []).
  { intros st. exists []. rewrite app_nil_r. split; [done|]. intros l1 l2 Hl. by destruct l1. }
  induction fuel as [|fuel IH]; intros pages url st; simpl.
  - destruct (nonempty url && (pages <? MAX_PAGINATION_PAGES)%nat); simpl; [done|].
    intros [= <-]. apply Hnil.
  - destruct (nonempty url && (pages <? MAX_PAGINATION_PAGES)%nat); simpl.
    2:{ intros [= <-]. apply Hnil. }
    destruct (load_listing pages url r max st) as [st1 nxt] eqn:He1.
    destruct (load_listing_loads _ _ _ _ _ _ _ He1) as [Hl1 _].
    destruct nxt as [n|].
    + assert (Hu : url ≠ u).
      { intros ->. by pose proof (load_listing_self_stops _ _ _ _ _ _ _ Hself He1). }
      intros (ls2 & Hl2 & Hlast)%IH. eexists. rewrite Hl2, Hl1, <- app_assoc.
      split; [done|]. intros l1 l2 Heq.
      destruct (snd (allowed_by_robots (client st) url)); simpl in Heq.
      * destruct l1 as [|x l1]; simpl in Heq; injection Heq as Hx Heq; [congruence|].
        by apply (Hlast l1 l2).
      * by apply (Hlast l1 l2).
    + intros [= <-]. eexists. split; [exact Hl1|]. intros l1 l2 Heq.
      destruct (snd (allowed_by_robots (client st) url)); [|by destruct l1].
      destruct l1 as [|x [|y l1]]; simpl in Heq; try done. by injection Heq as _ <-.
Qed.

(** The first iteration loads the listing it is given, when robots allow
    it. *)
Lemma crawl_pages_first fuel pages url r max (st st' : Crawl C) c1 :
  url ≠ [] → (pages < MAX_PAGINATION_PAGES)%nat →
  allowed_by_robots (client st) url = (c1, true) →
  crawl_pages (S fuel) pages url r max st = Some st' →
  ∃ rest, loads (said st') = loads (said st) ++ url :: rest.
Proof.
  intros Hu Hp Ha. simpl.
  apply nonempty_spec in Hu. apply Nat.ltb_lt in Hp. rewrite Hu, Hp. simpl.
  destruct (load_listing pages url r max st) as [st1 nxt] eqn:He1.
  destruct (load_listing_loads _ _ _ _ _ _ _ He1) as [Hl1 _].
  rewrite Ha in Hl1. simpl in Hl1. destruct nxt as [n|].
  - intros (ls & [(d & Hs & Hl & _) _ _] & _)%crawl_pages_effect.
    exists ls. by rewrite Hs, loads_app, Hl, Hl1, <- app_assoc.
  - intros [= <-]. by exists [].
Qed.

Lemma process_site_last (c : C) site max pr u :
  self_cycling u →
  ∃ cr delta,
    process_site c site max pr = Some cr
    ∧ messages (progress cr) = messages pr ++ delta
    ∧ ∀ l1 l2, loads delta = l1 ++ u :: l2 → (u ∉ l1) ∧ l2 = [].
Proof.
  intros Hself.
  destruct (process_site_effect c site max pr) as (cr & d & Hp & Hm & _).
  exists cr, d. split; [done|]. split; [done|].
  revert Hp. unfold process_site.
  set (pr' := if js_disabled c then say JsDisabled pr else pr).
  intros (ls & Hl & Hlast)%(crawl_pages_last u); [|done].
  assert (Hpr : loads (messages pr') = loads (messages pr)).
  { subst pr'. destruct (js_disabled c); [|done]. simpl. rewrite loads_app. simpl.
    by rewrite app_nil_r. }
  unfold said in Hl. simpl in Hl. rewrite Hm, loads_app, Hpr in Hl.
  apply app_inv_head in Hl. rewrite Hl.
  intros l1 l2 Heq. split; [|by eapply Hlast]. intros Hin.
  apply list_elem_of_split in Hin as (a & b & ->). rewrite <- app_assoc in Heq.
  simpl in Heq. apply Hlast in Heq. by destruct b.
Qed.

Lemma process_site_self_first (c c1 : C) site max pr :
  site ≠ [] → allowed_by_robots c site = (c1, true) → self_cycling site →
  ∃ cr delta,
    process_site c site max pr = Some cr
    ∧ messages (progress cr) = messages pr ++ delta
    ∧ loads delta = [site].
Proof.
  intros Hne Ha Hself.
  destruct (process_site_last c site max pr site Hself) as (cr & d & Hp & Hm & Hlast).
  exists cr, d. split; [done|]. split; [done|].
  revert Hp. unfold process_site.
  set (pr' := if js_disabled c then say JsDisabled pr else pr).
  change MAX_PAGINATION_PAGES with (S 19) at 1.
  intros (rest & Hl)%(crawl_pages_first 19 0 site _ _ _ _ c1); [|done|unfold MAX_PAGINATION_PAGES; lia|done].
  assert (Hpr : loads (messages pr') = loads (messages pr)).
  { subst pr'. destruct (js_disabled c); [|done]. simpl. rewrite loads_app. simpl.
    by rewrite app_nil_r. }
  unfold said in Hl. simpl in Hl. rewrite Hm, loads_app, Hpr in Hl.
  apply app_inv_head in Hl. destruct (Hlast [] rest Hl) as [_ ->]. done.
Qed.

(** A profile that has been visited is passed over: nothing is asked of
    the client and nothing is written. *)
Lemma open_profile_visited p next_url r max (st : Crawl C) :
  reached max (length (results st)) = false →
  (if nonempty (link_url p) then link_url p else next_url) ∈ visited st →
  open_profile p next_url r max st = (st, false).
Proof.
  intros Hr Hv. unfold open_profile. rewrite Hr.
  by rewrite bool_decide_eq_true_2.
Qed.
End SiteFacts.

(** ** Messages and calls of [fetch] *)

Section Logging.
Context {U : Unicode} {D : Dom} {C : Type} {Cl : Client C}.
Local Existing Instance logging_client.

Lemma announced_refl (st : Crawl (C * list str)) : announced st st.
Proof. exists []. by rewrite !app_nil_r. Qed.

Lemma announced_trans (st1 st2 st3 : Crawl (C * list str)) :
  announced st1 st2 → announced st2 st3 → announced st1 st3.
Proof.
  intros (d1 & Hs1 & Hl1) (d2 & Hs2 & Hl2). exists (d1 ++ d2).
  by rewrite fetched_app, Hs2, Hs1, Hl2, Hl1, !app_assoc.
Qed.

Lemma announced_tell m (st st' : Crawl (C * list str)) :
  fetched [m] = [] → announced st st' → announced st (tell m st').
Proof.
  intros Hm (d & Hs & Hl). exists (d ++ [m]). unfold said, log in *. simpl.
  rewrite Hs, Hl, fetched_app, Hm, app_nil_r, app_assoc. done.
Qed.

Lemma open_profile_announced p next_url r max (st st' : Crawl (C * list str)) b :
  open_profile p next_url r max st = (st', b) → announced st st'.
Proof.
  unfold open_profile.
  destruct (reached max (length (results st))).
  { intros [= <- <-]. apply announced_tell; [done|apply announced_refl]. }
  set (u := if nonempty (link_url p) then link_url p else next_url).
  case_bool_decide as Hv.
  { intros [= <- <-]. apply announced_refl. }
  simpl. destruct (allowed_by_robots (client st).1 u) as [c ok]. simpl.
  destruct ok; simpl.
  2:{ intros [= <- <-]. exists [RobotsBlockedProfile u]. unfold log. simpl.
      by rewrite app_nil_r. }
  destruct (fetch c u) as [c' ph]. simpl.
  destruct (truthy ph) as [html|].
  2:{ intros [= <- <-]. exists [OpeningProfile u; FailedProfile u]. unfold said, log. simpl.
      by rewrite <- app_assoc. }
  destruct (parse_profile html u r) as [[[[name school] research] email] phone].
  destruct (nonempty email); simpl.
  2:{ intros [= <- <-]. exists [OpeningProfile u; Skipped u]. unfold said, log. simpl.
      by rewrite <- app_assoc. }
  destruct (reached max _); intros [= <- <-].
  - exists [OpeningProfile u; ReachedMax]. unfold said, log. simpl. by rewrite <- app_assoc.
  - exists [OpeningProfile u]. unfold said, log. simpl. done.
Qed.

Lemma open_profiles_announced discovered next_url r max (st st' : Crawl (C * list str)) b :
  open_profiles discovered next_url r max st = (st', b) → announced st st'.
Proof.
  revert st. induction discovered as [|p rest IH]; intros st; simpl.
  - intros [= <- <-]. apply announced_refl.
  - destruct (open_profile p next_url r max st) as [st1 ret] eqn:He1.
    apply open_profile_announced in He1. destruct ret.
    + by intros [= <- <-].
    + intros He2%IH. by eapply announced_trans.
Qed.

Lemma load_listing_announced pages next_url r max (st st' : Crawl (C * list str)) nxt :
  load_listing pages next_url r max st = (st', nxt) → announced st st'.
Proof.
  unfold load_listing. simpl.
  destruct (allowed_by_robots (client st).1 next_url) as [c ok]. simpl.
  destruct ok; simpl.
  2:{ intros [= <- <-]. exists [BlockedByRobots next_url]. unfold log. simpl.
      by rewrite app_nil_r. }
  destruct (fetch c next_url) as [c' html]. simpl.
  match goal with |- context [with_client ?cl (tell ?m ?s)] =>
    set (st1 := with_client cl (tell m s)) end.
  assert (He1 : announced st st1).
  { exists [LoadingListing next_url]. done. }
  destruct (truthy html) as [h|].
  2:{ intros [= <- <-]. by apply announced_tell. }
  destruct (open_profiles _ _ _ _ _) as [st2 ret] eqn:He2.
  apply open_profiles_announced in He2.
  assert (He3 : announced st st2).
  { eapply announced_trans; [|exact He2]. by apply announced_tell. }
  destruct ret; [by intros [= <- <-]|].
  destruct (truthy (find_next_page h next_url)) as [n|].
  2:{ intros [= <- <-]. by apply announced_tell. }
  destruct (str_eqb n next_url); intros [= <- <-]; by apply announced_tell.
Qed.

Lemma crawl_pages_announced fuel pages next_url r max (st st' : Crawl (C * list str)) :
  crawl_pages fuel pages next_url r max st = Some st' → announced st st'.
Proof.
  revert pages next_url st. induction fuel as [|fuel IH]; intros pages next_url st; simpl.
  - destruct (negb _); [|done]. intros [= <-]. apply announced_refl.
  - destruct (negb _). { intros [= <-]. apply announced_refl. }
    destruct (load_listing pages next_url r max st) as [st1 nxt] eqn:He1.
    apply load_listing_announced in He1. destruct nxt as [n|].
    + intros He2%IH. by eapply announced_trans.
    + by intros [= <-].
Qed.

(** With the recording client, [process_site] adds to the record exactly
    the URLs its new messages announce, with at most
    [MAX_PAGINATION_PAGES] listings among them and no profile twice. *)
Lemma process_site_announced (c : C) (l : list str) site max pr :
  ∃ cr delta,
    process_site (c, l) site max pr = Some cr
    ∧ messages (progress cr) = messages pr ++ delta
    ∧ log cr = l ++ fetched delta
    ∧ (length (loads delta) ≤ MAX_PAGINATION_PAGES)%nat
    ∧ NoDup (opens delta).
Proof.
  destruct (process_site_effect (c, l) site max pr) as (cr & d & Hp & Hm & Hlen & Hn & _).
  exists cr, d. split; [done|]. split; [done|]. split; [|done].
  revert Hp. unfold process_site. intros (d' & Hs & Hl)%crawl_pages_announced.
  unfold said, log in *. simpl in *. rewrite Hl. f_equal.
  destruct (js_disabled c); simpl in Hs.
  - rewrite Hm, <- app_assoc in Hs. apply app_inv_head in Hs. by rewrite Hs.
  - rewrite Hm in Hs. apply app_inv_head in Hs. by rewrite Hs.
Qed.
End Logging.

(** ** The crawl of all sites *)

Section ScrapeFacts.
Context {U : Unicode} {D : Dom} {C T : Type} {Cl : Client C} {Tr : Translator T}.

Lemma add_rows_spec site_rows uni max te (st : Scrape C T) :
  ∃ added, rows (add_rows site_rows uni max te st) = rows st ++ added
           ∧ Forall (λ row, ∃ res, res ∈ site_rows ∧ email row = r_email res) added.
Proof.
  revert st. induction site_rows as [|r rest IH]; intros st; simpl.
  - exists []. by rewrite app_nil_r.
  - destruct (maybe_translate te (s_translator st) (r_name r)) as [t1 name].
    destruct (maybe_translate te t1 (r_research_area r)) as [t2 research]. simpl.
    match goal with |- context [rows st ++ [?x]] => set (row := x) end.
    assert (Hrow : ∃ res, res ∈ r :: rest ∧ email row = r_email res).
    { exists r. split; [left|done]. }
    destruct (reached max _).
    + simpl. exists [row]. split; [done|]. by apply Forall_singleton.
    + match goal with |- context [add_rows rest uni max te ?s] =>
        destruct (IH s) as (a & Ha & Hf) end.
      simpl in Ha. exists (row :: a). rewrite Ha, <- app_assoc. split; [done|].
      constructor; [done|]. eapply Forall_impl; [exact Hf|].
      intros x (res & Hin & He). exists res. split; [by right|done].
Qed.

(** The loop over the sites ends, and every row it adds carries an email
    that is institutional for one of the sites. *)
Lemma each_site_spec sites uni_label max te (st : Scrape C T) :
  ∃ st' added,
    each_site sites uni_label max te st = Some st'
    ∧ rows st' = rows st ++ added
    ∧ Forall (λ row, ∃ site, site ∈ sites
                ∧ institutional (registered_domain (strip site)) (email row)) added.
Proof.
  revert st. induction sites as [|site rest IH]; intros st; simpl.
  - exists st, []. by rewrite app_nil_r.
  - assert (Hskip : ∃ st' added,
      each_site rest uni_label max te st = Some st'
      ∧ rows st' = rows st ++ added
      ∧ Forall (λ row, ∃ s, s ∈ site :: rest
                  ∧ institutional (registered_domain (strip s)) (email row)) added).
    { destruct (IH st) as (st' & a & He & Hr & Hf). exists st', a. split; [done|].
      split; [done|]. eapply Forall_impl; [exact Hf|].
      intros x (s & Hin & Hi). exists s. split; [by right|done]. }
    destruct (negb (nonempty (strip site)) || _); [exact Hskip|].
    destruct (process_site_effect (s_client st) (strip site) max (s_progress st))
      as (cr & d & -> & _ & _ & _ & Hres).
    match goal with |- context [add_rows ?a ?b ?c ?d ?e] =>
      destruct (add_rows_spec a b c d e) as (a1 & Ha1 & Hf1);
      set (st1 := add_rows a b c d e) in *
    end.
    simpl in Ha1.
    assert (Hf1' : Forall (λ row, ∃ s, s ∈ site :: rest
                  ∧ institutional (registered_domain (strip s)) (email row)) a1).
    { eapply Forall_impl; [exact Hf1|]. intros x (res & Hin & ->).
      exists site. split; [left|]. rewrite Forall_forall in Hres. by apply Hres. }
    destruct (reached max _).
    + exists st1, a1. done.
    + destruct (IH st1) as (st' & a2 & He & Hr & Hf). exists st', (a1 ++ a2).
      split; [done|]. rewrite Hr, Ha1, <- app_assoc. split; [done|].
      apply Forall_app. split; [done|]. eapply Forall_impl; [exact Hf|].
      intros x (s & Hin & Hi). exists s. split; [by right|done].
Qed.

(** The loop over the sites ends; the rows it adds are those gathered site
    by site, and the email of a row gathered for a site is institutional for
    that site. *)
Lemma each_site_gathered sites uni_label max te (st : Scrape C T) :
  ∃ st',
    each_site sites uni_label max te st = Some st'
    ∧ rows st' = rows st ++ concat (gathered sites uni_label max te st).*2
    ∧ (gathered sites uni_label max te st).*1 `sublist_of` sites
    ∧ Forall (λ sr, Forall (λ row, institutional (registered_domain (strip sr.1))
                                                 (email row)) sr.2)
             (gathered sites uni_label max te st).
Proof.
  revert st. induction sites as [|site rest IH]; intros st; cbn [each_site gathered].
  - exists st. rewrite app_nil_r. repeat split; constructor.
  - destruct (negb (nonempty (strip site)) || _).
    { destruct (IH st) as (st' & He & Hr & Hs & Hf). exists st'.
      split; [done|]. split; [done|]. split; [by apply sublist_cons|done]. }
    destruct (process_site_effect (s_client st) (strip site) max (s_progress st))
      as (cr & d & -> & _ & _ & _ & Hres).
    match goal with |- context [add_rows ?a ?b ?c ?d ?e] =>
      destruct (add_rows_spec a b c d e) as (a1 & Ha1 & Hf1);
      set (st1 := add_rows a b c d e) in *
    end.
    cbn [rows] in Ha1. cbv zeta. rewrite Ha1, drop_app_length.
    assert (Hf1' : Forall (λ row, institutional (registered_domain (strip site))
                                                (email row)) a1).
    { eapply Forall_impl; [exact Hf1|]. intros x (res & Hin & ->).
      rewrite Forall_forall in Hres. by apply Hres. }
    rewrite <- Ha1. destruct (reached max (length (rows st1))).
    + exists st1. cbn [fmap list_fmap concat fst snd]. rewrite app_nil_r.
      split; [done|]. split; [done|]. split; [apply sublist_skip, sublist_nil_l|].
      by repeat constructor.
    + destruct (IH st1) as (st' & He & Hr & Hs & Hf). exists st'.
      split; [done|]. cbn [fmap list_fmap concat fst snd].
      rewrite Hr, Ha1, <- app_assoc. split; [done|].
      split; [by apply sublist_skip|]. by constructor.
Qed.
End ScrapeFacts.

(** ** De-duplication *)

Section Dedup.
Context {U : Unicode}.

Lemma dedup_sublist seen rows : dedup seen rows `sublist_of` rows.
Proof.
  revert seen. induction rows as [|p rows IH]; intros seen; simpl; [done|].
  case_bool_decide; [by apply sublist_cons|by apply sublist_skip].
Qed.

Lemma dedup_fresh seen rows row : row ∈ dedup seen rows → row_key row ∉ seen.
Proof.
  revert seen. induction rows as [|p rows IH]; intros seen; simpl.
  - by intros ?%elem_of_nil.
  - case_bool_decide as Hk; [by apply IH|].
    intros [->|Hin]%elem_of_cons; [done|]. apply IH in Hin.
    intros Hs. apply Hin. by apply elem_of_union_r.
Qed.

Lemma dedup_NoDup seen rows : NoDup (row_key <$> dedup seen rows).
Proof.
  revert seen. induction rows as [|p rows IH]; intros seen; simpl; [constructor|].
  case_bool_decide as Hk; [by apply IH|]. rewrite fmap_cons. constructor; [|by apply IH].
  intros (row & Heq & Hin%dedup_fresh)%list_elem_of_fmap.
  apply Hin. rewrite <- Heq. apply elem_of_union_l. by apply elem_of_singleton.
Qed.

(** For every key, the row kept is the first row of the input with it. *)
Lemma dedup_first seen rows k :
  k ∉ seen →
  snd <$> list_find (λ row, row_key row = k) (dedup seen rows)
  = snd <$> list_find (λ row, row_key row = k) rows.
Proof.
  revert seen. induction rows as [|p rows IH]; intros seen Hk; simpl; [done|].
  case_bool_decide as Hp.
  - rewrite IH by done. case_decide as Hpk; [congruence|].
    by destruct (list_find _ rows) as [[i x]|].
  - simpl. case_decide as Hpk; [done|].
    assert (Hk' : k ∉ {[row_key p]} ∪ seen).
    { intros [Heq%elem_of_singleton|Hin]%elem_of_union; [congruence|done]. }
    specialize (IH _ Hk').
    destruct (list_find _ (dedup _ rows)) as [[i x]|], (list_find _ rows) as [[j y]|];
      simpl in *; congruence.
Qed.

Lemma dedup_fixed seen rows :
  NoDup (row_key <$> rows) → (∀ row, row ∈ rows → row_key row ∉ seen) →
  dedup seen rows = rows.
Proof.
  revert seen. induction rows as [|p rows IH]; intros seen Hn Hs; simpl; [done|].
  rewrite fmap_cons in Hn. apply NoDup_cons in Hn as [Hp Hn].
  rewrite bool_decide_eq_false_2 by (apply Hs; left). f_equal. apply IH; [done|].
  intros row Hin. rewrite elem_of_union, elem_of_singleton. intros [Heq|Hin'].
  - apply Hp. rewrite <- Heq. by apply list_elem_of_fmap_2.
  - by apply (Hs row); [right|].
Qed.

Lemma dedup_idempotent rows : dedup ∅ (dedup ∅ rows) = dedup ∅ rows.
Proof. apply dedup_fixed; [apply dedup_NoDup|]. intros row _. apply not_elem_of_empty. Qed.
End Dedup.

(** ** Determinism *)

Section Determinism.
Context {U : Unicode} {D : Dom} {C T : Type} {Cl : Client C} {Tr : Translator T}.
Hypothesis client_det : deterministic_client C.
Hypothesis translator_det : deterministic_translator T.

Lemma open_profile_same p next_url r max (st1 st2 : Crawl C) :
  same_crawl st1 st2 →
  same_crawl (open_profile p next_url r max st1).1 (open_profile p next_url r max st2).1
  ∧ (open_profile p next_url r max st1).2 = (open_profile p next_url r max st2).2.
Proof using client_det.
  intros [Hr Hv]. unfold open_profile. rewrite Hr, Hv.
  destruct (reached max (length (results st2))); [done|].
  set (u := if nonempty (link_url p) then link_url p else next_url).
  case_bool_decide; [done|]. simpl.
  destruct (client_det (client st1) (client st2) u) as [Ha _].
  destruct (allowed_by_robots (client st1) u) as [c1 ok1],
           (allowed_by_robots (client st2) u) as [c2 ok2].
  simpl in Ha. subst ok2. simpl. destruct ok1; simpl; [|split; [split|]; simpl; congruence].
  destruct (client_det c1 c2 u) as [_ Hf].
  destruct (fetch c1 u) as [c1' ph1], (fetch c2 u) as [c2' ph2].
  simpl in Hf. subst ph2. simpl.
  destruct (truthy ph1) as [html|]; [|split; [split|]; simpl; congruence].
  destruct (parse_profile html u r) as [[[[name school] research] email] phone].
  destruct (nonempty email); simpl; [|split; [split|]; simpl; congruence].
  rewrite Hr. destruct (reached max _); split; try split; simpl; congruence.
Qed.

Lemma open_profiles_same discovered next_url r max (st1 st2 : Crawl C) :
  same_crawl st1 st2 →
  same_crawl (open_profiles discovered next_url r max st1).1
             (open_profiles discovered next_url r max st2).1
  ∧ (open_profiles discovered next_url r max st1).2
    = (open_profiles discovered next_url r max st2).2.
Proof using client_det.
  revert st1 st2. induction discovered as [|p rest IH]; intros st1 st2 Hs; simpl; [done|].
  destruct (open_profile_same p next_url r max st1 st2 Hs) as [Hs' Hb].
  destruct (open_profile p next_url r max st1) as [st1' b1],
           (open_profile p next_url r max st2) as [st2' b2].
  simpl in *. subst b2. destruct b1; [done|]. by apply IH.
Qed.

Lemma load_listing_same pages next_url r max (st1 st2 : Crawl C) :
  same_crawl st1 st2 →
  same_crawl (load_listing pages next_url r max st1).1 (load_listing pages next_url r max st2).1
  ∧ (load_listing pages next_url r max st1).2 = (load_listing pages next_url r max st2).2.
Proof using client_det.
  intros Hs. unfold load_listing.
  destruct (client_det (client st1) (client st2) next_url) as [Ha _].
  destruct (allowed_by_robots (client st1) next_url) as [c1 ok1],
           (allowed_by_robots (client st2) next_url) as [c2 ok2].
  simpl in Ha. subst ok2. simpl. destruct ok1; simpl; [|done].
  destruct (client_det c1 c2 next_url) as [_ Hf].
  destruct (fetch c1 next_url) as [c1' h1], (fetch c2 next_url) as [c2' h2].
  simpl in Hf. subst h2. simpl.
  destruct (truthy h1) as [html|]; [|done].
  match goal with
  | |- context [open_profiles ?d ?n ?r ?m ?s1] =>
    match goal with
    | |- context [open_profiles d n r m ?s2] =>
      lazymatch s1 with s2 => fail | _ => idtac end;
      destruct (open_profiles_same d n r m s1 s2 Hs) as [Hs' Hb];
      destruct (open_profiles d n r m s1) as [st1' b1],
               (open_profiles d n r m s2) as [st2' b2]
    end
  end.
  simpl in *. subst b2. destruct b1; [done|].
  destruct (truthy (find_next_page html next_url)) as [n|]; [|done].
  destruct (str_eqb n next_url); done.
Qed.

Lemma crawl_pages_same fuel pages next_url r max (st1 st2 : Crawl C) :
  same_crawl st1 st2 →
  match crawl_pages fuel pages next_url r max st1,
        crawl_pages fuel pages next_url r max st2 with
  | Some st1', Some st2' => same_crawl st1' st2'
  | None, None => True
  | _, _ => False
  end.
Proof using client_det.
  revert pages next_url st1 st2.
  induction fuel as [|fuel IH]; intros pages next_url st1 st2 Hs; simpl.
  - by destruct (negb _).
  - destruct (negb _); [done|].
    destruct (load_listing_same pages next_url r max st1 st2 Hs) as [Hs' Hn].
    destruct (load_listing pages next_url r max st1) as [st1' n1],
             (load_listing pages next_url r max st2) as [st2' n2].
    simpl in *. subst n2. destruct n1 as [n|]; [|done]. by apply IH.
Qed.

Lemma process_site_same (c1 c2 : C) site max pr1 pr2 :
  results <$> process_site c1 site max pr1 = results <$> process_site c2 site max pr2.
Proof using client_det.
  unfold process_site.
  match goal with
  | |- _ <$> crawl_pages ?f ?p ?n ?r ?m ?s1 = _ <$> crawl_pages _ _ _ _ _ ?s2 =>
    pose proof (crawl_pages_same f p n r m s1 s2 (conj eq_refl eq_refl)) as Hc;
    destruct (crawl_pages f p n r m s1), (crawl_pages f p n r m s2)
  end; simpl; try done. by destruct Hc as [-> _].
Qed.

Lemma maybe_translate_same te (t1 t2 : T) s :
  snd (maybe_translate te t1 s) = snd (maybe_translate te t2 s).
Proof using translator_det.
  unfold maybe_translate. destruct (te && needs_trans s); [|done]. apply translator_det.
Qed.

Lemma add_rows_same site_rows uni max te (st1 st2 : Scrape C T) :
  rows st1 = rows st2 →
  rows (add_rows site_rows uni max te st1) = rows (add_rows site_rows uni max te st2).
Proof using translator_det.
  revert st1 st2. induction site_rows as [|r rest IH]; intros st1 st2 Hr; simpl; [done|].
  pose proof (maybe_translate_same te (s_translator st1) (s_translator st2) (r_name r)) as Hn.
  destruct (maybe_translate te (s_translator st1) (r_name r)) as [t1 n1],
           (maybe_translate te (s_translator st2) (r_name r)) as [t2 n2].
  simpl in Hn. subst n2.
  pose proof (maybe_translate_same te t1 t2 (r_research_area r)) as Hn.
  destruct (maybe_translate te t1 (r_research_area r)) as [t1' a1],
           (maybe_translate te t2 (r_research_area r)) as [t2' a2].
  simpl in Hn. subst a2. simpl. rewrite Hr.
  destruct (reached max _); [done|]. by apply IH.
Qed.

Lemma each_site_same sites uni_label max te (st1 st2 : Scrape C T) :
  rows st1 = rows st2 →
  rows <$> each_site sites uni_label max te st1
  = rows <$> each_site sites uni_label max te st2.
Proof using client_det translator_det.
  revert st1 st2. induction sites as [|site rest IH]; intros st1 st2 Hr; simpl.
  - by rewrite Hr.
  - destruct (negb _ || _); [by apply IH|].
    pose proof (process_site_same (s_client st1) (s_client st2) (strip site) max
                  (s_progress st1) (s_progress st2)) as Hp.
    destruct (process_site (s_client st1) (strip site) max (s_progress st1)) as [cr1|],
             (process_site (s_client st2) (strip site) max (s_progress st2)) as [cr2|];
      simpl in Hp; try done.
    injection Hp as Hp. rewrite Hp.
    match goal with
    | |- context [add_rows ?a ?b ?c ?d ?s1] =>
      match goal with
      | |- context [add_rows a b c d ?s2] =>
        lazymatch s1 with s2 => fail | _ => idtac end;
        pose proof (add_rows_same a b c d s1 s2 Hr) as Ha;
        set (a1 := add_rows a b c d s1) in *; set (a2 := add_rows a b c d s2) in *
      end
    end.
    rewrite Ha. destruct (reached max _); simpl; [by rewrite Ha|]. by apply IH.
Qed.

(** With a deterministic client and translator, the list returned does
    not depend on the state the client and the translator start in, nor on
    the progress dict. *)
Lemma scrape_sites_same (c1 c2 : C) (t1 t2 : T) sites uni_label max te pr1 pr2 :
  fst <$> scrape_sites c1 t1 sites uni_label max te pr1
  = fst <$> scrape_sites c2 t2 sites uni_label max te pr2.
Proof using client_det translator_det.
  unfold scrape_sites.
  match goal with
  | |- context [each_site ?a ?b ?c ?d ?s1] =>
    match goal with
    | |- context [each_site a b c d ?s2] =>
      lazymatch s1 with s2 => fail | _ => idtac end;
      pose proof (each_site_same a b c d s1 s2 eq_refl) as He;
      destruct (each_site a b c d s1), (each_site a b c d s2)
    end
  end; simpl in *; try done. injection He as ->. done.
Qed.
End Determinism.

(** ** The pagination follower *)

Section Next.
Context {D : Dom}.

Lemma find_next_page_no_match html base :
  (∀ a, a ∈ anchors html → rel_next a = false ∧ next_text (anchor_text a) = false) →
  find_next_page html base = None.
Proof.
  unfold find_next_page. generalize (anchors html) as l. intros l Hall.
  assert (Hf : filter (λ a, rel_next a = true) l = []).
  { induction l as [|a l IH]; [done|].
    assert (Ha : rel_next a = false) by (apply Hall; left).
    rewrite filter_cons, decide_False by congruence.
    apply IH. intros b Hb. apply Hall. by right. }
  assert (Ho : omap (λ link, if next_text (anchor_text link) then truthy (href link) else None)
                 l = []).
  { clear Hf. induction l as [|a l IH]; [done|]. simpl.
    assert (Ha : next_text (anchor_text a) = false) by (apply Hall; left).
    rewrite Ha. apply IH. intros b Hb. apply Hall. by right. }
  by rewrite Hf, Ho.
Qed.

Lemma find_next_page_rel html base a h :
  head (filter (λ a, rel_next a = true) (anchors html)) = Some a →
  href a = Some h → h ≠ [] →
  find_next_page html base = Some (urljoin base h).
Proof.
  intros Ha Hh Hne. unfold find_next_page. rewrite Ha. simpl. rewrite Hh.
  destruct h; [done|]. done.
Qed.

Lemma truthy_Some x h : truthy x = Some h → x = Some h ∧ h ≠ [].
Proof. destruct x as [[|c s]|]; simpl; [done| |done]. by intros [= <-]. Qed.

(** The scan of the anchors for a text of the next-page vocabulary. *)
Lemma find_next_page_text html base pre a post h :
  anchors html = pre ++ a :: post →
  head (filter (λ a, rel_next a = true) (anchors html)) ≫= (λ a, truthy (href a)) = None →
  Forall (λ b, next_text (anchor_text b) = false ∨ truthy (href b) = None) pre →
  next_text (anchor_text a) = true → href a = Some h → h ≠ [] →
  find_next_page html base = Some (urljoin base h).
Proof.
  intros Ha Hrel Hpre Hn Hh Hne. unfold find_next_page. rewrite Hrel, Ha.
  assert (Ho : omap (λ link, if next_text (anchor_text link) then truthy (href link)
                             else None) pre = []).
  { clear Ha. induction Hpre as [|b pre Hb Hpre IH]; [done|]. simpl.
    destruct (next_text (anchor_text b)); [|exact IH].
    destruct Hb as [Hb|Hb]; [done|]. rewrite Hb. exact IH. }
  rewrite omap_app, Ho. simpl. rewrite Hn, Hh. by destruct h.
Qed.

(** What [find_next_page] returns is the resolved href of an anchor with
    the next relation or a next-page text. *)
Lemma find_next_page_sound html base u :
  find_next_page html base = Some u →
  ∃ a h, a ∈ anchors html
         ∧ (rel_next a = true ∨ next_text (anchor_text a) = true)
         ∧ href a = Some h ∧ h ≠ [] ∧ u = urljoin base h.
Proof.
  unfold find_next_page.
  assert (Hscan : match head (omap (λ link, if next_text (anchor_text link)
                                            then truthy (href link) else None)
                                   (anchors html)) with
                  | Some h => Some (urljoin base h)
                  | None => None
                  end = Some u →
          ∃ a h, a ∈ anchors html
                 ∧ (rel_next a = true ∨ next_text (anchor_text a) = true)
                 ∧ href a = Some h ∧ h ≠ [] ∧ u = urljoin base h).
  { destruct (head _) as [h|] eqn:Hh; [|done]. intros [= <-].
    apply head_Some_elem_of, list_elem_of_omap in Hh as (a & Hin & Ha).
    destruct (next_text (anchor_text a)) eqn:Hn; [|done].
    apply truthy_Some in Ha as [Ha Hne]. exists a, h. by repeat split; [|right|..]. }
  destruct (head (filter _ _)) as [a|] eqn:Hf; simpl; [|exact Hscan].
  destruct (truthy (href a)) as [h|] eqn:Ht; [|exact Hscan].
  intros [= <-]. apply head_Some_elem_of, list_elem_of_filter in Hf as [Hr Hin].
  apply truthy_Some in Ht as [Ha Hne]. exists a, h. by repeat split; [|left|..].
Qed.
End Next.

(* ===================================================================== *)
(** * The specified properties                                            *)
(* ===================================================================== *)

Section Rejected.
Context {U : Unicode} {D : Dom} {C : Type} {Cl : Client C}.

(** An iteration whose profile page, if it gets one, yields no email
    leaves the results as they are. *)
Lemma open_profile_rejected p next_url r max (st : Crawl C) :
  let u := if nonempty (link_url p) then link_url p else next_url in
  (∀ c1 c2 html,
      allowed_by_robots (client st) u = (c1, true) → fetch c1 u = (c2, Some html) →
      parse_profile html u r = ([], [], [], [], [])) →
  results (fst (open_profile p next_url r max st)) = results st.
Proof.
  intros u Hrej. unfold open_profile.
  destruct (reached max (length (results st))); [done|].
  fold u. case_bool_decide; [done|]. simpl.
  destruct (allowed_by_robots (client st) u) as [c1 ok] eqn:Ha. simpl.
  destruct ok; simpl; [|done].
  destruct (fetch c1 u) as [c2 ph] eqn:Hf. simpl.
  destruct ph as [[|h0 html]|]; simpl; [done| |done].
  by rewrite (Hrej c1 c2 (h0 :: html)).
Qed.
End Rejected.

(** C1. [scrape_sites] returns.  The list it returns is the
    de-duplication of the rows gathered site by site, the sites crawled
    being sites of the list in their order; every record gathered during the
    crawl of a site, its source site, has a non-empty email that passes
    [email_allowed] for the registrable domain of that site; so every record
    of the final list has one, for its source site.  A profile none of whose
    candidate emails passes the filter is parsed to the empty record, and an
    iteration of [process_site] that gets the empty record adds no
    result. *)
Theorem scrape_sites_emails_institutional
    {U : Unicode} {D : Dom} {C T : Type} {Cl : Client C} {Tr : Translator T} :
  (∀ (c : C) (t : T) sites uni_label max_profiles translate_en pr,
      let by_site :=
        gathered sites uni_label max_profiles translate_en
          {| rows := []; s_client := c; s_translator := t; s_progress := pr |} in
      ∃ out pr',
        scrape_sites c t sites uni_label max_profiles translate_en pr = Some (out, pr')
        ∧ out = dedup ∅ (concat by_site.*2)
        ∧ by_site.*1 `sublist_of` sites
        ∧ (∀ site rws row, (site, rws) ∈ by_site → row ∈ rws →
             email row ≠ []
             ∧ email_allowed (email row) (registered_domain (strip site)) = true)
        ∧ (∀ row, row ∈ out →
             email row ≠ []
             ∧ ∃ site rws, (site, rws) ∈ by_site ∧ row ∈ rws ∧ site ∈ sites
                 ∧ email_allowed (email row) (registered_domain (strip site)) = true))
  ∧ (∀ html url site_regdom,
      (∀ e, e ∈ extract_emails (profile_text html) → email_allowed e site_regdom = false) →
      parse_profile html url site_regdom = ([], [], [], [], []))
  ∧ (∀ p next_url site_regdom max_profiles (st : Crawl C),
      let u := if nonempty (link_url p) then link_url p else next_url in
      (∀ c1 c2 html,
          allowed_by_robots (client st) u = (c1, true) → fetch c1 u = (c2, Some html) →
          parse_profile html u site_regdom = ([], [], [], [], [])) →
      results (fst (open_profile p next_url site_regdom max_profiles st)) = results st).
Proof.
  split; [|split].
  - intros c t sites uni_label max te pr by_site. unfold scrape_sites.
    destruct (each_site_gathered sites uni_label max te
                {| rows := []; s_client := c; s_translator := t; s_progress := pr |})
      as (st & -> & Hr & Hsub & Hf).
    fold by_site in Hr, Hsub, Hf. cbn [rows app] in Hr.
    assert (Hseg : ∀ site rws row, (site, rws) ∈ by_site → row ∈ rws →
              email row ≠ []
              ∧ email_allowed (email row) (registered_domain (strip site)) = true).
    { intros site rws row Hin Hrow. rewrite Forall_forall in Hf.
      specialize (Hf _ Hin). cbn [fst snd] in Hf. rewrite Forall_forall in Hf.
      exact (Hf row Hrow). }
    eexists _, _. split; [reflexivity|]. rewrite Hr. split; [done|].
    split; [done|]. split; [exact Hseg|].
    intros row Hin. eapply elem_of_sublist in Hin; [|apply dedup_sublist].
    apply elem_of_concat in Hin as (rws & Hrow & Hrws).
    apply list_elem_of_fmap in Hrws as ([site rws'] & -> & Hin).
    destruct (Hseg site rws' row Hin Hrow) as [Hne Ha]. split; [done|].
    exists site, rws'. split; [done|]. split; [done|]. split; [|done].
    eapply elem_of_sublist; [|exact Hsub]. by apply (list_elem_of_fmap_2 fst _ (site, rws')).
  - intros html url r. apply parse_profile_rejected.
  - intros p next_url r max st. apply open_profile_rejected.
Qed.

Lemma scrape_sites_emails_institutional_witness :
  (∀ e, e ∈ @extract_emails ascii_unicode (@profile_text Demo.dom Demo.doe_page) →
        @email_allowed ascii_unicode e (py "example.edu") = false)
  ∧ @parse_profile ascii_unicode Demo.dom Demo.doe_page Demo.doe (py "example.edu")
    = ([], [], [], [], [])
  ∧ results (fst (@open_profile ascii_unicode Demo.dom unit Demo.http
                    {| link_name := py "Jane Doe"; link_url := Demo.doe |}
                    Demo.listing1 (py "example.edu") None (Demo.fresh tt)))
    = []
  ∧ map (λ sr : str * list Row, (sr.1, map email sr.2))
      (@gathered ascii_unicode Demo.dom unit unit Demo.http Demo.identity
       [py "ftp://example.edu"; py " http://example.edu/people "] [] None false
       {| rows := []; s_client := tt; s_translator := tt; s_progress := Demo.start |})
    = [(py " http://example.edu/people ", [py "john.smith@cs.example.edu"])].
Proof.
  assert (Hrej : ∀ e,
    e ∈ @extract_emails ascii_unicode (@profile_text Demo.dom Demo.doe_page) →
    @email_allowed ascii_unicode e (py "example.edu") = false).
  { intros e He. vm_compute in He.
    apply elem_of_cons in He as [->|He]; [vm_compute; reflexivity|].
    apply list_elem_of_singleton in He as ->. vm_compute; reflexivity. }
  split; [exact Hrej|]. split; [|split].
  - apply (proj1 (proj2 (@scrape_sites_emails_institutional
                           ascii_unicode Demo.dom unit unit Demo.http Demo.identity))).
    exact Hrej.
  - apply (proj2 (proj2 (@scrape_sites_emails_institutional
                           ascii_unicode Demo.dom unit unit Demo.http Demo.identity))
             {| link_name := py "Jane Doe"; link_url := Demo.doe |}
             Demo.listing1 (py "example.edu") None (Demo.fresh tt)).
    intros c1 c2 html Ha Hf. vm_compute in Hf. injection Hf as <- <-.
    vm_compute. reflexivity.
  - vm_compute. reflexivity.
Defined.

(** C2. The list returned by [scrape_sites] is the de-duplication of the
    rows gathered: no two of its records have the same
    [(name.lower(), profile_url)], it is a sub-list of the rows gathered, in
    their order, for every key it keeps the first row gathered with that key,
    and de-duplicating it again changes nothing.  With a client and a
    translator whose answers depend only on what they are asked, two runs on
    the same input return the same list, whatever state the client and the
    translator start in. *)
Theorem scrape_sites_deduplicated
    {U : Unicode} {D : Dom} {C T : Type} {Cl : Client C} {Tr : Translator T} :
  (∀ (c : C) (t : T) sites uni_label max_profiles translate_en pr,
      ∃ st out pr',
        each_site sites uni_label max_profiles translate_en
          {| rows := []; s_client := c; s_translator := t; s_progress := pr |} = Some st
        ∧ scrape_sites c t sites uni_label max_profiles translate_en pr = Some (out, pr')
        ∧ NoDup (row_key <$> out)
        ∧ out `sublist_of` rows st
        ∧ (∀ k, snd <$> list_find (λ row, row_key row = k) out
                = snd <$> list_find (λ row, row_key row = k) (rows st))
        ∧ dedup ∅ out = out)
  ∧ (deterministic_client C → deterministic_translator T →
     ∀ (c1 c2 : C) (t1 t2 : T) sites uni_label max_profiles translate_en pr1 pr2,
       fst <$> scrape_sites c1 t1 sites uni_label max_profiles translate_en pr1
       = fst <$> scrape_sites c2 t2 sites uni_label max_profiles translate_en pr2).
Proof.
  split.
  - intros c t sites uni_label max te pr. unfold scrape_sites.
    match goal with |- context [each_site ?a ?b ?c ?d ?s] =>
      destruct (each_site_spec a b c d s) as (st & added & -> & _ & _) end.
    eexists st, _, _. split; [reflexivity|]. split; [reflexivity|].
    split; [apply dedup_NoDup|]. split; [apply dedup_sublist|].
    split; [|apply dedup_idempotent].
    intros k. apply dedup_first, not_elem_of_empty.
  - intros Hc Ht. apply (scrape_sites_same Hc Ht).
Qed.

Lemma scrape_sites_deduplicated_witness :
  fst <$> @scrape_sites ascii_unicode Demo.dom (unit * list str) unit
            (@logging_client unit Demo.http) Demo.identity
            (tt, []) tt [Demo.listing1; Demo.listing2] [] None false Demo.start
  = fst <$> @scrape_sites ascii_unicode Demo.dom (unit * list str) unit
              (@logging_client unit Demo.http) Demo.identity
              (tt, [Demo.smith]) tt [Demo.listing1; Demo.listing2] [] None false Demo.start.
Proof.
  apply (proj2 (@scrape_sites_deduplicated ascii_unicode Demo.dom (unit * list str) unit
                  (@logging_client unit Demo.http) Demo.identity)).
  - intros [[] l1] [[] l2] url. split; reflexivity.
  - intros [] [] s. reflexivity.
Defined.

(** C3, as stated, fails: for the address "bob@" and a site without a
    registrable domain, the local part is not generic, the (empty) domain is
    no free-mail provider and equals the (empty) registrable domain, yet
    [email_allowed] answers false. *)
Lemma email_allowed_not_as_stated :
  split_first (ch "@") (py "bob@") = Some (py "bob", [])
  ∧ ¬ (@email_allowed ascii_unicode (py "bob@") [] = true
       ↔ @policy_as_stated ascii_unicode (py "bob") [] []).
Proof.
  split; [reflexivity|]. intros [_ Hp].
  assert (Hs : @policy_as_stated ascii_unicode (py "bob") [] []).
  { unfold policy_as_stated. split; [|split].
    - unfold generic_mailbox. rewrite <- mem_spec, <- !startswith_prefix.
      vm_compute. intuition congruence.
    - unfold free_provider. rewrite <- mem_spec. vm_compute. congruence.
    - left. by left. }
  apply Hp in Hs. vm_compute in Hs. discriminate Hs.
Qed.

(** C3, amended. For an address with local part [local] before its first
    [@] and [domain] after it, [email_allowed] answers true exactly when the
    lower-cased local part is no generic mailbox name and starts with none of
    the no-reply prefixes, the lower-cased domain is no free-mail provider,
    and either the site has a registrable domain and the lower-cased domain
    equals it or is a subdomain of it, or the lower-cased domain ends with an
    academic suffix: a dot followed by edu, ac, cn or org, or by edu or ac, a
    dot and two letters or more, in any mix of cases. *)
Theorem email_allowed_policy {U : Unicode} (email site_regdom local domain : str) :
  split_first (ch "@") email = Some (local, domain) →
  email_allowed email site_regdom = true ↔ policy local domain site_regdom.
Proof. apply email_allowed_iff_policy. Qed.

Lemma email_allowed_policy_witness :
  split_first (ch "@") (py "J.Smith@CS.Example.edu") = Some (py "J.Smith", py "CS.Example.edu")
  ∧ (@email_allowed ascii_unicode (py "J.Smith@CS.Example.edu") (py "example.edu") = true
     ↔ @policy ascii_unicode (py "J.Smith") (py "CS.Example.edu") (py "example.edu")).
Proof.
  split; [reflexivity|].
  apply (@email_allowed_policy ascii_unicode (py "J.Smith@CS.Example.edu") (py "example.edu")
           (py "J.Smith") (py "CS.Example.edu")).
  reflexivity.
Defined.

(** C4. [pick_best_email] returns the empty string when no candidate passes
    [email_allowed]; otherwise it returns the first of the candidates that
    pass with the least key: every accepted candidate before it has a
    greater key and none after it has a smaller one.  The key of one address
    is less than that of another when it is within the site's registrable
    domain and the other is not; or, these being equal, when its domain has
    an academic suffix and the other's has not; or, these being equal, when
    its name affinity is the higher; or, these being equal, when its local
    part, cut at 20 characters, is the shorter.  The name affinity is the
    number of the name's runs of ASCII letters, lower-cased, that have two
    letters or more and occur in the lower-cased local part or contain it.
    For "John Smith", ["info@example.edu", "j.smith@example.edu"] and
    "example.edu" the result is "j.smith@example.edu". *)
Theorem pick_best_email_minimal {U : Unicode} :
  (∀ name emails site_regdom,
      let best := pick_best_email name emails site_regdom in
      (accepted site_regdom emails = [] ∧ best = [])
      ∨ ∃ before after,
          accepted site_regdom emails = before ++ best :: after
          ∧ (∀ e, e ∈ before →
               rank_lt (rank_of name site_regdom best) (rank_of name site_regdom e))
          ∧ (∀ e, e ∈ after →
               ¬ rank_lt (rank_of name site_regdom e) (rank_of name site_regdom best)))
  ∧ (∀ name site_regdom l1 d1 l2 d2,
      ch "@" ∉ l1 → ch "@" ∉ l2 →
      rank_lt (rank_of name site_regdom (l1 ++ ch "@" :: d1))
              (rank_of name site_regdom (l2 ++ ch "@" :: d2)) ↔
      let same d := site_regdom ≠ [] ∧ within (lower d) site_regdom in
      let academic d := academic_suffix (lower d) in
      let affinity l := name_affinity name l in
      let len (l : str) := Nat.min (length l) 20 in
      (same d1 ∧ ¬ same d2)
      ∨ ((same d1 ↔ same d2)
         ∧ ((academic d1 ∧ ¬ academic d2)
            ∨ ((academic d1 ↔ academic d2)
               ∧ ((affinity l2 < affinity l1)%nat
                  ∨ (affinity l1 = affinity l2 ∧ (len l1 < len l2)%nat))))))
  ∧ (∀ name local,
      name_affinity name local
      = length (filter (λ t, akinb (lower local) t = true) (name_tokens name)))
  ∧ (∀ local t, akinb local t = true ↔ akin local t)
  ∧ pick_best_email (py "John Smith")
      [py "info@example.edu"; py "j.smith@example.edu"] (py "example.edu")
    = py "j.smith@example.edu".
Proof.
  split; [|split; [|split; [|split]]].
  - intros name emails r best. subst best. unfold pick_best_email.
    pose proof (pick_best_email_first_min name emails r) as Hm.
    inversion Hm as [Hacc Hst|before best after Hb Ha Hacc Hst].
    + left. done.
    + right. exists before, after. simpl. done.
  - apply rank_of_lt.
  - apply name_affinity_count.
  - apply akinb_spec.
  - rewrite pick_best_email_transfer.
    + vm_compute. reflexivity.
    + reflexivity.
    + repeat constructor.
Qed.

(** C5. [pick_best_email] returns the empty string when no candidate passes
    [email_allowed]; so it does, for every name and every site domain, when
    the domain of every candidate is "gmail.com". *)
Theorem pick_best_email_none_survives {U : Unicode} :
  (∀ name emails site_regdom,
      (∀ e, e ∈ emails → email_allowed e site_regdom = false) →
      pick_best_email name emails site_regdom = [])
  ∧ (∀ name emails site_regdom,
      (∀ e, e ∈ emails → ∃ local, split_first (ch "@") e = Some (local, py "gmail.com")) →
      pick_best_email name emails site_regdom = []).
Proof.
  split; [apply pick_best_email_rejected|].
  intros name emails r Hall. apply pick_best_email_rejected. intros e He.
  destruct (Hall e He) as [local Hs]. unfold email_allowed. rewrite Hs.
  rewrite (lower_ascii (py "gmail.com")) by reflexivity.
  destruct (email_is_generic (lower local)); [done|].
  reflexivity.
Qed.

Lemma pick_best_email_none_survives_witness :
  (∀ e, e ∈ [py "john.smith@gmail.com"] →
        ∃ local, split_first (ch "@") e = Some (local, py "gmail.com"))
  ∧ @pick_best_email ascii_unicode (py "John Smith") [py "john.smith@gmail.com"]
      (py "example.edu") = [].
Proof.
  assert (Hall : ∀ e, e ∈ [py "john.smith@gmail.com"] →
                      ∃ local, split_first (ch "@") e = Some (local, py "gmail.com")).
  { intros e ->%list_elem_of_singleton. exists (py "john.smith"). reflexivity. }
  split; [exact Hall|].
  apply (proj2 (@pick_best_email_none_survives ascii_unicode)
           (py "John Smith") [py "john.smith@gmail.com"] (py "example.edu") Hall).
Defined.

(** C6, as stated, fails: the rewrite takes "a(remove)t" to "at", and "at"
    to "@". *)
Lemma deobfuscate_not_idempotent :
  deobfuscate (py "a(remove)t") = py "at"
  ∧ deobfuscate (deobfuscate (py "a(remove)t")) = py "@"
  ∧ deobfuscate (deobfuscate (py "a(remove)t")) ≠ deobfuscate (py "a(remove)t").
Proof. split; [|split]; vm_compute; [reflexivity|reflexivity|discriminate]. Qed.

(** C6, amended. The rewrite of [normalize_email] applied to its own output
    gives that output again whenever the output holds no obfuscation token:
    none of "at", "dot", "(remove)", "(no" in any mix of cases and none of
    [#], U+FF20, U+70B9, U+FF08, U+FF09. *)
Theorem deobfuscate_idempotent_when_plain (s : str) :
  plain (deobfuscate s) = true → deobfuscate (deobfuscate s) = deobfuscate s.
Proof. apply deobfuscate_plain. Qed.

Lemma deobfuscate_idempotent_when_plain_witness :
  plain (deobfuscate (py "john.smith [at] cs.example.edu")) = true
  ∧ deobfuscate (deobfuscate (py "john.smith [at] cs.example.edu"))
    = deobfuscate (py "john.smith [at] cs.example.edu").
Proof.
  split; [vm_compute; reflexivity|].
  apply (deobfuscate_idempotent_when_plain (py "john.smith [at] cs.example.edu")).
  vm_compute; reflexivity.
Defined.

(** C7. For the text "john.smith [at] cs.example.edu", [extract_emails]
    returns the list whose one element is "john.smith@cs.example.edu". *)
Theorem extract_emails_example {U : Unicode} :
  extract_emails (py "john.smith [at] cs.example.edu") = [py "john.smith@cs.example.edu"]
  ∧ py "john.smith@cs.example.edu" ∈ extract_emails (py "john.smith [at] cs.example.edu").
Proof.
  assert (He : extract_emails (py "john.smith [at] cs.example.edu")
               = [py "john.smith@cs.example.edu"]) by (vm_compute; reflexivity).
  split; [exact He|]. rewrite He. left.
Qed.

(** C8. [process_site] returns, having loaded at most [MAX_PAGINATION_PAGES]
    listing pages; with the recording client these loads are calls of
    [fetch].  A listing whose next link resolves to its own URL is loaded
    once at most in a call of [process_site], and no listing is loaded after
    it; when it is the site [process_site] is given, and robots allow it, it
    is loaded exactly once and is the only listing loaded.  In the loop,
    an iteration on such a listing loads it and ends the loop. *)
Theorem process_site_pagination_terminates
    {U : Unicode} {D : Dom} {C : Type} {Cl : Client C} :
  (∀ (c : C) site max_profiles pr,
      ∃ cr delta,
        process_site c site max_profiles pr = Some cr
        ∧ messages (progress cr) = messages pr ++ delta
        ∧ (length (loads delta) ≤ MAX_PAGINATION_PAGES)%nat)
  ∧ (∀ (c : C) (l : list str) site max_profiles pr,
      ∃ cr delta,
        @process_site U D (C * list str) logging_client (c, l) site max_profiles pr = Some cr
        ∧ messages (progress cr) = messages pr ++ delta
        ∧ log cr = l ++ fetched delta
        ∧ (length (loads delta) ≤ MAX_PAGINATION_PAGES)%nat)
  ∧ (∀ (c : C) site max_profiles pr url,
      self_cycling url →
      ∃ cr delta,
        process_site c site max_profiles pr = Some cr
        ∧ messages (progress cr) = messages pr ++ delta
        ∧ ∀ l1 l2, loads delta = l1 ++ url :: l2 → (url ∉ l1) ∧ l2 = [])
  ∧ (∀ (c c1 : C) site max_profiles pr,
      site ≠ [] → allowed_by_robots c site = (c1, true) → self_cycling site →
      ∃ cr delta,
        process_site c site max_profiles pr = Some cr
        ∧ messages (progress cr) = messages pr ++ delta
        ∧ loads delta = [site])
  ∧ (∀ fuel pages url site_regdom max_profiles (st : Crawl C) c1 c2 html,
      url ≠ [] → (pages < MAX_PAGINATION_PAGES)%nat →
      allowed_by_robots (client st) url = (c1, true) →
      fetch c1 url = (c2, Some html) → html ≠ [] →
      find_next_page html url = Some url →
      ∃ st', crawl_pages (S fuel) pages url site_regdom max_profiles st = Some st'
             ∧ loads (said st') = loads (said st) ++ [url]).
Proof.
  split; [|split; [|split; [|split]]].
  - intros c site max pr.
    destruct (process_site_effect c site max pr) as (cr & d & Hp & Hm & Hl & _).
    by exists cr, d.
  - intros c l site max pr.
    destruct (process_site_announced c l site max pr) as (cr & d & Hp & Hm & Hlog & Hl & _).
    by exists cr, d.
  - intros c site max pr url. apply process_site_last.
  - intros c c1 site max pr. apply process_site_self_first.
  - intros fuel pages url r max st c1 c2 html. apply crawl_pages_self_cycle.
Qed.

Lemma process_site_pagination_terminates_witness :
  Demo.listing2 ≠ []
  ∧ @allowed_by_robots unit Demo.http tt Demo.listing2 = (tt, true)
  ∧ @self_cycling ascii_unicode Demo.dom unit Demo.http Demo.listing2
  ∧ ∃ cr delta,
      @process_site ascii_unicode Demo.dom unit Demo.http tt Demo.listing2 None Demo.start
        = Some cr
      ∧ messages (progress cr) = messages Demo.start ++ delta
      ∧ loads delta = [Demo.listing2].
Proof.
  assert (Hself : @self_cycling ascii_unicode Demo.dom unit Demo.http Demo.listing2).
  { intros c c1 c2 html _ Hf _. vm_compute in Hf. injection Hf as _ <-.
    vm_compute. reflexivity. }
  split; [discriminate|]. split; [reflexivity|]. split; [exact Hself|].
  apply (proj1 (proj2 (proj2 (proj2 (@process_site_pagination_terminates
                                       ascii_unicode Demo.dom unit Demo.http))))
           tt tt Demo.listing2 None Demo.start).
  - discriminate.
  - reflexivity.
  - exact Hself.
Defined.

(** C9, as stated, fails: on the second listing of the small site the anchor
    with the next relation resolves to the URL of the page itself, and
    [find_next_page] returns that URL, not none. *)
Lemma find_next_page_returns_current_page :
  head (filter (λ a, rel_next a = true) (@anchors Demo.dom Demo.page2))
  = Some {| rel_next := true; href := Some Demo.listing2; anchor_text := py "Next" |}
  ∧ @urljoin Demo.dom Demo.listing2 Demo.listing2 = Demo.listing2
  ∧ @find_next_page Demo.dom Demo.page2 Demo.listing2 = Some Demo.listing2
  ∧ @find_next_page Demo.dom Demo.page2 Demo.listing2 ≠ None.
Proof.
  split; [vm_compute; reflexivity|]. split; [reflexivity|].
  split; [vm_compute; reflexivity|]. vm_compute. discriminate.
Qed.

(** C9, amended. [find_next_page] returns none when no anchor has the next
    relation and no anchor's text is in the next-page vocabulary.  The
    anchor it matches is the first with the next relation, when that has a
    non-empty href, and otherwise the first with a text of the vocabulary
    and a non-empty href; it returns the URL the href of the matched anchor
    resolves to, also when that is the current page, and it returns nothing
    else.  The cycle guard is in [process_site], whose loop is left when
    [find_next_page] returns the URL of the listing it was given. *)
Theorem find_next_page_guard_in_caller
    {U : Unicode} {D : Dom} {C : Type} {Cl : Client C} :
  (∀ html base,
      (∀ a, a ∈ anchors html → rel_next a = false ∧ next_text (anchor_text a) = false) →
      find_next_page html base = None)
  ∧ (∀ html base a h,
      head (filter (λ a, rel_next a = true) (anchors html)) = Some a →
      href a = Some h → h ≠ [] →
      find_next_page html base = Some (urljoin base h)
      ∧ (urljoin base h = base → find_next_page html base = Some base))
  ∧ (∀ html base pre a post h,
      anchors html = pre ++ a :: post →
      head (filter (λ a, rel_next a = true) (anchors html)) ≫= (λ a, truthy (href a))
        = None →
      Forall (λ b, next_text (anchor_text b) = false ∨ truthy (href b) = None) pre →
      next_text (anchor_text a) = true → href a = Some h → h ≠ [] →
      find_next_page html base = Some (urljoin base h)
      ∧ (urljoin base h = base → find_next_page html base = Some base))
  ∧ (∀ html base u,
      find_next_page html base = Some u →
      ∃ a h, a ∈ anchors html
             ∧ (rel_next a = true ∨ next_text (anchor_text a) = true)
             ∧ href a = Some h ∧ h ≠ [] ∧ u = urljoin base h)
  ∧ (∀ pages url site_regdom max_profiles (st : Crawl C) c1 c2 html,
      allowed_by_robots (client st) url = (c1, true) →
      fetch c1 url = (c2, Some html) → html ≠ [] →
      find_next_page html url = Some url →
      ∃ st', load_listing pages url site_regdom max_profiles st = (st', None)).
Proof.
  split; [|split; [|split; [|split]]].
  - apply find_next_page_no_match.
  - intros html base a h Ha Hh Hne.
    pose proof (find_next_page_rel html base a h Ha Hh Hne) as Hf.
    split; [done|]. intros Heq. by rewrite Hf, Heq.
  - intros html base pre a post h Ha Hrel Hpre Hn Hh Hne.
    pose proof (find_next_page_text html base pre a post h Ha Hrel Hpre Hn Hh Hne) as Hf.
    split; [done|]. intros Heq. by rewrite Hf, Heq.
  - apply find_next_page_sound.
  - intros pages url r max st c1 c2 html Ha Hf Hh Hn.
    destruct (load_listing_self_cycle pages url r max st c1 c2 html Ha Hf Hh Hn)
      as (st' & He & _).
    by exists st'.
Qed.

Lemma find_next_page_guard_in_caller_witness :
  @find_next_page Demo.dom Demo.smith_page Demo.smith = None
  ∧ @find_next_page Demo.dom Demo.page1 Demo.listing1
    = Some (@urljoin Demo.dom Demo.listing1 Demo.listing2)
  ∧ @find_next_page Loop.dom Loop.page Loop.url = Some Loop.url
  ∧ ∃ st', @load_listing ascii_unicode Demo.dom unit Demo.http 1 Demo.listing2
             (py "example.edu") None (Demo.fresh tt) = (st', None).
Proof.
  pose proof (@find_next_page_guard_in_caller ascii_unicode Demo.dom unit Demo.http)
    as (Hnone & Hrel & _ & _ & Hguard).
  pose proof (@find_next_page_guard_in_caller ascii_unicode Loop.dom unit Loop.http)
    as (_ & _ & Htext & _ & _).
  split; [|split; [|split]].
  - apply Hnone. intros a Ha. vm_compute in Ha. by apply elem_of_nil in Ha.
  - assert (H1 : head (filter (λ a, rel_next a = true) (@anchors Demo.dom Demo.page1))
                 = Some {| rel_next := true; href := Some Demo.listing2;
                           anchor_text := py "Next" |}) by (vm_compute; reflexivity).
    assert (H2 : Demo.listing2 ≠ []) by discriminate.
    exact (proj1 (Hrel Demo.page1 Demo.listing1
                    {| rel_next := true; href := Some Demo.listing2;
                       anchor_text := py "Next" |}
                    Demo.listing2 H1 eq_refl H2)).
  - assert (H1 : Forall (λ b, next_text (anchor_text b) = false ∨ truthy (href b) = None)
                   [ {| rel_next := false; href := Some Loop.url;
                        anchor_text := py "Jane Roe" |} ]).
    { constructor; [left; vm_compute; reflexivity|constructor]. }
    assert (H2 : next_text (py "Next") = true) by (vm_compute; reflexivity).
    assert (H3 : Loop.url ≠ []) by discriminate.
    assert (H4 : @anchors Loop.dom Loop.page
                 = [ {| rel_next := false; href := Some Loop.url;
                        anchor_text := py "Jane Roe" |} ]
                   ++ {| rel_next := false; href := Some Loop.url;
                         anchor_text := py "Next" |} :: []) by reflexivity.
    assert (H5 : head (filter (λ a, rel_next a = true) (@anchors Loop.dom Loop.page))
                 ≫= (λ a, truthy (href a)) = None) by (vm_compute; reflexivity).
    assert (H6 : @urljoin Loop.dom Loop.url Loop.url = Loop.url) by reflexivity.
    exact (proj2 (Htext Loop.page Loop.url _ _ _ Loop.url H4 H5 H1 H2 eq_refl H3) H6).
  - apply (Hguard 1%nat Demo.listing2 (py "example.edu") None (Demo.fresh tt) tt tt Demo.page2).
    + reflexivity.
    + vm_compute. reflexivity.
    + discriminate.
    + vm_compute. reflexivity.
Defined.

(** C10, as stated, fails: the visited set holds the URLs opened as
    profiles, not those loaded as listings.  The listing of the page that
    links to itself is fetched, the link of its card is the URL of the
    listing, which has not been visited, and the same URL is fetched a
    second time, as a profile, in the same call. *)
Lemma process_site_fetches_a_profile_url_twice :
  ∃ cr,
    @process_site ascii_unicode Loop.dom (unit * list str)
      (@logging_client unit Loop.http) (tt, []) Loop.url None Demo.start = Some cr
    ∧ opens (messages (progress cr)) = [Loop.url]
    ∧ log cr = [Loop.url; Loop.url]
    ∧ ¬ NoDup (log cr).
Proof.
  eexists. split; [vm_compute; reflexivity|]. split; [vm_compute; reflexivity|].
  split; [vm_compute; reflexivity|].
  intros Hn. cbn [log client snd] in Hn. apply NoDup_cons in Hn as [Hn _].
  apply Hn. left.
Qed.

(** C10, amended. In one call of [process_site] no URL is opened as a
    profile twice: the profile openings among the messages it writes are
    pairwise distinct, over all listing pages of the site, and an iteration
    on a profile URL that has been visited asks nothing of the client and
    changes nothing.  With the recording client, the URLs passed to [fetch]
    are exactly those the messages announce, the listings loaded and the
    profiles opened: a URL is fetched once at most as a profile, and once
    more for every time it is loaded as a listing.  On the small site, whose
    two listings link to the same two profiles, the calls of [fetch] are the
    first listing, the two profiles and the second listing. *)
Theorem process_site_opens_each_profile_once
    {U : Unicode} {D : Dom} {C : Type} {Cl : Client C} :
  (∀ (c : C) site max_profiles pr,
      ∃ cr delta,
        process_site c site max_profiles pr = Some cr
        ∧ messages (progress cr) = messages pr ++ delta
        ∧ NoDup (opens delta))
  ∧ (∀ (c : C) (l : list str) site max_profiles pr,
      ∃ cr delta,
        @process_site U D (C * list str) logging_client (c, l) site max_profiles pr = Some cr
        ∧ messages (progress cr) = messages pr ++ delta
        ∧ log cr = l ++ fetched delta
        ∧ fetched delta ≡ₚ loads delta ++ opens delta
        ∧ (length (loads delta) ≤ MAX_PAGINATION_PAGES)%nat
        ∧ NoDup (opens delta))
  ∧ (∀ p next_url site_regdom max_profiles (st : Crawl C),
      reached max_profiles (length (results st)) = false →
      (if nonempty (link_url p) then link_url p else next_url) ∈ visited st →
      open_profile p next_url site_regdom max_profiles st = (st, false))
  ∧ log <$> @process_site ascii_unicode Demo.dom (unit * list str)
              (@logging_client unit Demo.http) (tt, []) Demo.listing1 None Demo.start
    = Some [Demo.listing1; Demo.smith; Demo.doe; Demo.listing2].
Proof.
  split; [|split; [|split]].
  - intros c site max pr.
    destruct (process_site_effect c site max pr) as (cr & d & Hp & Hm & _ & Hn & _).
    by exists cr, d.
  - intros c l site max pr.
    destruct (process_site_announced c l site max pr) as (cr & d & Hp & Hm & Hlog & Hl & Hn).
    exists cr, d. split; [done|]. split; [done|]. split; [done|].
    split; [apply fetched_perm|done].
  - intros p next_url r max st. apply open_profile_visited.
  - vm_compute. reflexivity.
Qed.

(* ===================================================================== *)
(** * Further properties: lemmas                                           *)
(* ===================================================================== *)

(** ** Greedy repetition *)

(** A repetition without upper bound takes the whole run before it tries
    its continuation. *)
Lemma rep_greedy {A} p lo w rest (k : str → option A) x :
  Forall (λ c, p c = true) w → (lo ≤ length w)%nat →
  (∀ c, head rest = Some c → p c = false) →
  k rest = Some x → rep p lo None (w ++ rest) k = Some x.
Proof.
  intros Hw. revert lo. induction Hw as [|c w Hc Hw IH]; intros lo Hlo Hrest Hk.
  - simpl in Hlo. assert (lo = O) as -> by lia. simpl.
    destruct rest as [|d rest]; [done|]. simpl. by rewrite (Hrest d eq_refl).
  - simpl. rewrite Hc. simpl. rewrite IH; [done|simpl in Hlo; lia|done|done].
Qed.

Lemma rep_first_fails {A} p lo hi c s (k : str → option A) :
  p c = false → (0 < lo)%nat → rep p lo hi (c :: s) k = None.
Proof. intros Hc Hlo. simpl. rewrite Hc. simpl. by destruct lo; [lia|]. Qed.

(** ** Scanning *)

Lemma scan_skip r n s : (length s ≤ n)%nat → scan r n s = [].
Proof.
  revert n. induction s as [|c s IH]; intros n Hn; [done|].
  simpl in *. destruct n; [lia|]. apply IH. lia.
Qed.

Lemma scan_skip_app r m s : scan r (length m) (m ++ s) = scan r 0 s.
Proof.
  induction m as [|c m IH]; simpl; [|done].
  destruct s; done.
Qed.

(** A match at the start of the text. *)
Lemma scan_match r m rest :
  m ≠ [] → match_here r (m ++ rest) = Some (m, rest) →
  scan r 0 (m ++ rest) = inr m :: scan r 0 rest.
Proof.
  intros Hm Hh. destruct m as [|c m]; [done|].
  change ((c :: m) ++ rest) with (c :: (m ++ rest)) in *.
  cbn [scan]. rewrite Hh. by rewrite scan_skip_app.
Qed.

(** A character at which no match begins. *)
Lemma scan_pass r c s :
  (∀ m rest, match_here r (c :: s) = Some (m, rest) → m = []) →
  scan r 0 (c :: s) = inl c :: scan r 0 s.
Proof.
  intros Hno. cbn [scan].
  destruct (match_here r (c :: s)) as [[[|c' m] rest]|] eqn:Hm; try done.
  by specialize (Hno _ _ eq_refl).
Qed.

Lemma sub_match r repl m rest :
  m ≠ [] → match_here r (m ++ rest) = Some (m, rest) →
  sub r repl (m ++ rest) = repl ++ sub r repl rest.
Proof. intros Hm Hh. unfold sub. by rewrite scan_match. Qed.

Lemma sub_pass r repl c s :
  (∀ m rest, match_here r (c :: s) = Some (m, rest) → m = []) →
  sub r repl (c :: s) = c :: sub r repl s.
Proof. intros Hno. unfold sub. by rewrite scan_pass. Qed.

Lemma findall_match r m rest :
  m ≠ [] → match_here r (m ++ rest) = Some (m, rest) →
  findall r (m ++ rest) = m :: findall r rest.
Proof. intros Hm Hh. unfold findall. by rewrite scan_match. Qed.

Lemma findall_pass r c s :
  (∀ m rest, match_here r (c :: s) = Some (m, rest) → m = []) →
  findall r (c :: s) = findall r s.
Proof. intros Hno. unfold findall. by rewrite scan_pass. Qed.

(** Every text found by a scan is a match of the pattern. *)
Lemma scan_matches r k s m : inr m ∈ scan r k s → ∃ rest, matches r m rest.
Proof.
  revert k. induction s as [|c s IH]; intros k; simpl.
  - by intros ?%elem_of_nil.
  - destruct k as [|k]; [|by apply IH].
    destruct (match_here r (c :: s)) as [[[|c' m'] rest]|] eqn:Hm.
    + intros [?|?]%elem_of_cons; [done|]. by eapply IH.
    + intros [[= ->]|?]%elem_of_cons; [|by eapply IH].
      apply match_here_sound in Hm as [Heq Hm]. injection Heq as <- _. by exists rest.
    + intros [?|?]%elem_of_cons; [done|]. by eapply IH.
Qed.

Lemma findall_matches r s m : m ∈ findall r s → ∃ rest, matches r m rest.
Proof.
  unfold findall. rewrite list_elem_of_omap. intros ([c|m'] & Hin & Heq); [done|].
  injection Heq as ->. by eapply scan_matches.
Qed.

Lemma findall_nonempty r s m : m ∈ findall r s → m ≠ [].
Proof.
  unfold findall. rewrite list_elem_of_omap. intros ([c|m'] & Hin & Heq); [done|].
  injection Heq as ->. revert Hin. generalize 0%nat as k.
  induction s as [|c s IH]; intros k; simpl.
  - by intros ?%elem_of_nil.
  - destruct k as [|k]; [|by apply IH].
    destruct (match_here r (c :: s)) as [[[|c' m'] rest]|] eqn:Hm.
    + intros [?|?]%elem_of_cons; [done|]. by eapply IH.
    + intros [[= ->]|?]%elem_of_cons; [done|]. by eapply IH.
    + intros [?|?]%elem_of_cons; [done|]. by eapply IH.
Qed.

Lemma search_with_sound {A} (f : str → option A) s x :
  search_with f s = Some x → ∃ pre t, s = pre ++ t ∧ f t = Some x.
Proof.
  induction s as [|c s IH]; simpl.
  - destruct (f []) eqn:Hf; [|done]. intros [= ->]. by exists [], [].
  - destruct (f (c :: s)) eqn:Hf.
    + intros [= ->]. by exists [], (c :: s).
    + intros (pre & t & -> & Ht)%IH. by exists (c :: pre), t.
Qed.

Lemma search_sound r s m :
  search r s = Some m → ∃ pre rest, s = pre ++ m ++ rest ∧ matches r m rest.
Proof.
  unfold search. intros (pre & t & -> & Ht)%search_with_sound.
  destruct (match_here r t) as [[m' rest]|] eqn:Hm; [|done].
  injection Ht as ->. apply match_here_sound in Hm as [-> Hm]. by exists pre, rest.
Qed.

Lemma fullmatch_sound r s : fullmatch r s = true → matches r s [].
Proof.
  unfold fullmatch.
  destruct (rmatch r s _) as [[]|] eqn:Hm; [|done]. intros _.
  apply rmatch_sound in Hm as (w & rest & -> & Hw & Hk).
  destruct rest; [|done]. by rewrite app_nil_r.
Qed.

Lemma fullmatch_complete r s : matches r s [] → fullmatch r s = true.
Proof.
  intros Hm. unfold fullmatch.
  destruct (rmatch_complete r s [] Hm
              (fun rest => match rest with [] => Some tt | _ => None end)) as [y Hy];
    [by eexists|].
  rewrite app_nil_r in Hy. by rewrite Hy.
Qed.

(** ** Well-formed addresses *)

Lemma basic_matches e rest : matches BASIC_EMAIL_RE e rest ↔ well_formed e.
Proof.
  unfold BASIC_EMAIL_RE, well_formed, Plus. cbn [cat foldr]. split.
  - intros Hm. invert_matches. rewrite app_nil_r.
    eexists _, _, _. split; [reflexivity|].
    repeat split; try done; try (intros ->; simpl in *; lia).
    match goal with H : ∀ h, Some _ = Some h → _ |- _ => by apply H end.
  - intros (l & d & t & -> & Hl & Hlc & Hd & Hdc & Htc & Ht1 & Ht2).
    apply m_cat; [constructor; [done| |done]|].
    { destruct l; [done|simpl; lia]. }
    apply (m_cat _ _ (py "@")); [by constructor|].
    apply m_cat; [constructor; [done| |done]|].
    { destruct d; [done|simpl; lia]. }
    apply (m_cat _ _ (py ".")); [by constructor|].
    rewrite <- (app_nil_r t).
    apply (m_cat _ _ t []); [|constructor].
    constructor; [done|done|]. by intros h [= <-].
Qed.

(** An address of this shape has one [@]: it splits into its local part
    and the rest. *)
Lemma well_formed_split e :
  well_formed e →
  ∃ local domain, split_first (ch "@") e = Some (local, domain) ∧ local ≠ [] ∧ domain ≠ [].
Proof.
  intros (l & d & t & -> & Hl & Hlc & Hd & Hdc & Htc & Ht).
  exists l, (d ++ py "." ++ t). split; [|split; [done|by destruct d]].
  apply (split_first_fresh (ch "@") l (d ++ py "." ++ t)).
  intros Hin. rewrite Forall_forall in Hlc. specialize (Hlc _ Hin). by vm_compute in Hlc.
Qed.

Section Emails.
Context {U : Unicode}.

Lemma normalize_email_well_formed text e : normalize_email text = Some e → well_formed e.
Proof.
  unfold normalize_email. destruct text as [|c text]; [done|].
  set (s := deobfuscate (c :: text)).
  destruct (search BASIC_EMAIL_RE s) as [m|] eqn:Hs.
  { intros [= <-]. apply search_sound in Hs as (pre & rest & _ & Hm).
    by apply basic_matches in Hm. }
  destruct (search_with _ s) as [[g1 g2]|].
  - destruct (fullmatch BASIC_EMAIL_RE (g1 ++ py "@" ++ g2)) eqn:Hf.
    { intros [= <-]. apply fullmatch_sound in Hf. by apply basic_matches in Hf. }
    destruct (search_with _ s) as [[h1 h2]|]; [|done].
    match goal with |- context [fullmatch BASIC_EMAIL_RE ?c] =>
      destruct (fullmatch BASIC_EMAIL_RE c) eqn:Hf' end; [|done].
    intros [= <-]. apply fullmatch_sound in Hf'. by apply basic_matches in Hf'.
  - destruct (search_with _ s) as [[h1 h2]|]; [|done].
    match goal with |- context [fullmatch BASIC_EMAIL_RE ?c] =>
      destruct (fullmatch BASIC_EMAIL_RE c) eqn:Hf' end; [|done].
    intros [= <-]. apply fullmatch_sound in Hf'. by apply basic_matches in Hf'.
Qed.

Lemma normalized_well_formed texts e : e ∈ normalized texts → well_formed e.
Proof.
  unfold normalized. rewrite list_elem_of_omap. intros (t & _ & Ht).
  destruct (normalize_email t) as [[|c e']|] eqn:Hn; try done.
  injection Ht as <-. by apply normalize_email_well_formed in Hn.
Qed.

Lemma uniq_elem seen l e : e ∈ uniq seen l ↔ e ∈ l ∧ e ∉ seen.
Proof.
  revert seen. induction l as [|x l IH]; intros seen; simpl.
  - split; [by intros ?%elem_of_nil|by intros [?%elem_of_nil _]].
  - case_bool_decide as Hx.
    + rewrite IH, elem_of_cons. split; [tauto|]. intros [[->|?] ?]; done.
    + rewrite !elem_of_cons, IH, not_elem_of_union, elem_of_singleton. split.
      * intros [->|(? & ? & ?)]; tauto.
      * intros [[->|?] ?]; [tauto|]. destruct (decide (e = x)) as [->|]; tauto.
Qed.

Lemma uniq_NoDup seen l : NoDup (uniq seen l).
Proof.
  revert seen. induction l as [|x l IH]; intros seen; simpl; [constructor|].
  case_bool_decide; [done|]. constructor; [|done].
  rewrite uniq_elem, not_elem_of_union, elem_of_singleton. tauto.
Qed.

Lemma uniq_sublist seen l : uniq seen l `sublist_of` l.
Proof.
  revert seen. induction l as [|x l IH]; intros seen; simpl; [done|].
  case_bool_decide; [by apply sublist_cons|by apply sublist_skip].
Qed.

Lemma extract_emails_spec text :
  NoDup (extract_emails text) ∧ ∀ e, e ∈ extract_emails text → well_formed e.
Proof.
  unfold extract_emails. destruct text as [|c text].
  { split; [constructor|]. by intros e ?%elem_of_nil. }
  split; [apply uniq_NoDup|]. intros e [He _]%uniq_elem.
  apply elem_of_app in He as [[He|He]%elem_of_app|He].
  - apply findall_matches in He as [rest Hm]. by apply basic_matches in Hm.
  - by apply normalized_well_formed in He.
  - by apply normalized_well_formed in He.
Qed.
End Emails.

(** ** Stripping *)

Lemma lstrip_spec s :
  ∃ w, s = w ++ lstrip s ∧ Forall (λ c, is_space c = true) w
       ∧ (∀ c, head (lstrip s) = Some c → is_space c = false).
Proof.
  induction s as [|c s (w & Hs & Hw & Hh)]; simpl.
  - exists []. by repeat split.
  - destruct (is_space c) eqn:Hc.
    + exists (c :: w). simpl. rewrite <- Hs. by repeat split; [constructor|].
    + exists []. repeat split; [constructor|]. by intros ? [= <-].
Qed.

Lemma lstrip_id s : (∀ c, head s = Some c → is_space c = false) → lstrip s = s.
Proof. destruct s as [|c s]; [done|]. intros Hc. simpl. by rewrite (Hc c eq_refl). Qed.

Lemma head_reverse (s : str) : head (reverse s) = last s.
Proof.
  induction s as [|c s IH] using rev_ind; [done|].
  by rewrite reverse_app, last_snoc.
Qed.

Lemma last_reverse (s : str) : last (reverse s) = head s.
Proof. by rewrite <- head_reverse, reverse_involutive. Qed.

Lemma strip_spec s :
  ∃ w1 w2, s = w1 ++ strip s ++ w2
    ∧ Forall (λ c, is_space c = true) w1 ∧ Forall (λ c, is_space c = true) w2
    ∧ (∀ c, head (strip s) = Some c → is_space c = false)
    ∧ (∀ c, last (strip s) = Some c → is_space c = false).
Proof.
  unfold strip.
  destruct (lstrip_spec s) as (w1 & Hs & Hw1 & Hh1).
  destruct (lstrip_spec (reverse (lstrip s))) as (w2 & Hr & Hw2 & Hh2).
  set (t := lstrip (reverse (lstrip s))) in *.
  assert (Hl : lstrip s = reverse t ++ reverse w2).
  { by rewrite <- reverse_app, <- Hr, reverse_involutive. }
  exists w1, (reverse w2). split; [by rewrite <- Hl|].
  split; [done|]. split; [by apply Forall_reverse|].
  split; [|by rewrite last_reverse].
  intros c Hc. destruct (reverse t) as [|c' t'] eqn:Ht; [done|].
  injection Hc as ->. apply Hh1. by rewrite Hl.
Qed.

Lemma strip_id s :
  (∀ c, head s = Some c → is_space c = false) →
  (∀ c, last s = Some c → is_space c = false) → strip s = s.
Proof.
  intros Hh Hl. unfold strip. rewrite (lstrip_id s Hh).
  rewrite lstrip_id; [by rewrite reverse_involutive|]. by rewrite head_reverse.
Qed.

(** ** Trailing punctuation *)

Lemma trailing_space c : is_space c = true → trailing c = true.
Proof. unfold trailing. intros ->. by rewrite !orb_true_r. Qed.

Lemma TRAIL_CLEAN_eq : TRAIL_CLEAN = Cat (Plus trailing) Eol.
Proof. reflexivity. Qed.

(** A match of [TRAIL_CLEAN] is a run of its characters that ends the
    text. *)
Lemma trail_matches w rest :
  matches TRAIL_CLEAN w rest →
  w ≠ [] ∧ Forall (λ c, trailing c = true) (w ++ rest) ∧ at_end rest = true.
Proof.
  rewrite TRAIL_CLEAN_eq. unfold Plus. intros Hm. invert_matches. rewrite app_nil_r.
  split; [intros ->; simpl in *; lia|]. split; [|done].
  apply Forall_app. split; [done|].
  match goal with
  | H : at_end ?r = true |- _ =>
      destruct r as [|c [|c' r']]; simpl in H;
      [constructor|apply N.eqb_eq in H as ->; by repeat constructor|done]
  end.
Qed.

(** A run of these characters at the end of the text is matched whole. *)
Lemma trail_match_here b :
  b ≠ [] → Forall (λ c, trailing c = true) b → match_here TRAIL_CLEAN b = Some (b, []).
Proof.
  intros Hb Hall. unfold match_here.
  assert (Hm : rmatch TRAIL_CLEAN b Some = Some []).
  { rewrite TRAIL_CLEAN_eq. cbn [rmatch]. unfold Plus.
    pose proof (rep_greedy trailing 1 b [] (fun s' => rmatch Eol s' Some) []) as Hg.
    rewrite app_nil_r in Hg. apply Hg; [done| |done|done].
    destruct b; [done|simpl; lia]. }
  rewrite Hm. simpl. by rewrite Nat.sub_0_r, firstn_all.
Qed.

(** [TRAIL_CLEAN.sub("", a + b)] when [b] is the run that ends the text. *)
Lemma sub_trail a b :
  (∀ c, last a = Some c → trailing c = false) →
  Forall (λ c, trailing c = true) b →
  sub TRAIL_CLEAN [] (a ++ b) = a.
Proof.
  intros Ha Hb. induction a as [|c a IH].
  - simpl. destruct b as [|d b]; [done|].
    rewrite <- (app_nil_r (d :: b)).
    rewrite sub_match; [done|done|]. rewrite app_nil_r. by apply trail_match_here.
  - change ((c :: a) ++ b) with (c :: (a ++ b)).
    rewrite sub_pass.
    + f_equal. apply IH. intros d Hd. apply Ha. destruct a; [done|exact Hd].
    + intros m rest [Heq Hm]%match_here_sound.
      apply trail_matches in Hm as (_ & Hall & _). rewrite <- Heq in Hall.
      change (c :: a ++ b) with ((c :: a) ++ b) in Hall.
      apply Forall_app in Hall as [Hall _].
      destruct (last (c :: a)) as [d|] eqn:Hl.
      * pose proof (Ha d eq_refl) as Hd. apply last_Some in Hl as [a' Hl].
        rewrite Hl, Forall_app, Forall_singleton in Hall. destruct Hall as [_ Hall].
        congruence.
      * by apply last_None in Hl.
Qed.

(** Every text is a text that does not end with a character of the class,
    followed by a run of them. *)
Lemma trailing_run (s : str) :
  ∃ a b, s = a ++ b ∧ (∀ c, last a = Some c → trailing c = false)
         ∧ Forall (λ c, trailing c = true) b.
Proof.
  induction s as [|c s (a & b & -> & Ha & Hb)] using rev_ind.
  - exists [], []. by repeat split.
  - destruct (trailing c) eqn:Hc.
    + destruct b as [|d b].
      * rewrite app_nil_r. exists a, [c]. repeat split; [done|by repeat constructor].
      * exists a, ((d :: b) ++ [c]). rewrite app_assoc. repeat split; [done|].
        apply Forall_app. by split; [|repeat constructor].
    + exists ((a ++ b) ++ [c]), []. rewrite app_nil_r. repeat split; [|constructor].
      intros x. rewrite last_snoc. by intros [= <-].
Qed.

Lemma strip_trailing_punct_cut s :
  ∃ w1 w2, s = w1 ++ strip_trailing_punct s ++ w2
    ∧ Forall (λ c, is_space c = true) w1 ∧ Forall (λ c, trailing c = true) w2
    ∧ trimmed (strip_trailing_punct s).
Proof.
  unfold strip_trailing_punct. destruct s as [|c0 s0].
  { exists [], []. repeat split; try constructor; done. }
  set (s := c0 :: s0).
  destruct (strip_spec s) as (w1 & w2 & Hs & Hw1 & Hw2 & Hh & Hl).
  destruct (trailing_run (strip s)) as (a & b & Hx & Ha & Hb).
  rewrite Hx, (sub_trail a b Ha Hb).
  exists w1, (b ++ w2). split; [by rewrite Hs at 1; rewrite Hx, <- !app_assoc|].
  split; [done|]. split.
  { apply Forall_app. split; [done|]. eapply Forall_impl; [exact Hw2|].
    intros c. apply trailing_space. }
  split; [|done]. intros c Hc. apply Hh. rewrite Hx. by destruct a.
Qed.

Lemma strip_trailing_punct_is_trimmed s : trimmed (strip_trailing_punct s).
Proof. by destruct (strip_trailing_punct_cut s) as (w1 & w2 & _ & _ & _ & Ht). Qed.

Lemma strip_trailing_punct_trimmed s : trimmed s → strip_trailing_punct s = s.
Proof.
  intros [Hh Hl]. unfold strip_trailing_punct. destruct s as [|c0 s0]; [done|].
  set (s := c0 :: s0) in *.
  assert (Hsp : ∀ c, last s = Some c → is_space c = false).
  { intros c Hc. specialize (Hl c Hc). destruct (is_space c) eqn:Hs; [|done].
    apply trailing_space in Hs. congruence. }
  rewrite (strip_id s Hh Hsp). rewrite <- (app_nil_r s) at 1.
  by apply sub_trail.
Qed.

(** ** Whitespace runs *)

Lemma single_spaced_nil : single_spaced [].
Proof. intros [|? ?] c rest Heq; discriminate Heq. Qed.

Lemma single_spaced_cons c s :
  (is_space c = false ∨ (c = 32 ∧ ∀ d, head s = Some d → is_space d = false)) →
  single_spaced s → single_spaced (c :: s).
Proof.
  intros Hc Hs [|c' pre] x rest Heq Hx.
  - injection Heq as <- <-. destruct Hc as [Hc|Hc]; [congruence|done].
  - injection Heq as <- ->. by apply (Hs pre x rest).
Qed.

Lemma single_spaced_infix p a q : single_spaced (p ++ a ++ q) → single_spaced a.
Proof.
  intros Hs pre c rest -> Hc.
  destruct (Hs (p ++ pre) c (rest ++ q)) as [H32 Hd]; [by rewrite <- !app_assoc|done|].
  split; [done|]. intros d Hd'. apply Hd. by destruct rest.
Qed.

Lemma sp1_match_here w rest :
  w ≠ [] → Forall (λ c, is_space c = true) w →
  (∀ c, head rest = Some c → is_space c = false) →
  match_here sp1 (w ++ rest) = Some (w, rest).
Proof.
  intros Hw Hall Hrest. unfold match_here, sp1, Plus. cbn [rmatch].
  rewrite (rep_greedy is_space 1 w rest Some rest); [|done| |done|done].
  - rewrite length_app. replace (length w + length rest - length rest)%nat
      with (length w) by lia. by rewrite take_app_length.
  - destruct w; [done|simpl; lia].
Qed.

Lemma sp1_no_match c s m rest :
  is_space c = false → match_here sp1 (c :: s) = Some (m, rest) → m = [].
Proof.
  intros Hc. unfold match_here, sp1, Plus. cbn [rmatch].
  rewrite (rep_first_fails is_space 1 None c s Some Hc); [done|lia].
Qed.

(** [re.sub(r"\s+", " ", t)] leaves single spaces only, and keeps a first
    character that is no whitespace. *)
Lemma collapse_spec t :
  single_spaced (sub sp1 (py " ") t)
  ∧ (∀ c, head t = Some c → is_space c = false → head (sub sp1 (py " ") t) = Some c)
  ∧ (t = [] → sub sp1 (py " ") t = []).
Proof.
  remember (length t) as n eqn:Hn. revert t Hn.
  induction n as [n IH] using lt_wf_ind. intros t Hn.
  destruct t as [|c t]; [by split; [apply single_spaced_nil|]|].
  destruct (is_space c) eqn:Hc.
  - destruct (lstrip_spec (c :: t)) as (w & Hs & Hw & Hh).
    set (rest := lstrip (c :: t)) in *. clearbody rest.
    assert (Hw0 : w ≠ []).
    { intros ->. cbn [app] in Hs. subst rest. specialize (Hh c eq_refl). congruence. }
    assert (Hlen : (length rest < n)%nat).
    { subst n. rewrite Hs, length_app. destruct w; [done|simpl; lia]. }
    rewrite Hs. rewrite (sub_match sp1 _ w _ Hw0 (sp1_match_here _ _ Hw0 Hw Hh)).
    destruct (IH (length rest) Hlen rest eq_refl) as (H1 & H2 & H3).
    split; [|split].
    + apply single_spaced_cons; [|done]. right. split; [done|].
      intros d Hd. destruct rest as [|e r].
      * by rewrite H3 in Hd.
      * pose proof (Hh e eq_refl) as He. rewrite (H2 e eq_refl He) in Hd. congruence.
    + intros c' Hc' Hsp. destruct w as [|x w]; [done|]. injection Hc' as ->.
      apply Forall_cons in Hw as [Hx _]. congruence.
    + intros [? _]%app_eq_nil. done.
  - rewrite (sub_pass sp1 _ c t (λ m rest, sp1_no_match c t m rest Hc)).
    destruct (IH (length t)) with (t := t) as (H1 & H2 & H3); [subst n; simpl; lia|done|].
    split; [|split; [|done]].
    + apply single_spaced_cons; [by left|done].
    + by intros c' [= <-] _.
Qed.

(** ** Runs of a character class *)

Lemma span (p : N → bool) (s : str) :
  ∃ w rest, s = w ++ rest ∧ Forall (λ c, p c = true) w
            ∧ (∀ c, head rest = Some c → p c = false).
Proof.
  induction s as [|c s (w & rest & -> & Hw & Hr)].
  - exists [], []. by repeat split.
  - destruct (p c) eqn:Hc.
    + exists (c :: w), rest. by repeat split; [constructor|].
    + exists [], (c :: w ++ rest). repeat split; [constructor|]. by intros ? [= <-].
Qed.

Lemma plus_match_here p w rest :
  w ≠ [] → Forall (λ c, p c = true) w →
  (∀ c, head rest = Some c → p c = false) →
  match_here (Plus p) (w ++ rest) = Some (w, rest).
Proof.
  intros Hw Hall Hrest. unfold match_here, Plus. cbn [rmatch].
  rewrite (rep_greedy p 1 w rest Some rest); [|done| |done|done].
  - rewrite length_app. replace (length w + length rest - length rest)%nat
      with (length w) by lia. by rewrite take_app_length.
  - destruct w; [done|simpl; lia].
Qed.

Lemma plus_no_match p c s m rest :
  p c = false → match_here (Plus p) (c :: s) = Some (m, rest) → m = [].
Proof.
  intros Hc. unfold match_here, Plus. cbn [rmatch].
  rewrite (rep_first_fails p 1 None c s Some Hc); [done|lia].
Qed.

(** The runs found by [findall], put together, are the characters of the
    class. *)
Lemma findall_plus_concat p s : concat (findall (Plus p) s) = filter (λ c, p c = true) s.
Proof.
  remember (length s) as n eqn:Hn. revert s Hn.
  induction n as [n IH] using lt_wf_ind. intros s Hn.
  destruct s as [|c s]; [done|].
  destruct (p c) eqn:Hc.
  - destruct (span p (c :: s)) as (w & rest & Hs & Hw & Hr).
    assert (Hw0 : w ≠ []).
    { intros ->. cbn [app] in Hs. subst rest. specialize (Hr c eq_refl). congruence. }
    rewrite Hs, (findall_match _ w rest Hw0 (plus_match_here p w rest Hw0 Hw Hr)).
    assert (Hlen : (length rest < n)%nat).
    { subst n. rewrite Hs, length_app. destruct w; [done|simpl; lia]. }
    simpl. rewrite (IH (length rest) Hlen rest eq_refl).
    rewrite filter_app. f_equal. clear -Hw.
    induction Hw as [|x w Hx Hw IHw]; [done|].
    rewrite filter_cons. by destruct (decide (p x = true)); [f_equal|].
  - rewrite (findall_pass _ c s (λ m rest, plus_no_match p c s m rest Hc)).
    rewrite filter_cons. destruct (decide (p c = true)); [congruence|].
    apply (IH (length s)); [subst n; simpl; lia|done].
Qed.

Lemma findall_plus_none p s : Forall (λ c, p c = false) s → findall (Plus p) s = [].
Proof.
  induction 1 as [|c s Hc Hs IH]; [done|].
  by rewrite (findall_pass _ c s (λ m rest, plus_no_match p c s m rest Hc)).
Qed.

(** ** Searching for words and characters *)

Lemma found_alt r1 r2 s : found (Alt r1 r2) s = found r1 s || found r2 s.
Proof.
  apply eq_true_iff_eq. rewrite orb_true_iff, !found_iff. split.
  - intros (pre & w & rest & -> & Hm). inversion Hm; subst; [left|right]; by eexists _, _, _.
  - intros [(pre & w & rest & -> & Hm)|(pre & w & rest & -> & Hm)];
      exists pre, w, rest; (split; [done|]); [by apply m_alt_l|by apply m_alt_r].
Qed.

Lemma found_alts r rs s :
  found (alt r rs) s = true ↔ ∃ r', r' ∈ r :: rs ∧ found r' s = true.
Proof.
  revert r. induction rs as [|r2 rs IH]; intros r; simpl.
  - split; [intros Hf; exists r; split; [left|done]|].
    by intros (r' & ->%list_elem_of_singleton & Hf).
  - rewrite found_alt, orb_true_iff, IH. split.
    + intros [Hf|(r' & Hin & Hf)]; [exists r; split; [left|done]|].
      exists r'. split; [by right|done].
    + intros (r' & [->|Hin]%elem_of_cons & Hf); [by left|]. right. by exists r'.
Qed.

Lemma found_chr p s : found (Chr p) s = true ↔ Exists (λ c, p c = true) s.
Proof.
  rewrite found_iff, Exists_exists. split.
  - intros (pre & w & rest & -> & Hm). inversion Hm; subst. eexists. split; [|done].
    apply elem_of_app. right. by left.
  - intros (c & (pre & rest & ->)%list_elem_of_split & Hc).
    exists pre, [c], rest. split; [done|]. by constructor.
Qed.

Lemma startswith_ci_spec s p :
  startswith_ci s p = true ↔
  ∃ x rest, s = x ++ rest ∧ Forall2 (λ l c, lit_ci l c = true) p x.
Proof.
  revert s. induction p as [|l p IH]; intros s; simpl.
  - rewrite startswith_ci_nil. split; [|done]. intros _. exists [], s.
    split; [done|]. by apply Forall2_nil.
  - destruct s as [|c s]; simpl.
    + split; [done|]. intros (x & rest & Heq & Hx). inversion Hx; subst. done.
    + rewrite andb_true_iff, IH. split.
      * intros (Hl & x & rest & -> & Hx). exists (c :: x), rest. split; [done|by constructor].
      * intros (x & rest & Heq & Hx). inversion Hx as [|? c' ? x' Hl Hx']; subst.
        injection Heq as -> ->. split; [done|]. by exists x', rest.
Qed.

Lemma contains_ci_spec s p :
  contains_ci s p = true ↔
  ∃ pre x rest, s = pre ++ x ++ rest ∧ Forall2 (λ l c, lit_ci l c = true) p x.
Proof.
  induction s as [|c s IH].
  - cbn [contains_ci]. rewrite orb_false_r, startswith_ci_spec. split.
    + intros (x & rest & Heq & Hx). by exists [], x, rest.
    + intros (pre & x & rest & Heq & Hx). symmetry in Heq.
      apply app_eq_nil in Heq as [-> [-> ->]%app_eq_nil]. by exists [], [].
  - cbn [contains_ci]. rewrite orb_true_iff, startswith_ci_spec, IH. split.
    + intros [(x & rest & Heq & Hx)|(pre & x & rest & -> & Hx)].
      * by exists [], x, rest.
      * by exists (c :: pre), x, rest.
    + intros ([|c' pre] & x & rest & Heq & Hx).
      * left. by exists x, rest.
      * injection Heq as -> ->. right. by exists pre, x, rest.
Qed.

(** A search for a word under [re.I] is a search for it in any mix of
    cases. *)
Lemma found_word w s : found (word true w) s = contains_ci s (py w).
Proof.
  apply eq_true_iff_eq. rewrite found_iff, contains_ci_spec. split.
  - intros (pre & x & rest & -> & Hm%word_spelled). by exists pre, x, rest.
  - intros (pre & x & rest & -> & Hx). exists pre, x, rest. split; [done|].
    by apply word_spelled.
Qed.

Lemma found_lit c s : found (Lit c) s = true ↔ c ∈ s.
Proof.
  unfold Lit. rewrite found_chr, Exists_exists. split.
  - by intros (d & Hin & ->%N.eqb_eq).
  - intros Hin. exists c. by rewrite N.eqb_refl.
Qed.

Lemma found_words w ws s :
  found (alt (word true w) (map (word true) ws)) s = true
  ↔ ∃ w', w' ∈ w :: ws ∧ contains_ci s (py w') = true.
Proof.
  rewrite found_alts. split.
  - intros (r & Hin & Hf).
    change (word true w :: map (word true) ws) with (map (word true) (w :: ws)) in Hin.
    apply list_elem_of_fmap in Hin as (w' & -> & Hin). exists w'. by rewrite <- found_word.
  - intros (w' & Hin & Hc). exists (word true w'). split; [|by rewrite found_word].
    change (word true w :: map (word true) ws) with (map (word true) (w :: ws)).
    by apply list_elem_of_fmap_2.
Qed.

(** ** Backtracking *)

Lemma rep_none {A} p lo hi s (k : str → option A) :
  (∀ a b, s = a ++ b → k b = None) → rep p lo hi s k = None.
Proof.
  revert lo hi. induction s as [|c s IH]; intros lo hi Hk.
  - simpl. destruct lo; [|done]. by apply (Hk [] []).
  - assert (Hstop : match lo with O => k (c :: s) | S _ => None end = None).
    { destruct lo; [|done]. by apply (Hk []). }
    simpl. rewrite IH; [by destruct (p c && more hi)|].
    intros a b ->. by apply (Hk (c :: a) b).
Qed.

(** A repetition gives back the characters after which its continuation
    fails. *)
Lemma rep_backtrack {A} p lo w1 w2 (k : str → option A) x :
  Forall (λ c, p c = true) w1 → (lo ≤ length w1)%nat →
  k w2 = Some x → (∀ a b, w2 = a ++ b → a ≠ [] → k b = None) →
  rep p lo None (w1 ++ w2) k = Some x.
Proof.
  intros Hw. revert lo. induction Hw as [|c w1 Hc Hw IH]; intros lo Hlo Hk Hno.
  - simpl in Hlo. assert (lo = O) as -> by lia. simpl.
    destruct w2 as [|c w2]; [done|]. simpl.
    rewrite rep_none; [by destruct (p c && true)|].
    intros a b ->. by apply (Hno (c :: a) b).
  - simpl. rewrite Hc. simpl. rewrite IH; [done|simpl in Hlo; lia|done|done].
Qed.

Lemma rep_greedy_bounded {A} p lo h w (k : str → option A) x :
  Forall (λ c, p c = true) w → (lo ≤ length w ≤ h)%nat →
  k [] = Some x → rep p lo (Some h) w k = Some x.
Proof.
  intros Hw. revert lo h. induction Hw as [|c w Hc Hw IH]; intros lo h Hlo Hk.
  - simpl in Hlo. assert (lo = O) as -> by lia. done.
  - simpl in *. rewrite Hc. destruct h as [|h]; [lia|]. simpl.
    rewrite (IH (Nat.pred lo) h); [done|lia|done].
Qed.

(** ** A well-formed address on its own *)

Lemma basic_match_here e : well_formed e → match_here BASIC_EMAIL_RE e = Some (e, []).
Proof.
  intros (l & d & t & -> & Hl & Hlc & Hd & Hdc & Htc & Ht).
  unfold match_here.
  assert (Hm : rmatch BASIC_EMAIL_RE (l ++ py "@" ++ d ++ py "." ++ t) Some = Some []).
  { unfold BASIC_EMAIL_RE, Plus, Lit. cbn [cat foldr rmatch].
    apply rep_greedy; [done|destruct l; [done|simpl; lia]|by intros c [= <-]|].
    change (py "@" ++ d ++ py "." ++ t) with (ch "@" :: (d ++ py "." ++ t)).
    cbv beta iota. rewrite N.eqb_refl.
    apply rep_backtrack; [done|destruct d; [done|simpl; lia]| |].
    - change (py "." ++ t) with (ch "." :: t). cbv beta iota. rewrite N.eqb_refl.
      by apply rep_greedy_bounded.
    - intros a b Heq Ha. destruct a as [|c a]; [done|]. injection Heq as _ ->.
      destruct b as [|c' b]; [done|].
      apply Forall_app in Htc as [_ Hb]. apply Forall_cons in Hb as [Hc' _].
      destruct (N.eqb_spec (ch ".") c') as [<-|]; [by vm_compute in Hc'|done]. }
  rewrite Hm. simpl. by rewrite Nat.sub_0_r, firstn_all.
Qed.

Lemma search_basic e : well_formed e → search BASIC_EMAIL_RE e = Some e.
Proof.
  intros He. unfold search.
  destruct e as [|c e]; cbn [search_with]; by rewrite (basic_match_here _ He).
Qed.

Lemma findall_basic e : well_formed e → findall BASIC_EMAIL_RE e = [e].
Proof.
  intros He. assert (Hne : e ≠ []).
  { destruct He as (l & d & t & -> & Hl & _). by destruct l. }
  rewrite <- (app_nil_r e) at 1. rewrite findall_match; [done|done|].
  rewrite app_nil_r. by apply basic_match_here.
Qed.

(** Text without a character of the class is one piece. *)
Lemma scan_plus_none p s : Forall (λ c, p c = false) s → scan (Plus p) 0 s = inl <$> s.
Proof.
  induction 1 as [|c s Hc Hs IH]; [done|].
  rewrite (scan_pass _ c s (λ m rest, plus_no_match p c s m rest Hc)). by rewrite IH.
Qed.

Lemma pieces_inl keep (s cur : str) : pieces keep (inl <$> s) cur = [cur ++ s].
Proof.
  revert cur. induction s as [|c s IH]; intros cur; simpl; [by rewrite app_nil_r|].
  by rewrite IH, <- app_assoc.
Qed.

Lemma well_formed_chars e c :
  well_formed e → c ∈ e → local_ci c = true ∨ c = ch "@" ∨ domain_ci c = true.
Proof.
  intros (l & d & t & -> & _ & Hlc & _ & Hdc & Htc & _).
  rewrite !elem_of_app. rewrite Forall_forall in Hlc, Hdc, Htc.
  intros [?|[Hc|[?|[Hc|?]]]]; [by left; apply Hlc| |by right; right; apply Hdc| |].
  - apply list_elem_of_singleton in Hc as ->. by right; left.
  - apply list_elem_of_singleton in Hc as ->. by right; right.
  - right. right. unfold domain_ci. by rewrite (Htc c).
Qed.

Lemma one_of_existsb cs c : one_of cs c = existsb (N.eqb c) (py cs).
Proof.
  unfold one_of. generalize (py cs) as l. intros l.
  induction l as [|x l IH]; [done|]. simpl. rewrite <- IH.
  destruct (N.eqb_spec c x) as [->|Hne].
  - by rewrite bool_decide_eq_true_2 by left.
  - simpl. apply bool_decide_ext. rewrite elem_of_cons. tauto.
Qed.

(** Turning tests on a character into arithmetic. *)
Ltac char_arith :=
  repeat match goal with
         | |- _ = false => apply not_true_is_false; intro
         end;
  unfold local_ci, domain_ci, is_alpha_ci, is_alpha, is_upper, is_lower, is_digit,
    ci_extra, is_space, trailing, is_cjk, in_range in *;
  rewrite ?one_of_existsb in *;
  repeat match goal with
         | H : context [py ?s] |- _ =>
             let l := eval vm_compute in (py s) in change (py s) with l in H
         | H : context [ch ?a] |- _ =>
             let n := eval vm_compute in (ch a) in change (ch a) with n in H
         | |- context [ch ?a] =>
             let n := eval vm_compute in (ch a) in change (ch a) with n
         end;
  cbn [existsb] in *;
  rewrite ?orb_true_iff, ?andb_true_iff, ?orb_false_iff, ?andb_false_iff,
    ?N.eqb_eq, ?N.eqb_neq, ?N.leb_le, ?N.leb_gt in *;
  repeat match goal with
         | H : _ ∨ _ |- _ => destruct H
         | H : _ ∧ _ |- _ => destruct H
         end;
  try discriminate; try lia.

Lemma address_char_no_separator c :
  local_ci c = true ∨ c = ch "@" ∨ domain_ci c = true →
  (is_space c || one_of ",;|/<>" c) = false.
Proof. intros H. char_arith. Qed.

Lemma address_char_no_space c :
  local_ci c = true ∨ c = ch "@" ∨ domain_ci c = true → is_space c = false.
Proof. intros H. char_arith. Qed.

Section Alone.
Context {U : Unicode}.

Lemma well_formed_nonempty e : well_formed e → e ≠ [].
Proof. intros (l & d & t & -> & Hl & _). by destruct l. Qed.

Lemma normalize_email_plain e :
  plain e = true → well_formed e → normalize_email e = Some e.
Proof.
  intros Hp He. pose proof (well_formed_nonempty e He) as Hne.
  unfold normalize_email. destruct e as [|c e]; [done|].
  by rewrite (deobfuscate_plain _ Hp), (search_basic _ He).
Qed.

Lemma uniq_twice (e : str) : uniq ∅ [e; e] = [e].
Proof.
  cbn [uniq]. rewrite bool_decide_eq_false_2 by apply not_elem_of_empty.
  rewrite bool_decide_eq_true_2; [done|]. by apply elem_of_union_l, elem_of_singleton.
Qed.

Lemma extract_emails_alone e :
  plain e = true → well_formed e → extract_emails e = [e].
Proof.
  intros Hp He. pose proof (well_formed_nonempty e He) as Hne.
  pose proof (normalize_email_plain e Hp He) as Hn.
  unfold extract_emails. destruct e as [|c e]; [done|].
  set (a := c :: e) in *.
  rewrite (findall_basic a He).
  unfold split, split_keep, sp1.
  rewrite !scan_plus_none, !pieces_inl.
  - cbn [app length Nat.sub seq map]. unfold normalized. cbn [omap list_omap app].
    rewrite Hn. subst a. apply uniq_twice.
  - apply Forall_forall. intros x Hx. by apply address_char_no_space, (well_formed_chars a).
  - apply Forall_forall. intros x Hx.
    by apply address_char_no_separator, (well_formed_chars a).
Qed.
End Alone.

(** ** What a result holds *)

Section Parsed.
Context {U : Unicode} {D : Dom}.

Lemma parse_profile_fields html url r name school research email phone :
  parse_profile html url r = (name, school, research, email, phone) → email ≠ [] →
  name = strip_trailing_punct (extract_name html)
  ∧ looks_like_human_name name = true
  ∧ school = strip_trailing_punct (extract_school html)
  ∧ research = strip_trailing_punct (extract_research_area html)
  ∧ email = pick_best_email name (extract_emails (profile_text html)) r
  ∧ phone = default [] (head (extract_phones (profile_text html))).
Proof.
  unfold parse_profile.
  destruct (looks_like_human_name _) eqn:Hn; simpl; [|by intros [= <- <- <- <- <-]].
  match goal with |- context [pick_best_email ?n ?es r] => set (e := pick_best_email n es r) end.
  destruct (nonempty e) eqn:Hne; simpl; intros [= <- <- <- <- <-]; done.
Qed.

Lemma parsed_fields r res :
  parsed r res →
  looks_like_human_name (r_name res) = true
  ∧ trimmed (r_name res) ∧ trimmed (r_school res) ∧ trimmed (r_research_area res)
  ∧ well_formed (r_email res) ∧ email_allowed (r_email res) r = true.
Proof.
  intros (Hne & html & Hp).
  apply parse_profile_fields in Hp as (Hn & Hh & Hs & Hr & He & _); [|done].
  split; [done|].
  split; [rewrite Hn; apply strip_trailing_punct_is_trimmed|].
  split; [rewrite Hs; apply strip_trailing_punct_is_trimmed|].
  split; [rewrite Hr; apply strip_trailing_punct_is_trimmed|].
  rewrite He in Hne |- *. split; [|by apply pick_best_email_allowed].
  apply pick_best_email_accepted in Hne. unfold accepted in Hne.
  apply list_elem_of_filter in Hne as [_ Hin]. by apply extract_emails_spec in Hin.
Qed.
End Parsed.

(** ** Steps of the crawl *)

Section Steps.
Context {U : Unicode} {D : Dom} {C : Type} {Cl : Client C}.
Variables (r : str) (max : option Z).
Variable R : Crawl C → Crawl C → Prop.
Hypothesis R_refl : ∀ st, R st st.
Hypothesis R_trans : ∀ st1 st2 st3, R st1 st2 → R st2 st3 → R st1 st3.
Hypothesis R_tell : ∀ m st, R st (tell m st).
Hypothesis R_client : ∀ c st, R st (with_client c st).
Hypothesis R_open : ∀ p next_url st st' b,
  open_profile p next_url r max st = (st', b) → R st st'.

Lemma open_profiles_steps discovered next_url (st st' : Crawl C) b :
  open_profiles discovered next_url r max st = (st', b) → R st st'.
Proof using R_refl R_trans R_open.
  revert st. induction discovered as [|p rest IH]; intros st; simpl.
  - by intros [= <- <-].
  - destruct (open_profile p next_url r max st) as [st1 ret] eqn:He1.
    apply R_open in He1. destruct ret.
    + by intros [= <- <-].
    + intros He2%IH. by eapply R_trans.
Qed.

Lemma load_listing_steps pages next_url (st st' : Crawl C) nxt :
  load_listing pages next_url r max st = (st', nxt) → R st st'.
Proof using R_refl R_trans R_tell R_client R_open.
  unfold load_listing.
  destruct (allowed_by_robots (client st) next_url) as [c ok]. simpl.
  assert (H1 : R st (with_client c st)) by apply R_client.
  destruct ok; simpl.
  2:{ intros [= <- <-]. eapply R_trans; [exact H1|apply R_tell]. }
  destruct (fetch c next_url) as [c' html]. simpl.
  set (st1 := with_client c' (tell (LoadingListing next_url) (with_client c st))).
  assert (H2 : R st st1).
  { eapply R_trans; [exact H1|]. eapply R_trans; [apply R_tell|apply R_client]. }
  destruct (truthy html) as [h|].
  2:{ intros [= <- <-]. eapply R_trans; [exact H2|apply R_tell]. }
  destruct (open_profiles _ _ _ _ _) as [st2 ret] eqn:He2.
  apply open_profiles_steps in He2.
  assert (H3 : R st st2).
  { eapply R_trans; [exact H2|]. eapply R_trans; [apply R_tell|exact He2]. }
  destruct ret; [by intros [= <- <-]|].
  destruct (truthy (find_next_page h next_url)) as [n|].
  2:{ intros [= <- <-]. eapply R_trans; [exact H3|apply R_tell]. }
  destruct (str_eqb n next_url); intros [= <- <-];
    (eapply R_trans; [exact H3|apply R_tell]).
Qed.

Lemma crawl_pages_steps fuel pages next_url (st st' : Crawl C) :
  crawl_pages fuel pages next_url r max st = Some st' → R st st'.
Proof using R_refl R_trans R_tell R_client R_open.
  revert pages next_url st. induction fuel as [|fuel IH]; intros pages next_url st; simpl.
  - destruct (nonempty next_url && (pages <? MAX_PAGINATION_PAGES)%nat); simpl; [done|].
    by intros [= <-].
  - destruct (nonempty next_url && (pages <? MAX_PAGINATION_PAGES)%nat); simpl.
    2:{ by intros [= <-]. }
    destruct (load_listing pages next_url r max st) as [st1 nxt] eqn:He1.
    apply load_listing_steps in He1. destruct nxt as [n|].
    + intros He2%IH. by eapply R_trans.
    + by intros [= <-].
Qed.
End Steps.

Section KeptFacts.
Context {U : Unicode} {D : Dom} {C : Type} {Cl : Client C}.
Variables (r : str) (max : option Z).

(** A step that keeps no result and leaves the counter alone. *)
Lemma kept_quiet (st st' : Crawl C) delta :
  said st' = said st ++ delta → results st' = results st →
  visited_count (progress st') = visited_count (progress st) →
  kept r max st st'.
Proof.
  intros Hs Hr Hv. exists delta, []. rewrite app_nil_r, Hr, Hv. simpl.
  repeat split; [done|apply sublist_nil_l|constructor|lia|lia].
Qed.

Lemma kept_refl (st : Crawl C) : kept r max st st.
Proof. apply (kept_quiet st st []); [by rewrite app_nil_r|done|done]. Qed.

Lemma kept_trans (st1 st2 st3 : Crawl C) :
  kept r max st1 st2 → kept r max st2 st3 → kept r max st1 st3.
Proof.
  intros (d1 & a1 & Hs1 & Hr1 & Hu1 & Hp1 & Hv1 & Hc1)
         (d2 & a2 & Hs2 & Hr2 & Hu2 & Hp2 & Hv2 & Hc2).
  exists (d1 ++ d2), (a1 ++ a2).
  rewrite Hs2, Hs1, Hr2, Hr1, <- !app_assoc, fmap_app, opens_app, Hv2, Hv1, length_app.
  repeat split; [by apply sublist_app|by apply Forall_app|lia|].
  intros m Hm. specialize (Hc1 m Hm). specialize (Hc2 m Hm).
  rewrite Hr2, Hr1, <- app_assoc in Hc2. rewrite Hr1 in Hc1. lia.
Qed.

Lemma kept_tell m (st : Crawl C) : kept r max st (tell m st).
Proof. by apply (kept_quiet st (tell m st) [m]). Qed.

Lemma kept_client c (st : Crawl C) : kept r max st (with_client c st).
Proof. apply (kept_quiet st (with_client c st) []); [by rewrite app_nil_r|done|done]. Qed.

Lemma looks_like_human_name_nonempty name :
  looks_like_human_name name = true → nonempty name = true.
Proof. by destruct name. Qed.

Lemma open_profile_kept p next_url (st st' : Crawl C) b :
  open_profile p next_url r max st = (st', b) → kept r max st st'.
Proof.
  unfold open_profile.
  destruct (reached max (length (results st))) eqn:Hcap.
  { intros [= <- <-]. apply kept_tell. }
  set (u := if nonempty (link_url p) then link_url p else next_url).
  case_bool_decide as Hv.
  { intros [= <- <-]. apply kept_refl. }
  simpl. destruct (allowed_by_robots (client st) u) as [c ok]. simpl.
  destruct ok; simpl.
  2:{ intros [= <- <-]. by apply (kept_quiet st _ [RobotsBlockedProfile u]). }
  destruct (fetch c u) as [c' ph]. simpl.
  destruct (truthy ph) as [html|].
  2:{ intros [= <- <-].
      apply (kept_quiet st _ [OpeningProfile u; FailedProfile u]); [|done|done].
      unfold said. simpl. by rewrite <- app_assoc. }
  destruct (parse_profile html u r) as [[[[name school] research] email] phone] eqn:Hp.
  destruct (nonempty email) eqn:Hne; simpl.
  2:{ intros [= <- <-].
      apply (kept_quiet st _ [OpeningProfile u; Skipped u]); [|done|done].
      unfold said. simpl. by rewrite <- app_assoc. }
  apply nonempty_spec in Hne.
  destruct (parse_profile_fields _ _ _ _ _ _ _ _ Hp Hne) as (_ & Hn & _).
  apply looks_like_human_name_nonempty in Hn. rewrite Hn.
  set (res := {| r_name := name; r_school := school; r_research_area := research;
                 r_email := email; r_phone := phone; r_profile_url := u |}).
  assert (Hres : parsed r res) by (split; [done|by exists html]).
  assert (Hcap' : ∀ m, max = Some m →
    (Z.of_nat (length (results st ++ [res])) ≤ Z.max m (Z.of_nat (length (results st))))%Z).
  { intros m ->. simpl in Hcap. apply Z.leb_gt in Hcap. rewrite length_app. simpl. lia. }
  destruct (reached max (length (results st ++ [res]))); intros [= <- <-].
  - exists [OpeningProfile u; ReachedMax], [res]. unfold said. simpl.
    rewrite <- app_assoc. repeat split; [done|by apply Forall_singleton|lia|done].
  - exists [OpeningProfile u], [res]. unfold said. simpl.
    repeat split; [done|by apply Forall_singleton|lia|done].
Qed.

Lemma crawl_pages_kept fuel pages next_url (st st' : Crawl C) :
  crawl_pages fuel pages next_url r max st = Some st' → kept r max st st'.
Proof.
  apply (crawl_pages_steps r max (kept r max)).
  - apply kept_refl.
  - apply kept_trans.
  - apply kept_tell.
  - apply kept_client.
  - apply open_profile_kept.
Qed.
End KeptFacts.

Section SiteKept.
Context {U : Unicode} {D : Dom} {C : Type} {Cl : Client C}.

(** [process_site] returns; its results are readings of profiles it has
    opened, one for a profile at most; it counts them in "visited"; and it
    keeps no more than the cap. *)
Lemma process_site_kept (c : C) site max pr :
  ∃ cr delta,
    process_site c site max pr = Some cr
    ∧ messages (progress cr) = messages pr ++ delta
    ∧ (r_profile_url <$> results cr) `sublist_of` opens delta
    ∧ NoDup (opens delta)
    ∧ Forall (parsed (registered_domain site)) (results cr)
    ∧ visited_count (progress cr) = (visited_count pr + length (results cr))%nat
    ∧ (∀ m, max = Some m → (Z.of_nat (length (results cr)) ≤ Z.max m 0)%Z).
Proof.
  destruct (process_site_effect c site max pr) as (cr & delta & Hcr & Hmsg & _ & Hnd & _).
  exists cr, delta. split; [done|]. split; [done|].
  unfold process_site in Hcr.
  set (pr' := if js_disabled c then say JsDisabled pr else pr) in Hcr.
  apply crawl_pages_kept in Hcr as (d & a & Hs & Hr & Hu & Hp & Hv & Hc).
  unfold said in Hs. simpl in Hs, Hr, Hv, Hc.
  assert (Hpr : ∃ d0, messages pr' = messages pr ++ d0 ∧ opens d0 = []
                      ∧ visited_count pr' = visited_count pr).
  { subst pr'. destruct (js_disabled c).
    - by exists [JsDisabled].
    - exists []. by rewrite app_nil_r. }
  destruct Hpr as (d0 & Hd0 & Ho0 & Hv0).
  rewrite Hs, Hd0, <- app_assoc in Hmsg. apply app_inv_head in Hmsg as <-.
  rewrite opens_app, Ho0. simpl. rewrite Hr, Hv, Hv0.
  repeat split; [done|by rewrite opens_app, Ho0 in Hnd|done|].
  intros m Hm. specialize (Hc m Hm). rewrite Hr in Hc. simpl in Hc. lia.
Qed.
End SiteKept.

Section RowFacts.
Context {U : Unicode} {D : Dom} {C T : Type} {Cl : Client C} {Tr : Translator T}.

Lemma crawlable_spec site :
  negb (nonempty (strip site))
  || negb (startswith (lower (strip site)) (py "http://")
           || startswith (lower (strip site)) (py "https://")) = false
  ↔ crawlable site.
Proof.
  unfold crawlable. rewrite <- !startswith_prefix.
  destruct (strip site) as [|c s] eqn:Hs; simpl.
  - rewrite lower_ascii by done. simpl. split; [done|]. by intros [?|?].
  - destruct (startswith _ (py "http://")), (startswith _ (py "https://")); simpl;
      intuition congruence.
Qed.

Lemma maybe_translate_rendered te (t : T) s : rendered te s (snd (maybe_translate te t s)).
Proof.
  unfold maybe_translate, rendered.
  destruct te; simpl; [|by left].
  destruct (needs_trans s); simpl; [|by left]. right. repeat split. by exists t.
Qed.

Lemma add_rows_rows site_rows uni max te (st : Scrape C T) :
  ∃ added, rows (add_rows site_rows uni max te st) = rows st ++ added
    ∧ Forall (λ row, ∃ res, res ∈ site_rows
                ∧ university row = uni ∧ school row = r_school res
                ∧ email row = r_email res ∧ phone row = r_phone res
                ∧ profile_url row = r_profile_url res
                ∧ rendered te (r_name res) (name row)
                ∧ rendered te (r_research_area res) (research_area row)) added.
Proof.
  revert st. induction site_rows as [|r rest IH]; intros st; simpl.
  - exists []. by rewrite app_nil_r.
  - pose proof (maybe_translate_rendered te (s_translator st) (r_name r)) as Hn.
    destruct (maybe_translate te (s_translator st) (r_name r)) as [t1 nm].
    pose proof (maybe_translate_rendered te t1 (r_research_area r)) as Hr.
    destruct (maybe_translate te t1 (r_research_area r)) as [t2 rs]. simpl in *.
    match goal with |- context [rows st ++ [?x]] => set (row := x) end.
    assert (Hrow : ∃ res, res ∈ r :: rest
                ∧ university row = uni ∧ school row = r_school res
                ∧ email row = r_email res ∧ phone row = r_phone res
                ∧ profile_url row = r_profile_url res
                ∧ rendered te (r_name res) (name row)
                ∧ rendered te (r_research_area res) (research_area row)).
    { exists r. by repeat split; [left|..]. }
    destruct (reached max _).
    + simpl. exists [row]. split; [done|]. by apply Forall_singleton.
    + match goal with |- context [add_rows rest uni max te ?s] =>
        destruct (IH s) as (a & Ha & Hf) end.
      simpl in Ha. exists (row :: a). rewrite Ha, <- app_assoc. split; [done|].
      constructor; [done|]. eapply Forall_impl; [exact Hf|].
      intros x (res & Hin & Hx). exists res. split; [by right|done].
Qed.

(** The cap of [add_rows]: below the cap when it starts, it stops at the
    cap. *)
Lemma add_rows_cap site_rows uni m te (st : Scrape C T) :
  (site_rows = [] ∨ Z.of_nat (length (rows st)) < m)%Z →
  (Z.of_nat (length (rows st)) ≤ Z.max m 0)%Z →
  (Z.of_nat (length (rows (add_rows site_rows uni (Some m) te st))) ≤ Z.max m 0)%Z.
Proof.
  revert st. induction site_rows as [|r rest IH]; intros st Hlt Hle; simpl; [done|].
  destruct Hlt as [?|Hlt]; [done|].
  destruct (maybe_translate te (s_translator st) (r_name r)) as [t1 nm].
  destruct (maybe_translate te t1 (r_research_area r)) as [t2 rs]. simpl.
  match goal with |- context [rows st ++ [?x]] => set (row := x) end.
  destruct (m <=? Z.of_nat (length (rows st ++ [row])))%Z eqn:Hcap; simpl.
  - rewrite length_app. simpl. lia.
  - apply Z.leb_gt in Hcap. apply IH; simpl; [by right|lia].
Qed.
End RowFacts.

Section SitesFacts.
Context {U : Unicode} {D : Dom} {C T : Type} {Cl : Client C} {Tr : Translator T}.

Lemma from_site_cons site sites uni_label te row :
  from_site sites uni_label te row → from_site (site :: sites) uni_label te row.
Proof.
  intros (s & res & Hin & H). exists s, res. split; [by right|done].
Qed.

Lemma each_site_rows sites uni_label max te (st : Scrape C T) :
  ∃ st' added,
    each_site sites uni_label max te st = Some st'
    ∧ rows st' = rows st ++ added
    ∧ Forall (from_site sites uni_label te) added.
Proof.
  revert st. induction sites as [|site rest IH]; intros st; simpl.
  - exists st, []. by rewrite app_nil_r.
  - assert (Hskip : ∃ st' added,
      each_site rest uni_label max te st = Some st'
      ∧ rows st' = rows st ++ added
      ∧ Forall (from_site (site :: rest) uni_label te) added).
    { destruct (IH st) as (st' & a & He & Hr & Hf). exists st', a. split; [done|].
      split; [done|]. eapply Forall_impl; [exact Hf|]. intros x. apply from_site_cons. }
    destruct (negb (nonempty (strip site)) || _) eqn:Hc; [exact Hskip|].
    apply crawlable_spec in Hc.
    destruct (process_site_kept (s_client st) (strip site) max (s_progress st))
      as (cr & d & -> & _ & _ & _ & Hres & _).
    match goal with |- context [add_rows ?a ?b ?c ?d ?e] =>
      destruct (add_rows_rows a b c d e) as (a1 & Ha1 & Hf1);
      set (st1 := add_rows a b c d e) in *
    end.
    simpl in Ha1.
    assert (Hf1' : Forall (from_site (site :: rest) uni_label te) a1).
    { eapply Forall_impl; [exact Hf1|].
      intros x (res & Hin & Hu & Hs & He & Hp & Hurl & Hn & Hr).
      exists site, res. split; [left|]. split; [done|].
      split; [rewrite Forall_forall in Hres; by apply Hres|].
      by repeat split. }
    destruct (reached max _).
    + exists st1, a1. done.
    + destruct (IH st1) as (st' & a2 & He & Hr & Hf). exists st', (a1 ++ a2).
      split; [done|]. rewrite Hr, Ha1, <- app_assoc. split; [done|].
      apply Forall_app. split; [done|]. eapply Forall_impl; [exact Hf|].
      intros x. apply from_site_cons.
Qed.

Lemma each_site_cap sites uni_label m te (st st' : Scrape C T) :
  (Z.of_nat (length (rows st)) < m ∨ rows st = [])%Z →
  each_site sites uni_label (Some m) te st = Some st' →
  (Z.of_nat (length (rows st')) ≤ Z.max m 0)%Z.
Proof.
  revert st. induction sites as [|site rest IH]; intros st Hst; simpl.
  - intros [= <-]. destruct Hst as [?| ->]; simpl; lia.
  - destruct (negb (nonempty (strip site)) || _); [by apply IH|].
    destruct (process_site_kept (s_client st) (strip site) (Some m) (s_progress st))
      as (cr & d & -> & _ & _ & _ & _ & _ & Hcap).
    specialize (Hcap m eq_refl).
    match goal with |- context [add_rows ?a ?b ?c ?d ?e] =>
      pose proof (add_rows_cap a b m d e) as Hadd;
      set (st1 := add_rows a b c d e) in *
    end.
    simpl in Hadd.
    assert (Hle : (Z.of_nat (length (rows st1)) ≤ Z.max m 0)%Z).
    { apply Hadd.
      - destruct Hst as [?| ->]; [by right|].
        destruct (decide (0 < m)%Z); [right; simpl; lia|]. left.
        destruct (results cr); [done|simpl in Hcap; lia].
      - destruct Hst as [?| ->]; simpl; lia. }
    destruct (m <=? Z.of_nat (length (rows st1)))%Z eqn:Hr; simpl.
    + by intros [= <-].
    + apply Z.leb_gt in Hr. apply IH. by left.
Qed.

Lemma each_site_skips sites uni_label max te (st : Scrape C T) :
  (∀ site, site ∈ sites → ¬ crawlable site) →
  each_site sites uni_label max te st = Some st.
Proof.
  induction sites as [|site rest IH]; intros Hno; simpl; [done|].
  destruct (negb (nonempty (strip site)) || _) eqn:Hc.
  - apply IH. intros s Hs. apply Hno. by right.
  - apply crawlable_spec in Hc. destruct (Hno site); [left|done].
Qed.
End SitesFacts.

(** ** Robots first *)

Lemma polite_app a b : polite a → polite b → polite (a ++ b).
Proof. induction 1; intros Hb; simpl; [done|constructor; auto..]. Qed.

(** Every fetch follows the yes of [allowed_by_robots] for its URL. *)
Lemma polite_fetched l pre url post :
  polite l → l = pre ++ Fetched url :: post → ∃ pre', pre = pre' ++ [Asked url true].
Proof.
  intros Hl. revert pre. induction Hl as [|u rest Hrest IH|u rest Hrest IH]; intros pre Heq.
  - by destruct pre.
  - destruct pre as [|x pre]; [done|]. injection Heq as <- Heq.
    destruct (IH pre Heq) as [pre' ->]. by exists (Asked u false :: pre').
  - destruct pre as [|x [|y pre]]; [done| |].
    + injection Heq as <- <- _. by exists [].
    + injection Heq as <- <- Heq. destruct (IH pre Heq) as [pre' ->].
      by exists (Asked u true :: Fetched u :: pre').
Qed.

Section Robots.
Context {U : Unicode} {D : Dom} {C : Type} {Cl : Client C}.
Local Existing Instance recording_client.

Lemma politely_refl (st : Crawl (C * list call)) : politely st st.
Proof. exists []. split; [by rewrite app_nil_r|constructor]. Qed.

Lemma politely_trans (st1 st2 st3 : Crawl (C * list call)) :
  politely st1 st2 → politely st2 st3 → politely st1 st3.
Proof.
  intros (d1 & H1 & P1) (d2 & H2 & P2). exists (d1 ++ d2).
  split; [by rewrite H2, H1, app_assoc|by apply polite_app].
Qed.

Lemma politely_tell m (st st' : Crawl (C * list call)) :
  politely st st' → politely st (tell m st').
Proof. done. Qed.

Lemma open_profile_politely p next_url r max (st st' : Crawl (C * list call)) b :
  open_profile p next_url r max st = (st', b) → politely st st'.
Proof.
  unfold open_profile.
  destruct (reached max (length (results st))).
  { intros [= <- <-]. apply politely_tell, politely_refl. }
  set (u := if nonempty (link_url p) then link_url p else next_url).
  case_bool_decide as Hv.
  { intros [= <- <-]. apply politely_refl. }
  simpl. destruct (allowed_by_robots (client st).1 u) as [c ok]. simpl.
  destruct ok; simpl.
  2:{ intros [= <- <-]. exists [Asked u false]. split; [done|]. repeat constructor. }
  destruct (fetch c u) as [c' ph]. simpl.
  assert (Hp : polite [Asked u true; Fetched u]) by repeat constructor.
  destruct (truthy ph) as [html|].
  2:{ intros [= <- <-]. exists [Asked u true; Fetched u]. unfold calls. simpl.
      by rewrite <- app_assoc. }
  destruct (parse_profile html u r) as [[[[nm school] research] email] phone].
  destruct (nonempty email); simpl.
  2:{ intros [= <- <-]. exists [Asked u true; Fetched u]. unfold calls. simpl.
      by rewrite <- app_assoc. }
  destruct (reached max _); intros [= <- <-];
    exists [Asked u true; Fetched u]; unfold calls; simpl; by rewrite <- app_assoc.
Qed.

Lemma open_profiles_politely discovered next_url r max (st st' : Crawl (C * list call)) b :
  open_profiles discovered next_url r max st = (st', b) → politely st st'.
Proof.
  revert st. induction discovered as [|p rest IH]; intros st; simpl.
  - intros [= <- <-]. apply politely_refl.
  - destruct (open_profile p next_url r max st) as [st1 ret] eqn:He1.
    apply open_profile_politely in He1. destruct ret.
    + by intros [= <- <-].
    + intros He2%IH. by eapply politely_trans.
Qed.

Lemma load_listing_politely pages next_url r max (st st' : Crawl (C * list call)) nxt :
  load_listing pages next_url r max st = (st', nxt) → politely st st'.
Proof.
  unfold load_listing. simpl.
  destruct (allowed_by_robots (client st).1 next_url) as [c ok]. simpl.
  destruct ok; simpl.
  2:{ intros [= <- <-]. exists [Asked next_url false]. split; [done|]. repeat constructor. }
  destruct (fetch c next_url) as [c' html]. simpl.
  match goal with |- context [with_client ?cl (tell ?m (with_client ?cl0 st))] =>
    set (st1 := with_client cl (tell m (with_client cl0 st))) end.
  assert (H1 : politely st st1).
  { exists [Asked next_url true; Fetched next_url]. unfold calls. simpl.
    rewrite <- app_assoc. split; [done|]. repeat constructor. }
  destruct (truthy html) as [h|].
  2:{ by intros [= <- <-]. }
  destruct (open_profiles _ _ _ _ _) as [st2 ret] eqn:He2.
  apply open_profiles_politely in He2.
  assert (H2 : politely st st2) by (eapply politely_trans; [exact H1|exact He2]).
  destruct ret; [by intros [= <- <-]|].
  destruct (truthy (find_next_page h next_url)) as [n|].
  2:{ by intros [= <- <-]. }
  destruct (str_eqb n next_url); by intros [= <- <-].
Qed.

Lemma crawl_pages_politely fuel pages next_url r max (st st' : Crawl (C * list call)) :
  crawl_pages fuel pages next_url r max st = Some st' → politely st st'.
Proof.
  revert pages next_url st. induction fuel as [|fuel IH]; intros pages next_url st; simpl.
  - destruct (nonempty next_url && (pages <? MAX_PAGINATION_PAGES)%nat); simpl; [done|].
    intros [= <-]. apply politely_refl.
  - destruct (nonempty next_url && (pages <? MAX_PAGINATION_PAGES)%nat); simpl.
    2:{ intros [= <-]. apply politely_refl. }
    destruct (load_listing pages next_url r max st) as [st1 nxt] eqn:He1.
    apply load_listing_politely in He1. destruct nxt as [n|].
    + intros He2%IH. by eapply politely_trans.
    + by intros [= <-].
Qed.

Lemma process_site_politely (c : C) (l : list call) site max pr :
  ∃ cr delta, process_site (c, l) site max pr = Some cr
              ∧ snd (client cr) = l ++ delta ∧ polite delta.
Proof.
  destruct (process_site_effect (c, l) site max pr) as (cr & d & Hcr & _).
  exists cr. pose proof Hcr as Hcr'. unfold process_site in Hcr'.
  apply crawl_pages_politely in Hcr' as (delta & Hc & Hp). unfold calls in Hc. simpl in Hc.
  by exists delta.
Qed.
End Robots.

(** ** The translator's cache *)

Section WrapperFacts.
Context {B : Type} {Bk : Backend B}.

(** A call keeps the mode and every entry of the cache. *)
Lemma translate_to_keeps (tw : TranslatorWrapper B) text target :
  tw_mode (fst (translate_to tw text target)) = tw_mode tw
  ∧ cache tw ⊆ cache (fst (translate_to tw text target)).
Proof.
  unfold translate_to. destruct (tw_mode tw) as [m|] eqn:Hm; [|done].
  destruct (negb (nonempty text)); [done|].
  destruct (cache tw !! _) as [out|] eqn:Hc; [done|].
  destruct (match m with googletrans => _ | deep => _ end) as [b [out|]]; simpl.
  - split; [done|]. by apply insert_subseteq.
  - done.
Qed.

Lemma translate_all_keeps (tw : TranslatorWrapper B) calls :
  tw_mode (translate_all tw calls) = tw_mode tw
  ∧ cache tw ⊆ cache (translate_all tw calls).
Proof.
  revert tw. induction calls as [|[text target] calls IH]; intros tw; simpl; [done|].
  destruct (IH (fst (translate_to tw text target))) as [Hm Hc].
  destruct (translate_to_keeps tw text target) as [Hm' Hc'].
  split; [by rewrite Hm|]. by etrans.
Qed.

(** A cached translation is returned as it is, and nothing changes. *)
Lemma translate_to_hit (tw : TranslatorWrapper B) text target out :
  tw_mode tw ≠ None → text ≠ [] →
  cache tw !! (text, py "auto", target) = Some out →
  translate_to tw text target = (tw, out).
Proof.
  intros Hm Ht Hc. unfold translate_to. destruct (tw_mode tw); [|done].
  apply nonempty_spec in Ht. by rewrite Ht, Hc.
Qed.

(** What a call returns is its text, or is in the cache when it returns. *)
Lemma translate_to_result (tw : TranslatorWrapper B) text target :
  snd (translate_to tw text target) = text
  ∨ (tw_mode tw ≠ None ∧ text ≠ []
     ∧ cache (fst (translate_to tw text target)) !! (text, py "auto", target)
       = Some (snd (translate_to tw text target))).
Proof.
  unfold translate_to. destruct (tw_mode tw) as [m|] eqn:Hm; [|by left].
  destruct (nonempty text) eqn:Ht; simpl; [|by left]. apply nonempty_spec in Ht.
  destruct (cache tw !! _) as [out|] eqn:Hc; [by right|].
  destruct (match m with googletrans => _ | deep => _ end) as [b [out|]]; simpl.
  - right. split; [done|]. split; [done|]. apply lookup_insert_eq.
  - by left.
Qed.

Lemma translate_to_again (tw tw1 : TranslatorWrapper B) text target out calls :
  translate_to tw text target = (tw1, out) → out ≠ text →
  translate_to (translate_all tw1 calls) text target = (translate_all tw1 calls, out).
Proof.
  intros Ht Hne.
  destruct (translate_to_result tw text target) as [Hr|(Hm & Hx & Hc)];
    rewrite Ht in *; simpl in *; [done|].
  destruct (translate_to_keeps tw text target) as [Hm1 _]. rewrite Ht in Hm1. simpl in Hm1.
  destruct (translate_all_keeps tw1 calls) as [Hm2 Hc2].
  apply translate_to_hit; [congruence|done|].
  by eapply lookup_weaken.
Qed.

Lemma translate_to_idle (tw : TranslatorWrapper B) text target :
  text = [] ∨ tw_mode tw = None → translate_to tw text target = (tw, text).
Proof.
  unfold translate_to. intros [->|Hm]; [by destruct (tw_mode tw)|by rewrite Hm].
Qed.
(** A call for a text that is not in the cache asks the library, caches
    what it answers, and caches nothing when it raises. *)
Lemma translate_to_miss (tw : TranslatorWrapper B) text target m :
  tw_mode tw = Some m → text ≠ [] → cache tw !! (text, py "auto", target) = None →
  let res := match m with
             | googletrans => gt_translate (backend tw) text target
             | deep => deep_translate (backend tw) text
             end in
  translate_to tw text target
  = match snd res with
    | Some out =>
      ({| cache := <[(text, py "auto", target) := out]> (cache tw);
          tw_mode := tw_mode tw; backend := fst res |}, out)
    | None => ({| cache := cache tw; tw_mode := tw_mode tw; backend := fst res |}, text)
    end.
Proof.
  intros Hm Ht Hc. unfold translate_to. apply nonempty_spec in Ht.
  rewrite Hm, Ht, Hc. cbn [negb].
  by destruct (match m with googletrans => _ | deep => _ end) as [b [out|]].
Qed.
End WrapperFacts.

(** ** The client states of a crawl *)

Section Reaches.
Context {U : Unicode} {D : Dom} {C : Type} {Cl : Client C}.

Lemma reaches_trans (c1 c2 c3 : C) : reaches c1 c2 → reaches c2 c3 → reaches c1 c3.
Proof.
  induction 1 as [c|c url c' _ IH|c url c' _ IH]; intros H3; [done| |].
  - eapply reaches_ask. by apply IH.
  - eapply reaches_fetch. by apply IH.
Qed.

Lemma reaches_asked (c : C) url : reaches c (fst (allowed_by_robots c url)).
Proof. eapply reaches_ask. apply reaches_refl. Qed.

Lemma reaches_fetched (c : C) url : reaches c (fst (fetch c url)).
Proof. eapply reaches_fetch. apply reaches_refl. Qed.

Lemma open_profile_reaches p next_url r max (st st' : Crawl C) b :
  open_profile p next_url r max st = (st', b) → reaches (client st) (client st').
Proof.
  unfold open_profile.
  destruct (reached max (length (results st))).
  { intros [= <- <-]. apply reaches_refl. }
  set (u := if nonempty (link_url p) then link_url p else next_url).
  case_bool_decide as Hv.
  { intros [= <- <-]. apply reaches_refl. }
  simpl. pose proof (reaches_asked (client st) u) as H1.
  destruct (allowed_by_robots (client st) u) as [c ok]. simpl in *.
  destruct ok; simpl.
  2:{ by intros [= <- <-]. }
  pose proof (reaches_fetched c u) as H2.
  destruct (fetch c u) as [c' ph]. simpl in *.
  assert (H3 : reaches (client st) c') by (by eapply reaches_trans).
  destruct (truthy ph) as [html|].
  2:{ by intros [= <- <-]. }
  destruct (parse_profile html u r) as [[[[nm school] research] email] phone].
  destruct (nonempty email); simpl.
  2:{ by intros [= <- <-]. }
  match goal with |- context [reached max ?n] => destruct (reached max n) end;
    by intros [= <- <-].
Qed.

Lemma open_profiles_reaches discovered next_url r max (st st' : Crawl C) b :
  open_profiles discovered next_url r max st = (st', b) → reaches (client st) (client st').
Proof.
  revert st. induction discovered as [|p rest IH]; intros st; simpl.
  - intros [= <- <-]. apply reaches_refl.
  - destruct (open_profile p next_url r max st) as [st1 ret] eqn:He1.
    apply open_profile_reaches in He1. destruct ret.
    + by intros [= <- <-].
    + intros He2%IH. by eapply reaches_trans.
Qed.

Lemma load_listing_reaches pages next_url r max (st st' : Crawl C) nxt :
  load_listing pages next_url r max st = (st', nxt) → reaches (client st) (client st').
Proof.
  unfold load_listing.
  pose proof (reaches_asked (client st) next_url) as H1.
  destruct (allowed_by_robots (client st) next_url) as [c ok]. simpl in *.
  destruct ok; simpl.
  2:{ by intros [= <- <-]. }
  pose proof (reaches_fetched c next_url) as H2.
  destruct (fetch c next_url) as [c' html]. simpl in *.
  assert (H3 : reaches (client st) c') by (by eapply reaches_trans).
  destruct (truthy html) as [h|].
  2:{ by intros [= <- <-]. }
  destruct (open_profiles _ _ _ _ _) as [st2 ret] eqn:He2.
  apply open_profiles_reaches in He2. simpl in He2.
  assert (H4 : reaches (client st) (client st2)) by (by eapply reaches_trans).
  destruct ret; [by intros [= <- <-]|].
  destruct (truthy (find_next_page h next_url)) as [n|].
  2:{ by intros [= <- <-]. }
  destruct (str_eqb n next_url); by intros [= <- <-].
Qed.

Lemma crawl_pages_reaches fuel pages next_url r max (st st' : Crawl C) :
  crawl_pages fuel pages next_url r max st = Some st' → reaches (client st) (client st').
Proof.
  revert pages next_url st. induction fuel as [|fuel IH]; intros pages next_url st; simpl.
  - destruct (nonempty next_url && (pages <? MAX_PAGINATION_PAGES)%nat); simpl; [done|].
    intros [= <-]. apply reaches_refl.
  - destruct (nonempty next_url && (pages <? MAX_PAGINATION_PAGES)%nat); simpl.
    2:{ intros [= <-]. apply reaches_refl. }
    destruct (load_listing pages next_url r max st) as [st1 nxt] eqn:He1.
    apply load_listing_reaches in He1. destruct nxt as [n|].
    + intros He2%IH. by eapply reaches_trans.
    + by intros [= <-].
Qed.

(** [process_site] returns, and leaves the client in a state that calls of
    [allowed_by_robots] and [fetch] lead to. *)
Lemma process_site_reaches (c : C) site max pr :
  ∃ cr, process_site c site max pr = Some cr ∧ reaches c (client cr).
Proof.
  destruct (process_site_effect c site max pr) as (cr & d & Hcr & _).
  exists cr. split; [done|]. unfold process_site in Hcr.
  by apply crawl_pages_reaches in Hcr.
Qed.

(** What every call keeps, the crawl keeps. *)
Lemma reaches_invariant (I : C → Prop) (c c' : C) :
  (∀ c url, I c → I (fst (allowed_by_robots c url))) →
  (∀ c url, I c → I (fst (fetch c url))) →
  reaches c c' → I c → I c'.
Proof. intros Ha Hf. induction 1; auto. Qed.
End Reaches.

(** ** The HTTP client *)

Section HttpFacts.
Context {W P : Type} {Nt : Net W P}.

Lemma http_allowed_cached (c : HttpClient W P) url base rp :
  base_of url = Some base → robots c !! base = Some rp →
  http_allowed_by_robots c url = (c, default true (can_fetch rp url)).
Proof. intros Hb Hr. unfold http_allowed_by_robots. by rewrite Hb, Hr. Qed.

(** The parser a check leaves for the base of its URL, when making it does
    not raise. *)
Lemma http_allowed_parser (c : HttpClient W P) url base :
  reliable → base_of url = Some base →
  ∃ rp, robots (fst (http_allowed_by_robots c url)) !! base = Some rp
        ∧ snd (http_allowed_by_robots c url) = default true (can_fetch rp url).
Proof.
  intros Hrel Hb. unfold http_allowed_by_robots. rewrite Hb.
  destruct (robots c !! base) as [rp|] eqn:Hr; [by exists rp|].
  specialize (Hrel (world c) base).
  destruct (read_robots (world c) base) as [w [rp|]]; [|done].
  exists rp. simpl. by rewrite lookup_insert_eq.
Qed.

Lemma http_allowed_keeps (c : HttpClient W P) url :
  robots c ⊆ robots (fst (http_allowed_by_robots c url))
  ∧ js (fst (http_allowed_by_robots c url)) = js c.
Proof.
  unfold http_allowed_by_robots. destruct (base_of url) as [base|]; [|done].
  destruct (robots c !! base) as [rp|] eqn:Hr; [done|].
  destruct (read_robots (world c) base) as [w [rp|]]; simpl; [|done].
  split; [by apply insert_subseteq|done].
Qed.

Lemma http_allowed_again (c : HttpClient W P) url1 url2 base :
  reliable → base_of url1 = Some base → base_of url2 = Some base →
  let c1 := fst (http_allowed_by_robots c url1) in
  ∃ rp, robots c1 !! base = Some rp
        ∧ http_allowed_by_robots c1 url2 = (c1, default true (can_fetch rp url2)).
Proof.
  intros Hrel H1 H2 c1.
  destruct (http_allowed_parser c url1 base Hrel H1) as (rp & Hrp & _).
  exists rp. split; [done|]. by apply (http_allowed_cached _ _ base).
Qed.

Lemma http_fetch_refused (c : HttpClient W P) url :
  snd (http_allowed_by_robots c url) = false →
  http_fetch c url = (fst (http_allowed_by_robots c url), None).
Proof.
  unfold http_fetch. destruct (http_allowed_by_robots c url) as [c1 ok]. simpl.
  by intros ->.
Qed.

Lemma fetch_js_off (c : HttpClient W P) url : js c ≠ Some true → fetch_js c url = (c, None).
Proof. unfold fetch_js. by destruct (js c) as [[]|]. Qed.

(** Where a fetched text comes from. *)
Lemma http_fetch_text (c c' : HttpClient W P) url text :
  http_fetch c url = (c', Some text) →
  let c1 := fst (http_allowed_by_robots c url) in
  let got := http_get (world c1) url in
  snd (http_allowed_by_robots c url) = true
  ∧ ((snd got = Some (200%Z, text) ∧ text ≠ [])
     ∨ (js c = Some true ∧ snd (render (fst got) url) = Some text)).
Proof.
  unfold http_fetch. destruct (http_allowed_keeps c url) as [_ Hjs].
  destruct (http_allowed_by_robots c url) as [c1 ok]. simpl in *.
  destruct ok; simpl; [|done].
  destruct (http_get (world c1) url) as [w resp]. simpl.
  assert (Hjs' : fetch_js (on_world w c1) url = (c', Some text) →
                 js c = Some true ∧ snd (render w url) = Some text).
  { unfold fetch_js. simpl. rewrite Hjs. destruct (js c) as [[]|]; [|done..].
    destruct (render w url) as [w' html]. simpl. by intros [= _ ->]. }
  destruct resp as [[status body]|].
  - destruct (status =? 200)%Z eqn:Hs; simpl.
    + destruct (nonempty body) eqn:Hb.
      * intros [= _ ->]. split; [done|]. left. apply Z.eqb_eq in Hs as ->.
        by apply nonempty_spec in Hb.
      * intros Hf. split; [done|]. right. by apply Hjs'.
    + intros Hf. split; [done|]. right. by apply Hjs'.
  - intros Hf. split; [done|]. right. by apply Hjs'.
Qed.
(** A GET that answers 200 with a text is what [fetch] returns; the
    browser is not asked. *)
Lemma http_fetch_get (c : HttpClient W P) url text :
  let c1 := fst (http_allowed_by_robots c url) in
  let got := http_get (world c1) url in
  snd (http_allowed_by_robots c url) = true →
  snd got = Some (200%Z, text) → text ≠ [] →
  http_fetch c url = (on_world (fst got) c1, Some text).
Proof.
  unfold http_fetch. destruct (http_allowed_by_robots c url) as [c1 ok]. simpl.
  intros -> Hg Ht. simpl. destruct (http_get (world c1) url) as [w resp].
  simpl in Hg |- *. rewrite Hg. apply nonempty_spec in Ht. by rewrite Ht.
Qed.

(** Any other outcome of the GET hands over to the browser. *)
Lemma http_fetch_fallback (c : HttpClient W P) url :
  let c1 := fst (http_allowed_by_robots c url) in
  let got := http_get (world c1) url in
  snd (http_allowed_by_robots c url) = true →
  (∀ t, snd got = Some (200%Z, t) → t = []) →
  http_fetch c url = fetch_js (on_world (fst got) c1) url.
Proof.
  unfold http_fetch. destruct (http_allowed_by_robots c url) as [c1 ok]. simpl.
  intros -> Hg. simpl. destruct (http_get (world c1) url) as [w resp].
  simpl in Hg |- *. destruct resp as [[status body]|]; [|done].
  destruct (status =? 200)%Z eqn:Hs; [|done]. apply Z.eqb_eq in Hs as ->.
  by rewrite (Hg body eq_refl).
Qed.

(** Where a fetched text comes from: the GET, or the browser when the GET
    has given no text with status 200. *)
Lemma http_fetch_source (c c' : HttpClient W P) url text :
  http_fetch c url = (c', Some text) →
  let c1 := fst (http_allowed_by_robots c url) in
  let got := http_get (world c1) url in
  snd (http_allowed_by_robots c url) = true
  ∧ ((snd got = Some (200%Z, text) ∧ text ≠ [])
     ∨ ((∀ t, snd got = Some (200%Z, t) → t = [])
        ∧ js c = Some true ∧ snd (render (fst got) url) = Some text)).
Proof.
  intros Hf c1 got.
  destruct (http_fetch_text c c' url text Hf) as [Hok Hsrc]. split; [done|].
  fold c1 in Hsrc. fold got in Hsrc.
  destruct (snd got) as [[status body]|] eqn:Hg.
  - destruct (decide (status = 200%Z ∧ body ≠ [])) as [[-> Hb]|Hno].
    + left. pose proof (http_fetch_get c url body Hok Hg Hb) as Hf'.
      rewrite Hf in Hf'. injection Hf' as _ ->. done.
    + right. destruct Hsrc as [[Heq Hb]|[Hjs Hr]].
      * injection Heq as -> ->. by destruct Hno.
      * split; [|done]. intros t Heq. injection Heq as -> ->.
        destruct t as [|x t]; [done|]. by destruct Hno.
  - right. destruct Hsrc as [[? _]|[Hjs Hr]]; [done|]. by split.
Qed.
End HttpFacts.

(** ** What goes over the wire *)

Section WireFacts.
Context {W P : Type} {Nt : Net W P}.
Local Existing Instance recording_net.

Lemma robots_read_elem log b : b ∈ robots_read log ↔ RobotsTxt b ∈ log.
Proof.
  unfold robots_read. rewrite list_elem_of_omap. split.
  - intros ([b'| |] & Hin & Heq); try done. by injection Heq as ->.
  - intros Hin. by exists (RobotsTxt b).
Qed.

Lemma recording_reliable : @reliable W P Nt → @reliable (W * list wire) P recording_net.
Proof.
  intros Hrel [w l] base. simpl. specialize (Hrel w base).
  by destruct (read_robots w base).
Qed.

Lemma permitted_mono (c c' : HttpClient (W * list wire) P) url :
  robots c ⊆ robots c' → permitted c url → permitted c' url.
Proof.
  intros Hsub Hp base Hb. destruct (Hp base Hb) as (rp & Hr & Hc).
  exists rp. split; [by eapply lookup_weaken|done].
Qed.

(** A page asked for after it has been permitted. *)
Lemma wire_ok_page (c : HttpClient (W * list wire) P) w e url :
  wire_ok c → e = Get url ∨ e = Rendered url → permitted c url →
  wire_ok (on_world (w, snd (world c) ++ [e]) c).
Proof.
  intros (Hnd & Hiff & Hper) He Hp. unfold wire_ok. simpl.
  assert (Hr : robots_read (snd (world c) ++ [e]) = robots_read (snd (world c))).
  { unfold robots_read. rewrite omap_app.
    destruct He as [-> | ->]; simpl; by rewrite app_nil_r. }
  rewrite Hr.
  split; [done|]. split.
  - intros b. rewrite <- Hiff, <- !robots_read_elem. by rewrite Hr.
  - intros u Hu. rewrite !elem_of_app, !list_elem_of_singleton in Hu.
    destruct Hu as [[Hu|Hu]|[Hu|Hu]].
    + apply Hper. by left.
    + destruct He as [-> | ->]; [by injection Hu as ->|done].
    + apply Hper. by right.
    + destruct He as [-> | ->]; [done|by injection Hu as ->].
Qed.

Lemma allowed_wire_ok (c : HttpClient (W * list wire) P) url :
  @reliable W P Nt → wire_ok c → wire_ok (fst (http_allowed_by_robots c url)).
Proof.
  intros Hrel Hok. unfold http_allowed_by_robots.
  destruct (base_of url) as [base|] eqn:Hb; [|done].
  destruct (robots c !! base) as [rp|] eqn:Hr; [done|].
  pose proof (recording_reliable Hrel (world c) base) as Hrel'.
  destruct (read_robots (world c) base) as [w [rp|]] eqn:Hread; [|done].
  simpl. destruct Hok as (Hnd & Hiff & Hper).
  assert (Hw : w = (fst w, snd (world c) ++ [RobotsTxt base])).
  { simpl in Hread. destruct (world c) as [w0 l0]. simpl in *.
    destruct (@read_robots W P Nt w0 base) as [w1 o]. by injection Hread as <- _. }
  unfold wire_ok. simpl. rewrite Hw. simpl.
  assert (Hrd : robots_read (snd (world c) ++ [RobotsTxt base])
                = robots_read (snd (world c)) ++ [base]).
  { unfold robots_read. by rewrite omap_app. }
  assert (Hnew : base ∉ dom (robots c)) by (by apply not_elem_of_dom).
  rewrite Hrd. split; [|split].
  - apply NoDup_app. split; [done|]. split; [|apply NoDup_singleton].
    intros b Hb1 ->%list_elem_of_singleton. apply Hnew, Hiff. by apply robots_read_elem.
  - intros b. rewrite dom_insert, elem_of_union, elem_of_singleton, <- Hiff.
    rewrite elem_of_app, list_elem_of_singleton. split.
    + intros [?|[= ->]]; [by right|by left].
    + intros [->|?]; [by right|by left].
  - intros u Hu. apply (permitted_mono c); [simpl; by apply insert_subseteq|].
    apply Hper. rewrite !elem_of_app, !list_elem_of_singleton in Hu.
    destruct Hu as [[?|?]|[?|?]]; try done; [by left|by right].
Qed.

Lemma allowed_permits (c : HttpClient (W * list wire) P) url :
  @reliable W P Nt → snd (http_allowed_by_robots c url) = true →
  permitted (fst (http_allowed_by_robots c url)) url.
Proof.
  intros Hrel Hok base Hb.
  destruct (http_allowed_parser c url base (recording_reliable Hrel) Hb) as (rp & Hrp & Ha).
  exists rp. split; [done|]. rewrite Hok in Ha. intros Hc.
  change (@can_fetch _ _ recording_net rp url) with (@can_fetch W P Nt rp url) in Ha.
  by rewrite Hc in Ha.
Qed.

Lemma fetch_js_wire_ok (c : HttpClient (W * list wire) P) url :
  wire_ok c → permitted c url → wire_ok (fst (fetch_js c url)).
Proof.
  intros Hok Hp. unfold fetch_js. destruct (js c) as [[]|]; [|done..].
  simpl. destruct (world c) as [w0 l0] eqn:Hw. simpl.
  destruct (@render W P Nt w0 url) as [w1 html]. simpl.
  pose proof (wire_ok_page c w1 (Rendered url) url Hok (or_intror eq_refl) Hp) as H1.
  by rewrite Hw in H1.
Qed.

Lemma fetch_wire_ok (c : HttpClient (W * list wire) P) url :
  @reliable W P Nt → wire_ok c → wire_ok (fst (http_fetch c url)).
Proof.
  intros Hrel Hok. unfold http_fetch.
  pose proof (allowed_wire_ok c url Hrel Hok) as H1.
  pose proof (allowed_permits c url Hrel) as H2.
  destruct (http_allowed_by_robots c url) as [c1 ok]. simpl in *.
  destruct ok; simpl; [|done]. specialize (H2 eq_refl).
  destruct (world c1) as [w0 l0] eqn:Hw. simpl.
  destruct (@http_get W P Nt w0 url) as [w1 resp]. simpl.
  pose proof (wire_ok_page c1 w1 (Get url) url H1 (or_introl eq_refl) H2) as H3.
  rewrite Hw in H3. simpl in H3.
  assert (H4 : wire_ok (fst (fetch_js (on_world (w1, l0 ++ [Get url]) c1) url))).
  { apply fetch_js_wire_ok; [done|]. by apply (permitted_mono c1). }
  destruct resp as [[status body]|]; [|done].
  destruct ((status =? 200)%Z && nonempty body); done.
Qed.

Lemma new_client_wire_ok playwright (w : W) :
  wire_ok (new_client playwright (w, [])).
Proof.
  unfold wire_ok. simpl. split; [constructor|]. split.
  - intros b. rewrite dom_empty. split; [by intros ?%elem_of_nil|by intros ?%elem_of_empty].
  - intros u [?%elem_of_nil|?%elem_of_nil]; done.
Qed.
End WireFacts.

(** ** The fields of a page *)

Lemma first_some_elem {A B} (f : A → option B) (l : list A) (x : B) :
  first_some f l = Some x → ∃ a, a ∈ l ∧ f a = Some x.
Proof.
  unfold first_some. intros Hh.
  assert (Hin : x ∈ omap f l).
  { destruct (omap f l) as [|y ys]; [done|]. injection Hh as ->. by left. }
  by apply list_elem_of_omap in Hin.
Qed.

Lemma first_some_none {A B} (f : A → option B) (l : list A) :
  first_some f l = None ↔ Forall (λ a, f a = None) l.
Proof.
  unfold first_some. induction l as [|a l IH]; simpl.
  - split; [constructor|done].
  - destruct (f a) eqn:Hf; simpl.
    + split; [done|]. intros Hall. inversion Hall; congruence.
    + rewrite IH. split; [by constructor|]. by inversion 1.
Qed.

Lemma tidy_title_name_length (t : str) : (length (tidy_title_name t) ≤ 80)%nat.
Proof.
  unfold tidy_title_name.
  match goal with |- context [if ?b then ?x else []] => destruct b eqn:Hb end;
    [|apply Nat.le_0_l].
  apply andb_prop in Hb as [_ Hb]. by apply Nat.leb_le in Hb.
Qed.

Lemma strip_trailing_punct_length (s : str) :
  (length (strip_trailing_punct s) ≤ length s)%nat.
Proof.
  destruct (strip_trailing_punct_cut s) as (a & b & Hs & _).
  rewrite Hs at 2. rewrite !length_app. lia.
Qed.

Lemma take_fits {A} (n : nat) (l : list A) : (length (take n l) ≤ n)%nat.
Proof. rewrite length_take. apply Nat.le_min_l. Qed.

Section Fields.
Context {U : Unicode} {E : Type} {S : Soup E}.

Lemma extract_name_spec (soup : E) :
  Page.extract_name soup = []
  ∨ (looks_like_human_name (Page.extract_name soup) = true
     ∧ (1 ≤ length (Page.extract_name soup) ≤ 80)%nat).
Proof.
  unfold Page.extract_name.
  destruct (first_some _ NAME_HINT_SELECTORS) as [t|] eqn:Hsel.
  - right. apply first_some_elem in Hsel as (sel & _ & Hsel).
    destruct (Page.select_one soup sel) as [el|]; [|done].
    destruct (_ && _) eqn:Hc in Hsel; [|done]. injection Hsel as <-.
    apply andb_prop in Hc as [[H1%Nat.leb_le H2%Nat.leb_le]%andb_prop Hh]. done.
  - destruct (first_some _ (Page.parse_label_value_blocks soup)) as [t|] eqn:Hlab;
      [|by left].
    right. apply first_some_elem in Hlab as ([k v] & _ & Hlab). cbn [fst snd] in Hlab.
    destruct (existsb _ _); [|done].
    destruct (looks_like_human_name (tidy_title_name v)) eqn:Hh; [|done].
    injection Hlab as <-. split; [done|].
    split; [|apply tidy_title_name_length].
    apply looks_like_human_name_nonempty in Hh.
    destruct (tidy_title_name v); [done|simpl; lia].
Qed.

Lemma extract_school_length (soup : E) : (length (Page.extract_school soup) ≤ 120)%nat.
Proof.
  unfold Page.extract_school.
  destruct (first_some _ (flat_map _ _)) as [t|] eqn:Hc.
  { apply first_some_elem in Hc as (c & _ & Hc).
    destruct (nonempty _); [|done].
    destruct (last _); injection Hc as <-; apply take_fits. }
  destruct (first_some _ (Page.parse_label_value_blocks soup)) as [t|] eqn:Hl.
  { apply first_some_elem in Hl as (kv & _ & Hl).
    destruct (Page.hinted _ _); [|done]. injection Hl as <-. apply take_fits. }
  match goal with |- context [default [] ?x] => destruct x as [t|] eqn:Hh end;
    [|apply Nat.le_0_l].
  apply first_some_elem in Hh as (sel & _ & Hh).
  destruct (Page.select_one soup sel); [|done].
  destruct (Page.hinted _ _); [|done]. injection Hh as <-. apply take_fits.
Qed.

Lemma extract_research_area_length (soup : E) :
  (length (Page.extract_research_area soup) ≤ 500)%nat.
Proof.
  unfold Page.extract_research_area.
  destruct (first_some _ (find_all _ _)) as [t|] eqn:Hc.
  { apply first_some_elem in Hc as (c & _ & Hc).
    destruct (Page.hinted _ _); [|done].
    destruct (Page.gather _ _); [done|]. injection Hc as <-. apply take_fits. }
  destruct (first_some _ (Page.parse_label_value_blocks soup)) as [t|] eqn:Hl.
  { apply first_some_elem in Hl as (kv & _ & Hl).
    destruct (Page.hinted _ _); [|done]. injection Hl as <-. apply take_fits. }
  destruct (search_with _ _); [apply take_fits|apply Nat.le_0_l].
Qed.

(** What [parse_profile] returns of a page read with BeautifulSoup. *)
Lemma parsed_sizes (r : str) (res : Result) :
  @parsed U soup_dom r res →
  (1 ≤ length (r_name res) ≤ 80)%nat
  ∧ (length (r_school res) ≤ 120)%nat
  ∧ (length (r_research_area res) ≤ 500)%nat.
Proof.
  intros (Hne & html & Hp).
  apply parse_profile_fields in Hp as (Hn & Hh & Hs & Hr & _); [|done].
  cbn [extract_name extract_school extract_research_area soup_dom] in Hn, Hs, Hr.
  split; [split|split].
  - apply looks_like_human_name_nonempty in Hh. destruct (r_name res); [done|simpl; lia].
  - rewrite Hn. etrans; [apply strip_trailing_punct_length|].
    destruct (extract_name_spec (parse html)) as [->|[_ [_ ?]]]; [simpl; lia|done].
  - rewrite Hs. etrans; [apply strip_trailing_punct_length|apply extract_school_length].
  - rewrite Hr. etrans; [apply strip_trailing_punct_length|apply extract_research_area_length].
Qed.
End Fields.

(** ** Dicts *)

Lemma dict_get_set (k v : str) (data : list (str * str)) :
  dict_get k (dict_set k v data) = Some v.
Proof.
  unfold dict_get. induction data as [|[k' v'] data IH]; simpl.
  - by rewrite filter_cons_True.
  - unfold str_eqb. case_bool_decide as Hk.
    + by rewrite filter_cons_True.
    + by rewrite filter_cons_False.
Qed.

Lemma dict_get_set_other (k k' v : str) (data : list (str * str)) :
  k' ≠ k → dict_get k' (dict_set k v data) = dict_get k' data.
Proof.
  intros Hne. unfold dict_get. induction data as [|[k0 v0] data IH]; simpl.
  - by rewrite filter_cons_False.
  - unfold str_eqb. case_bool_decide as Hk.
    + subst k0. by rewrite !filter_cons_False.
    + destruct (decide (k0 = k')) as [->|Hk'].
      * by rewrite !filter_cons_True.
      * by rewrite !filter_cons_False.
Qed.

Lemma dict_set_keys (k v : str) (data : list (str * str)) :
  (dict_set k v data).*1 = if bool_decide (k ∈ data.*1) then data.*1 else data.*1 ++ [k].
Proof.
  induction data as [|[k' v'] data IH]; [done|].
  cbn [dict_set fmap list_fmap fst]. unfold str_eqb.
  destruct (decide (k' = k)) as [->|Hk].
  - rewrite (bool_decide_eq_true_2 (k = k)) by done.
    rewrite (bool_decide_eq_true_2 (k ∈ _)); [done|by left].
  - rewrite (bool_decide_eq_false_2 (k' = k)) by done.
    cbn [fmap list_fmap fst]. rewrite IH. case_bool_decide as Hin.
    + rewrite bool_decide_eq_true_2; [done|by right].
    + rewrite bool_decide_eq_false_2; [done|].
      intros [?|?]%elem_of_cons; [congruence|done].
Qed.

Lemma dict_set_NoDup (k v : str) (data : list (str * str)) :
  NoDup data.*1 → NoDup (dict_set k v data).*1.
Proof.
  intros Hnd. rewrite dict_set_keys. case_bool_decide as Hin; [done|].
  apply NoDup_app. split; [done|]. split; [|apply NoDup_singleton].
  intros x Hx ->%list_elem_of_singleton. done.
Qed.

Lemma dict_get_elem (k v : str) (data : list (str * str)) :
  NoDup data.*1 → (k, v) ∈ data → dict_get k data = Some v.
Proof.
  unfold dict_get. induction data as [|[k' v'] data IH]; simpl; [by inversion 2|].
  intros [Hk Hnd]%NoDup_cons [Heq|Hin]%elem_of_cons.
  - injection Heq as <- <-. by rewrite filter_cons_True.
  - rewrite filter_cons_False; [by apply IH|]. simpl. intros ->.
    apply Hk. by apply (list_elem_of_fmap_2 fst _ (k, v)).
Qed.

Lemma assigned_NoDup (l data : list (str * str)) :
  NoDup data.*1 → NoDup (foldl assign data l).*1.
Proof.
  revert data. induction l as [|kv l IH]; intros data Hnd; simpl; [done|].
  apply IH. by apply dict_set_NoDup.
Qed.

Lemma assigned_get (k : str) (l data : list (str * str)) :
  dict_get k (foldl assign data l)
  = match last (filter (λ kv, kv.1 = k) l) with
    | Some kv => Some kv.2
    | None => dict_get k data
    end.
Proof.
  revert data. induction l as [|[k1 v1] l IH]; intros data; simpl; [done|].
  rewrite IH. unfold assign at 1. simpl.
  destruct (decide (k1 = k)) as [->|Hk].
  - rewrite filter_cons_True by done. rewrite dict_get_set.
    destruct (filter _ l) as [|y ys] eqn:Hf; [done|].
    rewrite last_cons_cons. destruct (last (y :: ys)) eqn:Hl; [done|].
    by apply last_None in Hl.
  - rewrite filter_cons_False by done. by rewrite dict_get_set_other.
Qed.

Lemma foldl_flat_map {A B C} (f : A → B → A) (g : C → list B) (a : A) (l : list C) :
  foldl f a (flat_map g l) = foldl (λ a c, foldl f a (g c)) a l.
Proof.
  revert a. induction l as [|c l IH]; intros a; simpl; [done|].
  by rewrite foldl_app, IH.
Qed.

Lemma foldl_ext {A B} (f g : A → B → A) (a : A) (l : list B) :
  (∀ a b, f a b = g a b) → ∀ a', a = a' → foldl f a l = foldl g a' l.
Proof.
  intros Hfg a' <-. revert a. induction l as [|b l IH]; intros a; simpl; [done|].
  by rewrite Hfg, IH.
Qed.

Section Blocks.
Context {U : Unicode} {E : Type} {S : Soup E}.

Lemma add_pairs (l : list (E * E)) (data : list (str * str)) :
  foldl Page.add_pair data l
  = foldl assign data (filter (λ kv, kv.1 ≠ [] ∧ kv.2 ≠ []) (map texts_of l)).
Proof.
  revert data. induction l as [|[a b] l IH]; intros data; simpl; [done|].
  rewrite IH. unfold Page.add_pair. cbn [fst snd].
  change (texts_of (a, b)) with (Page.text_of_el a, Page.text_of_el b).
  destruct (Page.text_of_el a) as [|c k].
  { rewrite filter_cons_False; [done|]. by intros [? _]. }
  destruct (Page.text_of_el b) as [|c' v].
  { rewrite filter_cons_False; [done|]. by intros [_ ?]. }
  by rewrite filter_cons_True.
Qed.

Lemma parse_label_value_blocks_assigns (soup : E) :
  Page.parse_label_value_blocks soup = foldl assign [] (label_value_texts soup).
Proof.
  unfold Page.parse_label_value_blocks, label_value_texts, label_value_elements.
  rewrite map_app, filter_app, foldl_app.
  rewrite <- !add_pairs, !foldl_flat_map.
  apply foldl_ext.
  - intros data table. rewrite foldl_flat_map.
    apply foldl_ext; [|done]. intros data' tr.
    by destruct (find_all tr _) as [|a [|b [|c l]]].
  - apply foldl_ext; [|done]. intros data dl. by destruct (_ && _).
Qed.
End Blocks.

(** ** The links of a listing *)

Section Discovery.
Context {U : Unicode} {E : Type} {S : Soup E}.
Variable base_url : str.

Lemma discover_step_spec (a : E) (st : list ProfileLink * gset str) :
  seen_are_links st →
  seen_are_links (Page.discover_step base_url st a)
  ∧ (∃ added, (Page.discover_step base_url st a).1 = st.1 ++ added
              ∧ Forall (link_of base_url a) added)
  ∧ (Page.is_person_link a base_url = true →
     looks_like_human_name (Page.card_name a) = true →
     target base_url a ∈ link_url <$> (Page.discover_step base_url st a).1).
Proof.
  intros [Hnd Hseen]. unfold Page.discover_step.
  fold (target base_url a).
  destruct (Page.is_person_link a base_url) eqn:Hp; cbn [negb fst snd].
  2:{ split; [done|]. split; [|done]. exists []. by rewrite app_nil_r. }
  case_bool_decide as Hin.
  { split; [done|]. split; [exists []; by rewrite app_nil_r|].
    intros _ _. by apply Hseen. }
  destruct (looks_like_human_name (Page.card_name a)) eqn:Hh; cbn [negb fst snd].
  2:{ split; [done|]. split; [|done]. exists []. by rewrite app_nil_r. }
  unfold seen_are_links. cbn [fst snd]. split; [|split].
  - split.
    + rewrite fmap_app. apply NoDup_app. split; [done|].
      split; [|apply NoDup_singleton].
      intros u Hu ->%list_elem_of_singleton. by apply Hin, Hseen.
    + intros u. rewrite elem_of_union, elem_of_singleton, fmap_app, elem_of_app, Hseen.
      cbn [fmap list_fmap link_url]. rewrite list_elem_of_singleton. tauto.
  - eexists. split; [done|]. by apply Forall_singleton.
  - intros _ _. rewrite fmap_app, elem_of_app. right. by left.
Qed.

Lemma discover_steps (anchors : list E) (st : list ProfileLink * gset str) :
  seen_are_links st →
  seen_are_links (foldl (Page.discover_step base_url) st anchors)
  ∧ (∃ added, (foldl (Page.discover_step base_url) st anchors).1 = st.1 ++ added
              ∧ Forall (λ p, ∃ a, a ∈ anchors ∧ link_of base_url a p) added)
  ∧ (∀ a, a ∈ anchors →
       Page.is_person_link a base_url = true →
       looks_like_human_name (Page.card_name a) = true →
       target base_url a ∈ link_url <$> (foldl (Page.discover_step base_url) st anchors).1).
Proof.
  revert st. induction anchors as [|a anchors IH]; intros st Hst; cbn [foldl].
  { split; [done|]. split; [exists []; by rewrite app_nil_r|]. by intros a Ha%elem_of_nil. }
  destruct (discover_step_spec a st Hst) as (Hst1 & (add1 & Heq1 & Hall1) & Hin1).
  destruct (IH _ Hst1) as (Hst2 & (add2 & Heq2 & Hall2) & Hin2).
  split; [done|]. split.
  - exists (add1 ++ add2). rewrite Heq2, Heq1, app_assoc. split; [done|].
    apply Forall_app. split.
    + eapply Forall_impl; [exact Hall1|]. intros p Hp. exists a. split; [by left|done].
    + eapply Forall_impl; [exact Hall2|]. intros p (a' & Ha' & Hp). exists a'.
      split; [by right|done].
  - intros a' [->|Ha']%elem_of_cons Hp Hh; [|by apply Hin2].
    rewrite Heq2, fmap_app, elem_of_app. left. by apply Hin1.
Qed.

Lemma card_name_length (a : E) : (length (Page.card_name a) ≤ 80)%nat.
Proof. apply tidy_title_name_length. Qed.

Lemma is_person_link_href (a : E) :
  Page.is_person_link a base_url = true →
  ∃ h, get_href a = Some h ∧ h ≠ [] ∧ startswith h (py "#") = false
       ∧ existsb (λ k, contains (lower (url_path (soup_urljoin base_url h))) k)
                 NON_PERSON_KEYWORDS = false
       ∧ (2 ≤ length (Page.text_of_el a))%nat.
Proof.
  unfold Page.is_person_link.
  destruct (get_href a) as [h|]; cbn [from_option id nonempty negb orb]; [|done].
  destruct h as [|c h]; [done|]. cbn [nonempty negb orb].
  destruct (startswith (c :: h) (py "#")) eqn:Hs; cbv beta iota; [done|].
  destruct (existsb _ NON_PERSON_KEYWORDS) eqn:Hk; cbv beta iota; [done|].
  match goal with |- context [negb ?x || ?y] => destruct (negb x || y) eqn:Ht end;
    cbv beta iota; [done|].
  intros _. exists (c :: h). split; [done|]. split; [done|]. split; [done|].
  split; [done|].
  apply orb_false_elim in Ht as [_ Ht]. by apply Nat.ltb_ge in Ht.
Qed.
End Discovery.

(** ** Cutting a title *)

Lemma anchored_matches r w rest :
  matches r w rest → anchored r = true → at_end rest = true.
Proof.
  induction 1 as [rest|p c rest Hp|r1 r2 w1 w2 rest H1 IH1 H2 IH2|r1 r2 w rest H1 IH1
                  |r1 r2 w rest H2 IH2|r w rest H1 IH1|r rest|p lo hi w rest Hall Hlo Hhi|rest He];
    simpl; try done.
  - intros [Ha|[Ha He]%andb_prop]%orb_prop; [by apply IH2|].
    destruct r2; try done. inversion H2; subst. by apply IH1.
  - intros [Ha _]%andb_prop. by apply IH1.
  - intros [_ Ha]%andb_prop. by apply IH2.
Qed.

Lemma single_spaced_no_newline (s : str) :
  single_spaced s → Forall (λ c, notnl c = true) s.
Proof.
  intros Hs. apply Forall_forall. intros c Hin.
  apply list_elem_of_split in Hin as (pre & rest & ->).
  unfold notnl. destruct (N.eqb_spec c 10) as [->|]; [|done].
  by destruct (Hs pre 10 rest eq_refl eq_refl) as [? _].
Qed.

(** Deleting the matches of a pattern that ends with [$] in a text of one
    line cuts the text at the first match. *)
Lemma sub_anchored (r : re) (s : str) :
  anchored r = true → Forall (λ c, notnl c = true) s → sub r [] s `prefix_of` s.
Proof.
  intros Hr. unfold sub. induction s as [|c s IH]; intros Hs; [done|].
  apply Forall_cons in Hs as [Hc Hs]. cbn [scan].
  destruct (match_here r (c :: s)) as [[[|c' m] rest]|] eqn:Hm.
  - cbn [flat_map]. apply prefix_cons. by apply IH.
  - apply match_here_sound in Hm as [Heq Hm]. apply anchored_matches in Hm; [|done].
    assert (rest = []) as ->.
    { destruct rest as [|d [|? ?]]; [done| |done]. simpl in Hm.
      apply N.eqb_eq in Hm as ->.
      assert (Hin : 10 ∈ c :: s) by (rewrite Heq; apply elem_of_app; right; by left).
      apply elem_of_cons in Hin as [<-|Hin]; [done|].
      rewrite Forall_forall in Hs. by specialize (Hs _ Hin). }
    rewrite app_nil_r in Heq. injection Heq as _ ->.
    rewrite scan_skip by done. cbn [flat_map]. apply prefix_nil.
  - cbn [flat_map]. apply prefix_cons. by apply IH.
Qed.

Lemma pieces_head (r : re) (s cur : str) :
  ∃ p, head (pieces false (scan r 0 s) cur) = Some (cur ++ p) ∧ p `prefix_of` s.
Proof.
  revert cur. induction s as [|c s IH]; intros cur.
  - exists []. by rewrite app_nil_r.
  - cbn [scan].
    destruct (match_here r (c :: s)) as [[[|c' m] rest]|] eqn:Hm; cbn [pieces].
    + destruct (IH (cur ++ [c])) as (p & -> & Hp). exists (c :: p).
      rewrite <- app_assoc. split; [done|]. by apply prefix_cons.
    + exists []. rewrite app_nil_r. split; [done|]. apply prefix_nil.
    + destruct (IH (cur ++ [c])) as (p & -> & Hp). exists (c :: p).
      rewrite <- app_assoc. split; [done|]. by apply prefix_cons.
Qed.

Lemma first_piece_prefix (r : re) (s : str) : first_piece r s `prefix_of` s.
Proof.
  unfold first_piece, split. by destruct (pieces_head r s []) as (p & -> & Hp).
Qed.

Lemma strip_prefix (s : str) :
  (∀ c, head s = Some c → is_space c = false) → strip s `prefix_of` s.
Proof.
  intros Hh. unfold strip. rewrite (lstrip_id s Hh).
  destruct (lstrip_spec (reverse s)) as (w & Hs & _).
  exists (reverse w). by rewrite <- reverse_app, <- Hs, reverse_involutive.
Qed.

Lemma prefix_head (p s : str) c :
  p `prefix_of` s → head p = Some c → head s = Some c.
Proof. intros [k ->]. by destruct p. Qed.

Lemma prefix_Forall (P : N → Prop) (p s : str) :
  p `prefix_of` s → Forall P s → Forall P p.
Proof. intros [k ->] Hs. by apply Forall_app in Hs as [? _]. Qed.

Lemma collapsed_head (t : str) c :
  head (sub sp1 (py " ") (strip t)) = Some c → is_space c = false.
Proof.
  destruct (strip_spec t) as (_ & _ & _ & _ & _ & Hh & _).
  destruct (collapse_spec (strip t)) as (_ & Hc & Hn).
  destruct (strip t) as [|d s] eqn:Hs.
  - by rewrite Hn.
  - rewrite (Hc d eq_refl (Hh d eq_refl)). intros [= <-]. by apply Hh.
Qed.

Lemma tidy_title_name_prefix (t : str) :
  tidy_title_name t `prefix_of` sub sp1 (py " ") (strip t).
Proof.
  unfold tidy_title_name.
  set (t1 := sub sp1 (py " ") (strip t)).
  set (t2 := strip (first_piece TITLE_SEPARATOR t1)).
  set (t3 := sub DEPARTMENT_TAIL [] t2).
  set (t4 := sub UNIVERSITY_TAIL [] t3).
  set (t5 := if found (Chr is_cjk) t4 then first_piece (Chr name_break) t4 else t4).
  assert (H1 : Forall (λ c, notnl c = true) t1).
  { apply single_spaced_no_newline, collapse_spec. }
  assert (H12 : t2 `prefix_of` t1).
  { etrans; [|apply first_piece_prefix]. apply strip_prefix.
    intros c Hc. apply (collapsed_head t).
    eapply prefix_head; [apply first_piece_prefix|done]. }
  assert (H23 : t3 `prefix_of` t2).
  { apply sub_anchored; [done|]. by eapply prefix_Forall. }
  assert (H34 : t4 `prefix_of` t3).
  { apply sub_anchored; [done|]. eapply prefix_Forall; [exact H23|].
    by eapply prefix_Forall. }
  assert (H45 : t5 `prefix_of` t4).
  { subst t5. destruct (found _ t4); [apply first_piece_prefix|done]. }
  destruct (_ && _); [|apply prefix_nil].
  etrans; [exact H45|]. etrans; [exact H34|]. by etrans.
Qed.

(** ** Titles that are names *)

Lemma scan_no_match r s :
  (∀ pre m rest, s = pre ++ m ++ rest → m ≠ [] → ¬ matches r m rest) →
  scan r 0 s = inl <$> s.
Proof.
  induction s as [|c s IH]; intros Hno; [done|]. cbn [scan].
  destruct (match_here r (c :: s)) as [[[|c' m] rest]|] eqn:Hm.
  - cbn [fmap list_fmap]. f_equal. apply IH. intros pre m rest' -> Hne.
    by apply (Hno (c :: pre)).
  - apply match_here_sound in Hm as [Heq Hm]. exfalso.
    apply (Hno [] (c' :: m) rest); done.
  - cbn [fmap list_fmap]. f_equal. apply IH. intros pre m rest' -> Hne.
    by apply (Hno (c :: pre)).
Qed.

Lemma first_piece_no_match r s :
  (∀ pre m rest, s = pre ++ m ++ rest → m ≠ [] → ¬ matches r m rest) →
  first_piece r s = s.
Proof.
  intros Hno. unfold first_piece, split.
  rewrite (scan_no_match r s Hno), pieces_inl. reflexivity.
Qed.

Lemma collapse_id (t : str) : single_spaced t → sub sp1 (py " ") t = t.
Proof.
  induction t as [|c t IH]; intros Hs; [done|].
  assert (Ht : single_spaced t).
  { apply (single_spaced_infix [c] t []). by rewrite app_nil_r. }
  destruct (is_space c) eqn:Hc.
  - destruct (Hs [] c t eq_refl Hc) as [-> Hd].
    change (32 :: t) with ([32] ++ t).
    rewrite sub_match; [by rewrite IH|done|]. by apply sp1_match_here; [|constructor|].
  - rewrite sub_pass; [by rewrite IH|]. intros m rest. by apply sp1_no_match.
Qed.

Lemma title_separator_mark m rest :
  matches TITLE_SEPARATOR m rest → ∃ c, c ∈ m ∧ title_mark c = true.
Proof.
  unfold TITLE_SEPARATOR, sp1, Plus. cbn [alt cat foldr]. intros Hm.
  invert_matches; eexists; (split; [apply elem_of_app; right; by left|done]).
Qed.

Lemma department_tail_mark m rest :
  matches DEPARTMENT_TAIL m rest → ∃ c, c ∈ m ∧ title_mark c = true.
Proof.
  unfold DEPARTMENT_TAIL. cbn [cat foldr].
  inversion 1 as [| |r1 r2 w1 w2 rest' H1 H2| | | | | |]; subst.
  inversion H1 as [|p c rest' Hc| | | | | | |]; subst.
  exists c. split; [by left|]. cbv beta in Hc.
  rewrite !orb_true_iff in Hc.
  destruct Hc as [[Hc|Hc]|Hc]; apply N.eqb_eq in Hc; subst c; by vm_compute.
Qed.

Lemma university_tail_word m rest :
  matches UNIVERSITY_TAIL m rest → contains_ci m (py "university") = true.
Proof.
  unfold UNIVERSITY_TAIL. cbn [cat foldr].
  inversion 1 as [| |r1 r2 w1 w2 rest1 H1 H2| | | | | |]; subst.
  inversion H2 as [| |r1 r2 w3 w4 rest2 H3 H4| | | | | |]; subst.
  inversion H4 as [| |r1 r2 w5 w6 rest3 H5 H6| | | | | |]; subst.
  apply word_spelled in H5.
  apply contains_ci_spec. exists (w1 ++ w3), w5, w6. by rewrite <- !app_assoc.
Qed.

Lemma contains_ci_infix pre m rest p :
  contains_ci m p = true → contains_ci (pre ++ m ++ rest) p = true.
Proof. intros Hm. by apply contains_ci_app_l, contains_ci_app_r. Qed.

Lemma tidy_title_name_plain (t : str) :
  single_spaced t →
  (∀ c, head t = Some c → is_space c = false) →
  (∀ c, last t = Some c → is_space c = false) →
  Forall (λ c, title_mark c = false) t →
  contains_ci t (py "university") = false →
  (Exists (λ c, is_cjk c = true) t → Forall (λ c, name_break c = false) t) →
  (1 ≤ length t ≤ 80)%nat →
  tidy_title_name t = t.
Proof.
  intros Hs Hh Hl Hm Hu Hc Hlen. unfold tidy_title_name.
  assert (Hno : ∀ pre m rest c, t = pre ++ m ++ rest → c ∈ m → title_mark c = false).
  { intros pre m rest c -> Hin. rewrite Forall_forall in Hm. apply Hm.
    apply elem_of_app. right. apply elem_of_app. by left. }
  rewrite (strip_id t Hh Hl), (collapse_id t Hs).
  rewrite first_piece_no_match, (strip_id t Hh Hl).
  2:{ intros pre m rest Heq _ (c & Hin & Hmk)%title_separator_mark.
      by rewrite (Hno _ _ _ _ Heq Hin) in Hmk. }
  rewrite (sub_no_match DEPARTMENT_TAIL).
  2:{ intros pre m rest Heq _ (c & Hin & Hmk)%department_tail_mark.
      by rewrite (Hno _ _ _ _ Heq Hin) in Hmk. }
  rewrite (sub_no_match UNIVERSITY_TAIL).
  2:{ intros pre m rest -> _ Hw%university_tail_word.
      by rewrite (contains_ci_infix pre m rest _ Hw) in Hu. }
  assert (H5 : (if found (Chr is_cjk) t then first_piece (Chr name_break) t else t) = t).
  { destruct (found (Chr is_cjk) t) eqn:Hf; [|done].
    apply found_chr in Hf. specialize (Hc Hf).
    apply first_piece_no_match. intros pre m rest -> _ Hmt.
    inversion Hmt as [|p c rest' Hb| | | | | | |]; subst.
    rewrite Forall_forall in Hc. rewrite Hc in Hb; [done|].
    apply elem_of_app. right. by left. }
  rewrite H5.
  destruct Hlen as [H1 H2]. apply Nat.leb_le in H1, H2. by rewrite H1, H2.
Qed.

(** ** What the job shows *)

Lemma message_text_head (js_error : str) (m : message) :
  ∃ c, head (message_text js_error m) = Some c ∧ c ≠ ch "C".
Proof.
  destruct m; eexists; (split; [vm_compute; reflexivity|by vm_compute]).
Qed.

Lemma shown_not_complete (js_error : str) (p : Progress) :
  shown js_error (py "Starting scrape…") p ≠ []
  ∧ shown js_error (py "Starting scrape…") p ≠ py "Complete".
Proof.
  unfold shown. destruct (last (messages p)) as [m|]; [|by vm_compute].
  destruct (message_text_head js_error m) as (c & Hh & Hc).
  destruct (message_text js_error m) as [|c' rest]; [done|]. injection Hh as ->.
  split; [done|]. intros Heq. apply Hc.
  by apply (f_equal head) in Heq; vm_compute in Heq; injection Heq.
Qed.

Section Counts.
Context {U : Unicode} {D : Dom} {C T : Type} {Cl : Client C} {Tr : Translator T}.

Lemma add_rows_counts site_rows uni max te (st : Scrape C T) :
  visited_count (s_progress (add_rows site_rows uni max te st))
  = visited_count (s_progress st)
  ∧ (length (rows (add_rows site_rows uni max te st))
     ≤ length (rows st) + length site_rows)%nat.
Proof.
  revert st. induction site_rows as [|r rest IH]; intros st; cbn [add_rows].
  - split; [done|lia].
  - destruct (maybe_translate te (s_translator st) (r_name r)) as [t1 nm].
    destruct (maybe_translate te t1 (r_research_area r)) as [t2 rs].
    cbn [rows s_progress s_client s_translator].
    destruct (reached max _).
    + cbn [rows s_progress]. split; [done|]. rewrite length_app. simpl. lia.
    + match goal with |- context [add_rows rest uni max te ?s] =>
        destruct (IH s) as [Hv Hl] end.
      cbn [rows s_progress] in Hv, Hl. rewrite length_app in Hl. simpl in Hl |- *.
      split; [done|lia].
Qed.

(** The rows made are no more than the results counted in "visited". *)
Lemma each_site_counts sites uni_label max te (st st' : Scrape C T) :
  each_site sites uni_label max te st = Some st' →
  (length (rows st') + visited_count (s_progress st)
   ≤ length (rows st) + visited_count (s_progress st'))%nat.
Proof.
  revert st. induction sites as [|site rest IH]; intros st; cbn [each_site].
  - intros [= <-]. lia.
  - destruct (negb (nonempty (strip site)) || _); [by apply IH|].
    destruct (process_site_kept (s_client st) (strip site) max (s_progress st))
      as (cr & d & -> & _ & _ & _ & _ & Hv & _).
    match goal with |- context [add_rows ?a ?b ?c ?d ?e] =>
      destruct (add_rows_counts a b c d e) as [Hav Hal]; set (st1 := add_rows a b c d e) in *
    end.
    cbn [rows s_progress] in Hav, Hal. clearbody st1.
    destruct (reached max _).
    + intros [= <-]. lia.
    + intros He. apply IH in He. lia.
Qed.

Lemma scrape_sites_counts (c : C) (t : T) sites uni_label max te pr rws pr' :
  scrape_sites c t sites uni_label max te pr = Some (rws, pr') →
  (length rws + visited_count pr ≤ visited_count pr')%nat
  ∧ Forall (λ row, email row ≠ []) rws.
Proof.
  unfold scrape_sites.
  match goal with |- context [each_site _ _ _ _ ?s] =>
    destruct (each_site_rows sites uni_label max te s) as (st' & added & He & Hr & Hf);
    pose proof (each_site_counts sites uni_label max te s st' He) as Hc
  end.
  rewrite He. intros [= <- <-]. cbn [rows s_progress app] in Hr, Hc.
  pose proof (sublist_length _ _ (dedup_sublist ∅ (rows st'))) as Hlen.
  split; [cbn [rows s_progress length visited_count set_done] in Hc |- *; lia|].
  apply Forall_forall. intros row Hin.
  eapply elem_of_sublist in Hin; [|apply dedup_sublist].
  rewrite Hr in Hin. rewrite Forall_forall in Hf.
  destruct (Hf row Hin) as (site & res & _ & _ & [Hne _] & (_ & _ & Hem & _) & _).
  by rewrite Hem.
Qed.
End Counts.

(* ===================================================================== *)
(** * Further properties                                                   *)
(* ===================================================================== *)

(** X1. Whatever [normalize_email] returns has the shape of an address: a
    non-empty local part of letters, digits and [._%+-], one [@], a
    non-empty domain of letters, digits, dots and hyphens, a dot and a
    top-level name of 2 to 24 letters; it splits at its [@]. *)
Theorem normalize_email_result_shape {U : Unicode} (text e : str) :
  normalize_email text = Some e →
  well_formed e
  ∧ ∃ local domain, split_first (ch "@") e = Some (local, domain) ∧ local ≠ [] ∧ domain ≠ [].
Proof.
  intros He%normalize_email_well_formed. split; [done|]. by apply well_formed_split.
Qed.

Lemma normalize_email_result_shape_witness :
  @normalize_email ascii_unicode (py "j.smith [at] cs.example.edu")
    = Some (py "j.smith@cs.example.edu")
  ∧ well_formed (py "j.smith@cs.example.edu")
  ∧ ∃ local domain,
      split_first (ch "@") (py "j.smith@cs.example.edu") = Some (local, domain)
      ∧ local ≠ [] ∧ domain ≠ [].
Proof.
  assert (He : @normalize_email ascii_unicode (py "j.smith [at] cs.example.edu")
               = Some (py "j.smith@cs.example.edu")) by (vm_compute; reflexivity).
  split; [exact He|].
  exact (@normalize_email_result_shape ascii_unicode _ _ He).
Defined.

(** X2. [extract_emails] returns pairwise distinct addresses, each of the
    shape local@domain.tld. *)
Theorem extract_emails_distinct_and_shaped {U : Unicode} (text : str) :
  NoDup (extract_emails text)
  ∧ ∀ e, e ∈ extract_emails text →
      well_formed e
      ∧ ∃ local domain, split_first (ch "@") e = Some (local, domain)
                        ∧ local ≠ [] ∧ domain ≠ [].
Proof.
  destruct (extract_emails_spec text) as [Hn Hw]. split; [done|].
  intros e He%Hw. split; [done|]. by apply well_formed_split.
Qed.

(** X4. [strip_trailing_punct] cuts whitespace from the start of its
    argument and a run of whitespace and of the marks [，,；;。、] from its
    end, and nothing else; what it returns neither starts with whitespace
    nor ends with whitespace or one of these marks; applied to its own
    result it changes nothing. *)
Theorem strip_trailing_punct_normal_form (s : str) :
  (∃ w1 w2, s = w1 ++ strip_trailing_punct s ++ w2
            ∧ Forall (λ c, is_space c = true) w1 ∧ Forall (λ c, trailing c = true) w2)
  ∧ trimmed (strip_trailing_punct s)
  ∧ strip_trailing_punct (strip_trailing_punct s) = strip_trailing_punct s.
Proof.
  destruct (strip_trailing_punct_cut s) as (w1 & w2 & Hs & Hw1 & Hw2 & Ht).
  split; [by exists w1, w2|]. split; [done|]. by apply strip_trailing_punct_trimmed.
Qed.

(** X5. The text [text_of] makes of an element's text has single spaces
    (U+0020) as its only whitespace, none next to another, none at its start
    or its end, and does not end with one of the marks [，,；;。、]. *)
Theorem text_of_normal_form (raw : str) :
  single_spaced (text_of raw) ∧ trimmed (text_of raw).
Proof.
  unfold text_of. set (t := replace _ _ raw).
  destruct (strip_trailing_punct_cut (sub sp1 (py " ") t)) as (w1 & w2 & Hs & _ & _ & Ht).
  split; [|done]. apply (single_spaced_infix w1 _ w2). rewrite <- Hs.
  apply collapse_spec.
Qed.

Lemma lit_ci_exact l c : is_lower l = false → lit_ci l c = true → c = l.
Proof.
  unfold lit_ci. intros ->. rewrite andb_false_l, orb_false_r. by intros ->%N.eqb_eq.
Qed.

Lemma contains_ci_at s : contains_ci s (py "@") = true ↔ ch "@" ∈ s.
Proof.
  rewrite contains_ci_spec. change (py "@") with [ch "@"]. split.
  - intros (pre & x & rest & -> & Hx).
    inversion Hx as [|l c p x' Hl Hx']; subst. inversion Hx'; subst.
    apply lit_ci_exact in Hl as ->; [|done].
    apply elem_of_app. right. left.
  - intros (pre & rest & ->)%list_elem_of_split. exists pre, [ch "@"], rest.
    split; [done|]. by repeat constructor.
Qed.

Lemma found_address_marks name :
  found (alt (Lit (ch "@")) (map (word true) [".com";".edu";".cn"]%string)) name = true
  ↔ ∃ w, w ∈ address_marks ∧ contains_ci name (py w) = true.
Proof.
  rewrite found_alts. split.
  - intros (r & [->|Hin]%elem_of_cons & Hf).
    + exists "@"%string. split; [left|]. by apply contains_ci_at, found_lit.
    + apply list_elem_of_fmap in Hin as (w & -> & Hin). exists w.
      split; [by right|]. by rewrite <- found_word.
  - intros (w & [->|Hin]%elem_of_cons & Hc).
    + exists (Lit (ch "@")). split; [left|]. by apply found_lit, contains_ci_at.
    + exists (word true w). split; [|by rewrite found_word].
      right. by apply list_elem_of_fmap_2.
Qed.

Lemma none_contained (ws : list string) name :
  ¬ (∃ w, w ∈ ws ∧ contains_ci name (py w) = true)
  ↔ ∀ w, w ∈ ws → contains_ci name (py w) = false.
Proof.
  split.
  - intros Hno w Hin. apply not_true_is_false. intros Hc. apply Hno. by exists w.
  - intros Hall (w & Hin & Hc). by rewrite (Hall w Hin) in Hc.
Qed.

Lemma looks_like_human_name_spec name :
  looks_like_human_name name = true ↔
    name ≠ []
    ∧ (∀ w, w ∈ navigation_words → contains_ci name (py w) = false)
    ∧ (∀ w, w ∈ address_marks → contains_ci name (py w) = false)
    ∧ (Exists (λ c, is_cjk c = true) name
       ∨ ((2 ≤ length (findall (Plus is_alpha) name))%nat
          ∧ (3 ≤ length (filter (λ c, is_alpha c = true) name))%nat)).
Proof.
  unfold looks_like_human_name.
  rewrite <- !none_contained, <- findall_plus_concat, <- nonempty_spec.
  rewrite <- (found_words "about" (tail navigation_words) name : _ ↔
     ∃ w, w ∈ navigation_words ∧ _).
  rewrite <- found_address_marks, <- found_chr.
  cbn [tail navigation_words].
  destruct (nonempty name), (found (alt (word true "about") _) name),
    (found (alt (Lit (ch "@")) _) name), (found (Chr is_cjk) name);
    cbn [negb]; rewrite ?andb_true_iff, ?Nat.leb_le; try tauto; try intuition congruence.
Qed.

(** X6. [looks_like_human_name] accepts a name exactly when it is not
    empty, contains none of the words about, home, team, list, search, hot,
    institutions, laboratories, page and none of [@], [.com], [.edu], [.cn]
    in any mix of cases, and either has a character in U+4E00..U+9FFF or has
    at least two runs of ASCII letters and three ASCII letters in all.  So
    "Larry Page" is refused. *)
Theorem looks_like_human_name_accepts (name : str) :
  (looks_like_human_name name = true ↔
     name ≠ []
     ∧ (∀ w, w ∈ navigation_words → contains_ci name (py w) = false)
     ∧ (∀ w, w ∈ address_marks → contains_ci name (py w) = false)
     ∧ (Exists (λ c, is_cjk c = true) name
        ∨ ((2 ≤ length (findall (Plus is_alpha) name))%nat
           ∧ (3 ≤ length (filter (λ c, is_alpha c = true) name))%nat)))
  ∧ looks_like_human_name (py "Larry Page") = false.
Proof. split; [apply looks_like_human_name_spec|reflexivity]. Qed.

Section Affinity.
Context {U : Unicode}.

Lemma lower_nil : lower [] = [].
Proof. by rewrite lower_ascii. Qed.

Lemma name_affinity_no_tokens name local :
  Forall (λ c, is_alpha c = false) name → name_affinity name local = 0%nat.
Proof.
  intros Hn. rewrite name_affinity_count. unfold name_tokens.
  by rewrite findall_plus_none.
Qed.

Lemma name_affinity_le name local :
  (name_affinity name local ≤ length (findall (Plus is_alpha) name))%nat.
Proof.
  rewrite name_affinity_count. unfold name_tokens.
  etrans; [apply length_filter|]. by rewrite length_fmap.
Qed.
End Affinity.

(** X7. A name without ASCII letters (a name written in Chinese characters)
    has name affinity 0 with every local part; in general the affinity is at
    most the number of runs of ASCII letters in the name. *)
Theorem name_affinity_without_letters {U : Unicode} (name local : str) :
  Forall (λ c, is_alpha c = false) name →
  name_affinity name local = 0%nat
  ∧ ∀ name', (name_affinity name' local ≤ length (findall (Plus is_alpha) name'))%nat.
Proof.
  intros Hn. split; [by apply name_affinity_no_tokens|].
  intros name'. apply name_affinity_le.
Qed.

Lemma name_affinity_without_letters_witness :
  Forall (λ c, is_alpha c = false) (py "张伟")
  ∧ @name_affinity ascii_unicode (py "张伟") (py "zhang.wei") = 0%nat
  ∧ ∀ name', (@name_affinity ascii_unicode name' (py "zhang.wei")
              ≤ length (findall (Plus is_alpha) name'))%nat.
Proof.
  assert (Hn : Forall (λ c, is_alpha c = false) (py "张伟")) by (repeat constructor).
  split; [exact Hn|].
  exact (@name_affinity_without_letters ascii_unicode (py "张伟") (py "zhang.wei") Hn).
Defined.

(** X3. An address of the shape local@domain.tld that holds no
    obfuscation token comes back as it is: [normalize_email] returns it, and
    [extract_emails] returns it and nothing else. *)
Theorem plain_address_found {U : Unicode} (e : str) :
  plain e = true → well_formed e →
  normalize_email e = Some e ∧ extract_emails e = [e].
Proof.
  intros Hp He. split; [by apply normalize_email_plain|by apply extract_emails_alone].
Qed.

Lemma plain_address_found_witness :
  plain (py "j.smith@cs.example.edu") = true
  ∧ well_formed (py "j.smith@cs.example.edu")
  ∧ @normalize_email ascii_unicode (py "j.smith@cs.example.edu")
    = Some (py "j.smith@cs.example.edu")
  ∧ @extract_emails ascii_unicode (py "j.smith@cs.example.edu")
    = [py "j.smith@cs.example.edu"].
Proof.
  assert (Hp : plain (py "j.smith@cs.example.edu") = true) by reflexivity.
  assert (Hw : well_formed (py "j.smith@cs.example.edu")).
  { exists (py "j.smith"), (py "cs.example"), (py "edu").
    split; [reflexivity|]. split; [done|]. split; [by repeat constructor|].
    split; [done|]. split; [by repeat constructor|]. split; [by repeat constructor|].
    simpl. lia. }
  split; [exact Hp|]. split; [exact Hw|].
  exact (@plain_address_found ascii_unicode (py "j.smith@cs.example.edu") Hp Hw).
Defined.

(** X8. [process_site] returns at most one result for a profile URL, and
    every result belongs to a profile it has announced as opened.  The name
    of a result passes [looks_like_human_name]; its name, school and
    research area neither start with whitespace nor end with whitespace or
    one of the marks [，,；;。、]; its email has the shape local@domain.tld. *)
Theorem process_site_results_are_profiles
    {U : Unicode} {D : Dom} {C : Type} {Cl : Client C}
    (c : C) (site : str) (max_profiles : option Z) (pr : Progress) :
  ∃ cr delta,
    process_site c site max_profiles pr = Some cr
    ∧ messages (progress cr) = messages pr ++ delta
    ∧ NoDup (r_profile_url <$> results cr)
    ∧ Forall (λ res,
        r_profile_url res ∈ opens delta
        ∧ looks_like_human_name (r_name res) = true
        ∧ trimmed (r_name res) ∧ trimmed (r_school res) ∧ trimmed (r_research_area res)
        ∧ well_formed (r_email res)) (results cr).
Proof.
  destruct (process_site_kept c site max_profiles pr)
    as (cr & delta & Hcr & Hm & Hsub & Hnd & Hp & _).
  exists cr, delta. split; [done|]. split; [done|].
  split; [by eapply sublist_NoDup|].
  apply Forall_forall. intros res Hin. split.
  - eapply elem_of_sublist; [|exact Hsub]. by apply list_elem_of_fmap_2.
  - rewrite Forall_forall in Hp.
    destruct (parsed_fields _ _ (Hp res Hin)) as (? & ? & ? & ? & ? & _). done.
Qed.

(** X9. [process_site] adds to the "visited" counter the number of results
    it returns; with a cap [max_profiles] it returns no more results than
    the cap, none when the cap is zero or less. *)
Theorem process_site_honours_cap
    {U : Unicode} {D : Dom} {C : Type} {Cl : Client C}
    (c : C) (site : str) (pr : Progress) :
  (∀ max_profiles, ∃ cr,
      process_site c site max_profiles pr = Some cr
      ∧ visited_count (progress cr) = (visited_count pr + length (results cr))%nat)
  ∧ (∀ m : Z, ∃ cr,
      process_site c site (Some m) pr = Some cr
      ∧ (length (results cr) ≤ Z.to_nat m)%nat).
Proof.
  split.
  - intros max_profiles.
    destruct (process_site_kept c site max_profiles pr) as (cr & d & Hcr & _ & _ & _ & _ & Hv & _).
    by exists cr.
  - intros m.
    destruct (process_site_kept c site (Some m) pr) as (cr & d & Hcr & _ & _ & _ & _ & _ & Hc).
    exists cr. split; [done|]. specialize (Hc m eq_refl). lia.
Qed.

(** X11. Every row [scrape_sites] returns comes from a site of the list
    that starts, once stripped, with http:// or https:// in any mix of
    cases.  Its university is the given label, or what is inferred from the
    site's URL when the label is empty; its school is trimmed and its email
    has the shape local@domain.tld; and without translation its name passes
    [looks_like_human_name] and its name and research area are trimmed.  The
    "done" flag is set. *)
Theorem scrape_sites_rows_come_from_sites
    {U : Unicode} {D : Dom} {C T : Type} {Cl : Client C} {Tr : Translator T}
    (c : C) (t : T) (sites : list str) (uni_label : str) (max_profiles : option Z)
    (translate_en : bool) (pr : Progress) :
  ∃ rws pr',
    scrape_sites c t sites uni_label max_profiles translate_en pr = Some (rws, pr')
    ∧ done pr' = true
    ∧ Forall (λ row, ∃ site,
        site ∈ sites ∧ crawlable site
        ∧ university row = (if nonempty uni_label then uni_label
                            else infer_university_from_url (strip site))
        ∧ trimmed (school row) ∧ well_formed (email row)
        ∧ (translate_en = false →
             looks_like_human_name (name row) = true
             ∧ trimmed (name row) ∧ trimmed (research_area row))) rws.
Proof.
  unfold scrape_sites.
  match goal with |- context [each_site _ _ _ _ ?s] =>
    destruct (each_site_rows sites uni_label max_profiles translate_en s)
      as (st' & added & -> & Hr & Hf) end.
  simpl in Hr. eexists _, _. split; [done|]. split; [done|].
  rewrite Hr. apply Forall_forall. intros row Hin.
  eapply elem_of_sublist in Hin; [|apply dedup_sublist].
  rewrite Forall_forall in Hf.
  destruct (Hf row Hin) as (site & res & Hs & Hc & Hp & (Hu & Hsc & He & _) & Hn & Hra).
  destruct (parsed_fields _ _ Hp) as (Hh & Htn & Hts & Htr & Hw & _).
  exists site. rewrite Hu, Hsc, He.
  split; [done|]. split; [done|]. split; [done|]. split; [done|]. split; [done|].
  intros Hte.
  destruct Hn as [->|(Hte' & _)]; [|congruence].
  destruct Hra as [->|(Hte' & _)]; [|congruence]. done.
Qed.

(** X12. With a cap [max_profiles], [scrape_sites] returns no more rows than
    the cap over all sites together, none when the cap is zero or less. *)
Theorem scrape_sites_honours_cap
    {U : Unicode} {D : Dom} {C T : Type} {Cl : Client C} {Tr : Translator T}
    (c : C) (t : T) (sites : list str) (uni_label : str) (m : Z)
    (translate_en : bool) (pr : Progress) :
  ∃ rws pr',
    scrape_sites c t sites uni_label (Some m) translate_en pr = Some (rws, pr')
    ∧ (length rws ≤ Z.to_nat m)%nat.
Proof.
  unfold scrape_sites.
  match goal with |- context [each_site _ _ _ _ ?s] =>
    destruct (each_site_rows sites uni_label (Some m) translate_en s)
      as (st' & added & He & _);
    pose proof (each_site_cap sites uni_label m translate_en s st' (or_intror eq_refl) He)
      as Hcap
  end.
  rewrite He. eexists _, _. split; [done|].
  pose proof (sublist_length _ _ (dedup_sublist ∅ (rows st'))) as Hlen. lia.
Qed.

(** X13. A site that, once stripped, does not start with http:// or
    https:// is passed over: when no site of the list does, [scrape_sites]
    returns no row and only sets the "done" flag, and the loop over the
    sites leaves the client, the translator and the messages as they
    were. *)
Theorem scrape_sites_skips_other_sites
    {U : Unicode} {D : Dom} {C T : Type} {Cl : Client C} {Tr : Translator T}
    (c : C) (t : T) (sites : list str) (uni_label : str) (max_profiles : option Z)
    (translate_en : bool) (pr : Progress) :
  (∀ site, site ∈ sites → ¬ crawlable site) →
  scrape_sites c t sites uni_label max_profiles translate_en pr = Some ([], set_done pr)
  ∧ ∀ st : Scrape C T, each_site sites uni_label max_profiles translate_en st = Some st.
Proof.
  intros Hno. split; [|intros st; by apply each_site_skips].
  unfold scrape_sites. by rewrite each_site_skips.
Qed.

Lemma scrape_sites_skips_other_sites_witness :
  let sites := [py "ftp://example.edu/people"; py "  "; py "example.edu/people"] in
  (∀ site, site ∈ sites → ¬ @crawlable ascii_unicode site)
  ∧ @scrape_sites ascii_unicode Demo.dom unit unit Demo.http Demo.identity
      tt tt sites [] None false Demo.start = Some ([], set_done Demo.start)
  ∧ ∀ st : Scrape unit unit,
      @each_site ascii_unicode Demo.dom unit unit Demo.http Demo.identity
        sites [] None false st = Some st.
Proof.
  intros sites.
  assert (Hno : ∀ site, site ∈ sites → ¬ @crawlable ascii_unicode site).
  { intros site Hin. unfold crawlable. rewrite <- !startswith_prefix.
    repeat (apply elem_of_cons in Hin as [->|Hin]); [| | |by apply elem_of_nil in Hin];
      vm_compute; intuition congruence. }
  split; [exact Hno|].
  exact (@scrape_sites_skips_other_sites ascii_unicode Demo.dom unit unit Demo.http
           Demo.identity tt tt sites [] None false Demo.start Hno).
Defined.

(** X10. [process_site] calls [fetch] for a URL only right after
    [allowed_by_robots] has said yes for that URL, and after every yes it
    fetches: the calls it makes on the client are a sequence of refused
    questions and of pairs of a granted question and the fetch. *)
Theorem process_site_asks_robots_first
    {U : Unicode} {D : Dom} {C : Type} {Cl : Client C}
    (c : C) (site : str) (max_profiles : option Z) (pr : Progress) :
  ∃ cr,
    @process_site U D (C * list call) recording_client (c, []) site max_profiles pr = Some cr
    ∧ polite (snd (client cr))
    ∧ ∀ pre url post, snd (client cr) = pre ++ Fetched url :: post →
        ∃ pre', pre = pre' ++ [Asked url true].
Proof.
  destruct (process_site_politely c [] site max_profiles pr) as (cr & delta & Hcr & Hc & Hp).
  exists cr. simpl in Hc. rewrite Hc. split; [done|]. split; [done|].
  intros pre url post. by apply polite_fetched.
Qed.

(** X14. Once [TranslatorWrapper.translate] has returned something other
    than its text, it returns the same for that text and target ever after,
    whatever is translated in between, and these later calls change nothing:
    not the cache, and not the state of the translation library, which they
    do not call. *)
Theorem translate_answers_from_cache {B : Type} {Bk : Backend B}
    (tw tw1 : TranslatorWrapper B) (text target out : str) (calls : list (str * str)) :
  translate_to tw text target = (tw1, out) → out ≠ text →
  translate_to (translate_all tw1 calls) text target = (translate_all tw1 calls, out).
Proof. apply translate_to_again. Qed.

Lemma translate_answers_from_cache_witness :
  let tw := @new_translator unit (Some googletrans) tt in
  let tw1 := fst (@translate_to unit Phrasebook.backend tw (py "张伟") (py "en")) in
  let calls := [(py "李娜", py "en"); ([], py "en")] in
  @translate_to unit Phrasebook.backend tw (py "张伟") (py "en") = (tw1, py "Zhang Wei")
  ∧ py "Zhang Wei" ≠ py "张伟"
  ∧ @translate_to unit Phrasebook.backend
      (@translate_all unit Phrasebook.backend tw1 calls) (py "张伟") (py "en")
    = (@translate_all unit Phrasebook.backend tw1 calls, py "Zhang Wei").
Proof.
  intros tw tw1 calls.
  assert (H1 : @translate_to unit Phrasebook.backend tw (py "张伟") (py "en")
               = (tw1, py "Zhang Wei")) by reflexivity.
  assert (H2 : py "Zhang Wei" ≠ py "张伟") by discriminate.
  split; [exact H1|]. split; [exact H2|].
  exact (@translate_answers_from_cache unit Phrasebook.backend tw tw1
           (py "张伟") (py "en") (py "Zhang Wei") calls H1 H2).
Defined.

(** X15. [TranslatorWrapper.translate] returns its text unchanged, and
    changes nothing, when the text is empty or no translation library is
    there.  For a text that is not in the cache it asks the library: when
    the call raises it returns the text and leaves the cache as it is, and
    when the call answers it returns the answer and caches it under
    [(text, "auto", target)].  In every case what it returns is its text or
    is in the cache when it returns; the cache only grows and the mode
    stays. *)
Theorem translate_falls_back_to_text {B : Type} {Bk : Backend B}
    (tw : TranslatorWrapper B) (text target : str) :
  (text = [] ∨ tw_mode tw = None → translate_to tw text target = (tw, text))
  ∧ (∀ m, tw_mode tw = Some m → text ≠ [] →
       cache tw !! (text, py "auto", target) = None →
       let res := match m with
                  | googletrans => gt_translate (backend tw) text target
                  | deep => deep_translate (backend tw) text
                  end in
       backend (fst (translate_to tw text target)) = fst res
       ∧ (snd res = None →
            snd (translate_to tw text target) = text
            ∧ cache (fst (translate_to tw text target)) = cache tw)
       ∧ (∀ out, snd res = Some out →
            snd (translate_to tw text target) = out
            ∧ cache (fst (translate_to tw text target))
              = <[(text, py "auto", target) := out]> (cache tw)))
  ∧ (snd (translate_to tw text target) = text
     ∨ cache (fst (translate_to tw text target)) !! (text, py "auto", target)
       = Some (snd (translate_to tw text target)))
  ∧ cache tw ⊆ cache (fst (translate_to tw text target))
  ∧ tw_mode (fst (translate_to tw text target)) = tw_mode tw.
Proof.
  split; [apply translate_to_idle|]. split.
  { intros m Hm Ht Hc res. rewrite (translate_to_miss tw text target m Hm Ht Hc).
    fold res. destruct (snd res) as [out|]; cbn [fst snd cache backend].
    - split; [done|]. split; [done|]. by intros ? [= <-].
    - split; [done|]. split; [done|]. by intros ? [=]. }
  split; [destruct (translate_to_result tw text target) as [?|(_ & _ & ?)]; [by left|by right]|].
  destruct (translate_to_keeps tw text target) as [Hm Hc]. done.
Qed.

(** X16. [HttpClient.fetch] returns [None] for a URL that
    [allowed_by_robots] refuses, and asks nothing more of the network than
    that check did.  For a URL that is allowed, a GET that answers 200 with
    a non-empty text is returned as it is, without the browser; in every
    other case the answer is that of [fetch_js], which asks the browser when
    [_js] is [True] and gives [None] otherwise.  So a text it returns is the
    non-empty text of a GET that answered 200, or, the GET having given no
    such text, the page rendered by the browser. *)
Theorem http_fetch_obeys_robots {W P : Type} {Nt : Net W P}
    (c : HttpClient W P) (url : str) :
  let c1 := fst (http_allowed_by_robots c url) in
  let got := http_get (world c1) url in
  (snd (http_allowed_by_robots c url) = false → http_fetch c url = (c1, None))
  ∧ (snd (http_allowed_by_robots c url) = true →
     (∀ text, snd got = Some (200%Z, text) → text ≠ [] →
        http_fetch c url = (on_world (fst got) c1, Some text))
     ∧ ((∀ t, snd got = Some (200%Z, t) → t = []) →
        http_fetch c url = fetch_js (on_world (fst got) c1) url
        ∧ (js c ≠ Some true → http_fetch c url = (on_world (fst got) c1, None))))
  ∧ (∀ c' text, http_fetch c url = (c', Some text) →
       snd (http_allowed_by_robots c url) = true
       ∧ ((snd got = Some (200%Z, text) ∧ text ≠ [])
          ∨ ((∀ t, snd got = Some (200%Z, t) → t = [])
             ∧ js c = Some true ∧ snd (render (fst got) url) = Some text))).
Proof.
  intros c1 got. split; [apply http_fetch_refused|]. split.
  - intros Hok. split; [intros text; by apply http_fetch_get|].
    intros Hg. pose proof (http_fetch_fallback c url Hok Hg) as Hf.
    split; [done|]. intros Hjs. rewrite Hf. apply fetch_js_off.
    destruct (http_allowed_keeps c url) as [_ Hk]. cbn [on_world js]. unfold c1.
    by rewrite Hk.
  - intros c' text. apply http_fetch_source.
Qed.

(** X17. [HttpClient.allowed_by_robots] reads the robots file of a base
    once: after a question about a URL, a question about a URL of the same
    base is answered by the parser the client has kept, and leaves the
    client and the network as they are. *)
Theorem robots_file_is_kept {W P : Type} {Nt : Net W P}
    (c : HttpClient W P) (url1 url2 base : str) :
  reliable → base_of url1 = Some base → base_of url2 = Some base →
  let c1 := fst (http_allowed_by_robots c url1) in
  ∃ rp, robots c1 !! base = Some rp
        ∧ http_allowed_by_robots c1 url2 = (c1, default true (can_fetch rp url2)).
Proof. apply http_allowed_again. Qed.

Lemma robots_file_is_kept_witness :
  let c := @new_client unit unit true tt in
  let url1 := py "http://example.edu/people" in
  let url2 := py "http://example.edu/private/staff" in
  let base := py "http://example.edu" in
  @reliable unit unit OneHost.net
  ∧ @base_of unit unit OneHost.net url1 = Some base
  ∧ @base_of unit unit OneHost.net url2 = Some base
  ∧ let c1 := fst (@http_allowed_by_robots unit unit OneHost.net c url1) in
    ∃ rp, robots c1 !! base = Some rp
          ∧ @http_allowed_by_robots unit unit OneHost.net c1 url2
            = (c1, default true (@can_fetch unit unit OneHost.net rp url2)).
Proof.
  intros c url1 url2 base.
  assert (Hrel : @reliable unit unit OneHost.net) by (intros w b; discriminate).
  split; [exact Hrel|]. split; [reflexivity|]. split; [reflexivity|].
  exact (@robots_file_is_kept unit unit OneHost.net c url1 url2 base Hrel eq_refl eq_refl).
Defined.

(** X18. A crawl of [process_site] with a fresh [HttpClient] reads the
    robots file of a base at most once, and exactly of the bases it has a
    parser for in the end; and every page it asks for, by [session.get] or
    by the browser, is a page that the parser for its base did not
    refuse. *)
Theorem crawl_reads_robots_once {U : Unicode} {D : Dom} {W P : Type} {Nt : Net W P}
    (playwright : bool) (w : W) (site : str) (max_profiles : option Z) (pr : Progress) :
  reliable →
  ∃ cr,
    @process_site U D (HttpClient (W * list wire) P) (@http_client _ _ recording_net)
      (new_client playwright (w, [])) site max_profiles pr = Some cr
    ∧ let log := snd (world (client cr)) in
      NoDup (robots_read log)
      ∧ (∀ b, RobotsTxt b ∈ log ↔ b ∈ dom (robots (client cr)))
      ∧ (∀ url, Get url ∈ log ∨ Rendered url ∈ log → permitted (client cr) url).
Proof.
  intros Hrel.
  destruct (@process_site_reaches U D _ (@http_client _ _ recording_net)
              (new_client playwright (w, [])) site max_profiles pr) as (cr & Hcr & Hreach).
  exists cr. split; [done|].
  apply (@reaches_invariant _ (@http_client _ _ recording_net) wire_ok _ _
           (λ c url, allowed_wire_ok c url Hrel) (λ c url, fetch_wire_ok c url Hrel) Hreach).
  apply new_client_wire_ok.
Qed.

Lemma crawl_reads_robots_once_witness :
  @reliable unit unit OneHost.net
  ∧ ∃ cr,
      @process_site ascii_unicode Demo.dom (HttpClient (unit * list wire) unit)
        (@http_client _ _ (@recording_net unit unit OneHost.net))
        (new_client true (tt, [])) Demo.listing1 None Demo.start = Some cr
      ∧ let log := snd (world (client cr)) in
        NoDup (robots_read log)
        ∧ (∀ b, RobotsTxt b ∈ log ↔ b ∈ dom (robots (client cr)))
        ∧ (∀ url, Get url ∈ log ∨ Rendered url ∈ log
                  → @permitted unit unit OneHost.net (client cr) url).
Proof.
  assert (Hrel : @reliable unit unit OneHost.net) by (intros w b; discriminate).
  split; [exact Hrel|].
  exact (@crawl_reads_robots_once ascii_unicode Demo.dom unit unit OneHost.net
           true tt Demo.listing1 None Demo.start Hrel).
Defined.

(** X19. [extract_name] returns the empty string or a name that passes
    [looks_like_human_name] and has from 1 to 80 characters, whether it
    takes it from a heading or from a labelled value of the page. *)
Theorem extract_name_is_a_name {U : Unicode} {E : Type} {S : Soup E} (soup : E) :
  Page.extract_name soup = []
  ∨ (looks_like_human_name (Page.extract_name soup) = true
     ∧ (1 ≤ length (Page.extract_name soup) ≤ 80)%nat).
Proof. apply extract_name_spec. Qed.

(** X20. [parse_label_value_blocks] returns a dict of the labels that have
    a text and a value with a text, each once: the value of a label is the
    one of its last occurrence among the [dt]/[dd] pairs and then the
    two-cell table rows of the page, and a label the page does not have is
    not a key. *)
Theorem parse_label_value_blocks_last_wins
    {U : Unicode} {E : Type} {S : Soup E} (soup : E) :
  NoDup (Page.parse_label_value_blocks soup).*1
  ∧ (∀ k, dict_get k (Page.parse_label_value_blocks soup)
          = snd <$> last (filter (λ kv, kv.1 = k) (label_value_texts soup)))
  ∧ Forall (λ kv, kv ∈ label_value_texts soup ∧ kv.1 ≠ [] ∧ kv.2 ≠ [])
           (Page.parse_label_value_blocks soup).
Proof.
  rewrite parse_label_value_blocks_assigns.
  assert (Hnd : NoDup (foldl assign [] (label_value_texts soup)).*1).
  { apply assigned_NoDup. constructor. }
  assert (Hget : ∀ k, dict_get k (foldl assign [] (label_value_texts soup))
          = snd <$> last (filter (λ kv, kv.1 = k) (label_value_texts soup))).
  { intros k. rewrite assigned_get. by destruct (last _). }
  split; [done|]. split; [done|].
  apply Forall_forall. intros [k v] Hin.
  pose proof (dict_get_elem k v _ Hnd Hin) as Hk. rewrite Hget in Hk.
  destruct (last _) as [[k' v']|] eqn:Hl; [|done]. injection Hk as ->.
  apply last_Some in Hl as (l' & Hl).
  assert (Hf : (k', v) ∈ filter (λ kv, kv.1 = k) (label_value_texts soup)).
  { rewrite Hl. apply elem_of_app. right. by left. }
  apply list_elem_of_filter in Hf as [Hk' Hf]. simpl in Hk'. subst k'.
  split; [done|].
  unfold label_value_texts in Hf. by apply list_elem_of_filter in Hf as [? _].
Qed.

(** X21. The entries of [discover_profiles] have pairwise distinct URLs.
    Each comes from an anchor of the listing containers (of the whole page
    when there is none) that [is_person_link] accepts: its URL is the
    anchor's [href], which is not empty and does not start with [#], joined
    to the base URL, and its name is the tidied name found near the anchor,
    which passes [looks_like_human_name] and has at most 80 characters.
    And no such anchor is forgotten: the URL of every accepted anchor with
    such a name is among the entries. *)
Theorem discover_profiles_links
    {U : Unicode} {E : Type} {S : Soup E} (soup : E) (base_url : str) :
  NoDup (link_url <$> Page.discover_profiles soup base_url)
  ∧ Forall (λ p, ∃ a h,
        a ∈ listed_anchors soup
        ∧ Page.is_person_link a base_url = true
        ∧ get_href a = Some h ∧ h ≠ [] ∧ startswith h (py "#") = false
        ∧ link_url p = soup_urljoin base_url h
        ∧ link_name p = Page.card_name a
        ∧ looks_like_human_name (link_name p) = true
        ∧ (1 ≤ length (link_name p) ≤ 80)%nat)
      (Page.discover_profiles soup base_url)
  ∧ (∀ a, a ∈ listed_anchors soup →
       Page.is_person_link a base_url = true →
       looks_like_human_name (Page.card_name a) = true →
       target base_url a ∈ link_url <$> Page.discover_profiles soup base_url).
Proof.
  unfold Page.discover_profiles. fold (listed_anchors soup).
  destruct (discover_steps base_url (listed_anchors soup) ([], ∅))
    as ([Hnd _] & (added & Heq & Hall) & Hin).
  { split; [constructor|]. intros u. cbn [fst snd fmap list_fmap].
    split; [by intros ?%not_elem_of_empty|by intros ?%elem_of_nil]. }
  split; [done|]. split; [|done].
  rewrite Heq. cbn [fst app]. eapply Forall_impl; [exact Hall|].
  intros p (a & Ha & Hp & Hu & Hn & Hh).
  destruct (is_person_link_href base_url a Hp) as (h & Hhref & Hne & Hs & _).
  exists a, h. split; [done|]. split; [done|]. split; [done|]. split; [done|].
  split; [done|]. split; [by rewrite Hu; unfold target; rewrite Hhref|].
  split; [done|]. split; [done|]. split.
  - apply looks_like_human_name_nonempty in Hh. destruct (link_name p); [done|simpl; lia].
  - rewrite Hn. apply card_name_length.
Qed.

(** X22. When the pages are read with BeautifulSoup, every result of
    [process_site] has a name of 1 to 80 characters, a school of at most
    120 and a research area of at most 500; so has every row of
    [scrape_sites] for its school and, when nothing is translated, for its
    name and research area. *)
Theorem fields_fit
    {U : Unicode} {E : Type} {S : Soup E} {C T : Type} {Cl : Client C} {Tr : Translator T}
    (c : C) (t : T) (max_profiles : option Z) (pr : Progress) :
  (∀ site, ∃ cr,
      @process_site U soup_dom C Cl c site max_profiles pr = Some cr
      ∧ Forall (λ res, (1 ≤ length (r_name res) ≤ 80)%nat
                       ∧ (length (r_school res) ≤ 120)%nat
                       ∧ (length (r_research_area res) ≤ 500)%nat) (results cr))
  ∧ (∀ sites uni_label translate_en, ∃ rws pr',
      @scrape_sites U soup_dom C T Cl Tr c t sites uni_label max_profiles translate_en pr
        = Some (rws, pr')
      ∧ Forall (λ row, (length (school row) ≤ 120)%nat
                       ∧ (translate_en = false →
                            (1 ≤ length (name row) ≤ 80)%nat
                            ∧ (length (research_area row) ≤ 500)%nat)) rws).
Proof.
  split.
  - intros site.
    destruct (@process_site_kept U soup_dom C Cl c site max_profiles pr)
      as (cr & delta & Hcr & _ & _ & _ & Hp & _).
    exists cr. split; [done|]. eapply Forall_impl; [exact Hp|].
    intros res Hres. by apply parsed_sizes in Hres.
  - intros sites uni_label translate_en. unfold scrape_sites.
    match goal with |- context [each_site _ _ _ _ ?s] =>
      destruct (@each_site_rows U soup_dom C T Cl Tr sites uni_label max_profiles
                  translate_en s) as (st' & added & -> & Hr & Hf) end.
    simpl in Hr. eexists _, _. split; [done|].
    rewrite Hr. apply Forall_forall. intros row Hin.
    eapply elem_of_sublist in Hin; [|apply dedup_sublist].
    rewrite Forall_forall in Hf.
    destruct (Hf row Hin) as (site & res & _ & _ & Hp & (_ & Hsc & _) & Hn & Hra).
    apply parsed_sizes in Hp as (Hln & Hls & Hlr).
    rewrite Hsc. split; [done|]. intros Hte.
    destruct Hn as [->|(Hte' & _)]; [|congruence].
    destruct Hra as [->|(Hte' & _)]; [|congruence]. done.
Qed.

(** X23. [infer_university_from_url] returns the empty string when
    tldextract raises.  Otherwise, with [name] the domain label, hyphens
    turned into spaces and title-cased: it returns [name] itself when [name]
    holds one of University, College, 学院, 大学, and [name] followed by
    " University" when it holds none; so what it returns then always holds
    one of these four words. *)
Theorem infer_university_names_a_university
    {U : Unicode} {E : Type} {S : Soup E} (url : str) :
  let words := [py "University"; py "College"; py "学院"; py "大学"] in
  (ext_domain url = None → Page.infer_university_from_url url = [])
  ∧ (∀ domain, ext_domain url = Some domain →
       let name := title (replace "-" " " domain) in
       ((∃ w, w ∈ words ∧ substring w name) → Page.infer_university_from_url url = name)
       ∧ ((∀ w, w ∈ words → ¬ substring w name) →
            Page.infer_university_from_url url = name ++ py " University")
       ∧ ∃ w, w ∈ words ∧ substring w (Page.infer_university_from_url url)).
Proof.
  intros words. unfold Page.infer_university_from_url. split; [by intros ->|].
  intros domain ->. set (name := title (replace "-" " " domain)). cbn [forallb].
  assert (Hw : ∀ w, w ∈ words →
            w = py "University" ∨ w = py "College" ∨ w = py "学院" ∨ w = py "大学").
  { intros w Hin. subst words. repeat (apply elem_of_cons in Hin as [->|Hin]; [tauto|]).
    by apply elem_of_nil in Hin. }
  assert (Hadd : substring (py "University") (name ++ py " University")).
  { exists (name ++ py " "), []. by rewrite app_nil_r, <- app_assoc. }
  destruct (contains name (py "University")) eqn:H1; cbn [negb andb].
  { apply contains_spec in H1. split; [done|]. split.
    - intros Hno. destruct (Hno (py "University")); [by left|done].
    - exists (py "University"). split; [by left|done]. }
  destruct (contains name (py "College")) eqn:H2; cbn [negb andb].
  { apply contains_spec in H2. split; [done|]. split.
    - intros Hno. destruct (Hno (py "College")); [by right; left|done].
    - exists (py "College"). split; [by right; left|done]. }
  destruct (contains name (py "学院")) eqn:H3; cbn [negb andb].
  { apply contains_spec in H3. split; [done|]. split.
    - intros Hno. destruct (Hno (py "学院")); [by right; right; left|done].
    - exists (py "学院"). split; [by right; right; left|done]. }
  destruct (contains name (py "大学")) eqn:H4; cbn [negb andb].
  { apply contains_spec in H4. split; [done|]. split.
    - intros Hno. destruct (Hno (py "大学")); [by right; right; right; left|done].
    - exists (py "大学"). split; [by right; right; right; left|done]. }
  split; [|split; [done|]].
  - intros (w & Hin & Hsub). apply contains_spec in Hsub.
    destruct (Hw w Hin) as [Heq|[Heq|[Heq|Heq]]]; subst w; congruence.
  - exists (py "University"). split; [by left|done].
Qed.

(** X24. [tidy_title_name] only cuts a title: what it returns is the start
    of the title once stripped and with every run of whitespace turned into
    one space (the empty string is such a start), and has at most 80
    characters. *)
Theorem tidy_title_name_cuts (t : str) :
  tidy_title_name t `prefix_of` sub sp1 (py " ") (strip t)
  ∧ (length (tidy_title_name t) ≤ 80)%nat.
Proof. split; [apply tidy_title_name_prefix|apply tidy_title_name_length]. Qed.

(** X25. [tidy_title_name] returns a title as it is when the title has 1 to
    80 characters, single spaces as its only whitespace and none at its
    ends, no bar, hyphen or dash, not the word "university" in any mix of
    cases and, if it has a character of U+4E00..U+9FFF, none of the marks
    [，,。、：:(（)]. *)
Theorem tidy_title_name_keeps_a_name (t : str) :
  single_spaced t →
  (∀ c, head t = Some c → is_space c = false) →
  (∀ c, last t = Some c → is_space c = false) →
  Forall (λ c, title_mark c = false) t →
  contains_ci t (py "university") = false →
  (Exists (λ c, is_cjk c = true) t → Forall (λ c, name_break c = false) t) →
  (1 ≤ length t ≤ 80)%nat →
  tidy_title_name t = t.
Proof. apply tidy_title_name_plain. Qed.

Lemma tidy_title_name_keeps_a_name_witness :
  tidy_title_name (py "Jane Doe") = py "Jane Doe".
Proof.
  apply tidy_title_name_keeps_a_name.
  - change (py "Jane Doe") with [74; 97; 110; 101; 32; 68; 111; 101].
    repeat first
      [ apply single_spaced_nil
      | apply single_spaced_cons;
        [ first [ by left | right; split; [done|by intros d [= <-]] ] | ] ].
  - by intros c [= <-].
  - by intros c [= <-].
  - by repeat constructor.
  - by vm_compute.
  - intros Hc. apply found_chr in Hc. by vm_compute in Hc.
  - vm_compute. lia.
Defined.

(** X26. When [scrape_sites] returns, [runner] stores the rows it has
    returned, all of them (each has an email, so the filter on the email
    drops none), sets "visited" to their number, which is at most the number
    of results counted during the crawl, and sets "done".  The message it
    leaves is the last one written during the crawl, or "Starting scrape…"
    if none was: it is never "Complete". *)
Theorem runner_report
    {U : Unicode} {D : Dom} {C T : Type} {Cl : Client C} {Tr : Translator T}
    (c : C) (t : T) (js_error : str) (sites : list str) (uni_label : str)
    (max_profiles : option Z) (translate_en : bool) :
  ∃ rws pr job,
    scrape_sites c t sites uni_label max_profiles translate_en
      {| messages := []; visited_count := 0; done := false |} = Some (rws, pr)
    ∧ runner c t js_error sites uni_label max_profiles translate_en = Some job
    ∧ job_rows job = rws
    ∧ job_visited job = length rws
    ∧ (length rws ≤ visited_count pr)%nat
    ∧ job_done job = true
    ∧ job_message job = shown js_error (py "Starting scrape…") pr
    ∧ job_message job ≠ py "Complete".
Proof.
  unfold runner.
  destruct (scrape_sites c t sites uni_label max_profiles translate_en _)
    as [[rws pr]|] eqn:Hs.
  2:{ unfold scrape_sites in Hs.
      match type of Hs with context [each_site _ _ _ _ ?s] =>
        destruct (each_site_rows sites uni_label max_profiles translate_en s)
          as (st' & added & He & _) end.
      by rewrite He in Hs. }
  apply scrape_sites_counts in Hs as [Hc Hem]. cbn [visited_count] in Hc.
  assert (Hf : filter (λ r, nonempty (email r) = true) rws = rws).
  { clear Hc. induction Hem as [|row rws Hrow Hem IH]; [done|].
    rewrite filter_cons_True; [by rewrite IH|]. by apply nonempty_spec. }
  destruct (shown_not_complete js_error pr) as [Hne Hnc].
  eexists _, _, _. split; [done|]. split; [done|]. cbn [job_rows job_visited job_done job_message].
  rewrite Hf. apply nonempty_spec in Hne. rewrite Hne.
  split; [done|]. split; [done|]. split; [lia|]. done.
Qed.
